(** * oauth-cli: PKCE generation, token store, file lock, refresh and the
      callback listener, embedded from the Go sources.

    Go values are modelled as follows.
    - [string] is a byte string, so [String.length] is Go's [len].
    - [int] is a [Z]; where the source multiplies into a [time.Duration]
      the 64-bit wrap-around is written out ([wrap64]).
    - [time.Time] is the instant in nanoseconds since the Unix epoch.
    - [error] is the inductive [error]: one constructor per [fmt.Errorf]
      site, with wrapped errors as arguments, and the package-level
      sentinel [ErrRefreshTokenExpired] as a constant constructor.
    - a nil-able pointer or map is an [option]; a Go map is a [gmap].
    - byte slices that the program hands to encoding/json (file contents,
      HTTP bodies) are [Data]: either a JSON text, given by its syntax
      tree, or a text that is not JSON.
    - package-level configuration variables are the record [Config].
    - the file system, the clock and the other processes are the record
      [World]; functions that touch them are state transformers [M]. *)

From Stdlib Require Import ZArith NArith Lia.
From Stdlib Require Import Strings.Ascii Strings.Byte.
From Stdlib Require DecimalString DecimalZ.
From stdpp Require Import base gmap strings list fin_maps sorting.

Local Open Scope Z_scope.

(** ** JSON texts *)

Local Set Warnings "-register-all".

(** A number literal: an integer literal, or any other literal (with a
    fraction or an exponent), kept as written. *)
Inductive jnumber :=
  | JInt (z : Z)
  | JNonInt (literal : string).

Inductive json :=
  | JNull
  | JBool (b : bool)
  | JNumber (n : jnumber)
  | JString (s : string)
  | JArray (items : list json)
  | JObject (members : list (string * json)).

Inductive Data :=
  | NotJSON (raw : string)
  | JSONText (doc : json).

(** ** Errors *)

(** Error numbers the operating system reports for the file operations the
    program performs. *)
Inductive Errno := EEXIST | ENOENT | EACCES | EIO | ENOSPC | EXDEV | EISDIR.

Global Instance Errno_eq_dec : EqDecision Errno.
Proof. solve_decision. Defined.

Inductive error : Type :=
  (* var ErrRefreshTokenExpired = fmt.Errorf("refresh token expired or invalid") *)
  | ErrRefreshTokenExpired
  (* the os.PathError returned by a file operation *)
  | PathError (op : string) (path : string) (errno : Errno)
  (* errors of encoding/json *)
  | JSONSyntaxError
  | JSONTypeError
  | JSONMarshalError
  (* loadTokens *)
  | ErrParseTokenFile (cause : error)
  | ErrNoTokensInFile
  | ErrNoTokensForClient (client_id : string)
  (* acquireFileLock *)
  | ErrRemoveStaleLock (lockPath : string) (cause : error)
  | ErrAcquireFileLock (cause : error)
  | ErrLockTimeout (waited_ns : Z)
  (* saveTokens *)
  | ErrAcquireLock (cause : error)
  | ErrWriteTemp (cause : error)
  | ErrRenameTemp (cause : error)
  | ErrRenameAndRemoveTemp (rename_err : error) (remove_err : error)
  (* validateTokenResponse *)
  | ErrAccessTokenEmpty
  | ErrAccessTokenTooShort (len : Z)
  | ErrExpiresInNotPositive (expires_in : Z)
  | ErrUnexpectedTokenType (token_type : string)
  (* refreshAccessToken *)
  | ErrCreateRequest (cause : error)
  | ErrRefreshRequestFailed (cause : error)
  | ErrReadResponse (cause : error)
  | ErrOAuth (code : string) (description : string)
  | ErrRefreshStatus (status : Z) (body : Data)
  | ErrParseTokenResponse (cause : error)
  | ErrInvalidTokenResponse (cause : error)
  (* makeAPICallWithAutoRefresh *)
  | ErrAPIRequestFailed (cause : error)
  | ErrRefreshFailed (cause : error)
  | ErrCreateRetryRequest (cause : error)
  | ErrRetryFailed (cause : error)
  | ErrAPICallStatus (status : Z) (body : Data)
  (* errors of the HTTP transport and of rand.Read *)
  | ErrTransport (msg : string)
  | ErrEntropy (msg : string)
  (* GeneratePKCE *)
  | ErrRandomBytes (cause : error).


(** [os.IsExist] and [os.IsNotExist]. *)
Definition os_IsExist (err : error) : bool :=
  match err with PathError _ _ EEXIST => true | _ => false end.
Definition os_IsNotExist (err : error) : bool :=
  match err with PathError _ _ ENOENT => true | _ => false end.

(** ** validateTokenResponse *)

Definition validateTokenResponse
    (accessToken tokenType : string) (expiresIn : Z) : option error :=
  if decide (accessToken = "") then Some ErrAccessTokenEmpty
  else if decide (Z.of_nat (String.length accessToken) < 10) then
    Some (ErrAccessTokenTooShort (Z.of_nat (String.length accessToken)))
  else if decide (expiresIn <= 0) then Some (ErrExpiresInNotPositive expiresIn)
  else if decide (tokenType ≠ "" ∧ tokenType ≠ "Bearer") then
    Some (ErrUnexpectedTokenType tokenType)
  else None.

(** ** encoding/json, as far as the program's types need it

    [json.Unmarshal] first checks that the whole input is a JSON text and
    reports a syntax error otherwise.  It then decodes into the
    destination: [null] leaves a string, number or struct as it is and
    sets a map or pointer to nil; a member whose name matches no field is
    skipped; names match without regard to letter case.  Every caller in
    the program discards the destination when an error is returned, so
    the decoders return [None] for any error. *)

Definition upper (c : ascii) : ascii :=
  let n := nat_of_ascii c in
  if ((97 <=? n) && (n <=? 122))%nat then ascii_of_nat (n - 32) else c.

Definition is_byte (n : nat) (c : ascii) : bool := (nat_of_ascii c =? n)%nat.

(** [foldName] of encoding/json: an ASCII letter goes to upper case, any
    other rune to the smallest rune of its case-folding set.  Two runes
    outside ASCII fold to an ASCII letter: U+212A, the Kelvin sign (bytes
    226 132 170), to K, and U+017F, the long s (bytes 197 191), to S.
    Every other rune outside ASCII stays outside ASCII; its bytes are
    kept here, which makes no difference to a comparison with the names
    of the program's fields, all ASCII. *)
Fixpoint foldName (s : string) : string :=
  match s with
  | EmptyString => EmptyString
  | String c r =>
      match r with
      | String c1 r1 =>
          if is_byte 197 c && is_byte 191 c1 then String "S" (foldName r1)
          else
            match r1 with
            | String c2 r2 =>
                if is_byte 226 c && is_byte 132 c1 && is_byte 170 c2
                then String "K" (foldName r2)
                else String (upper c) (foldName r)
            | EmptyString => String (upper c) (foldName r)
            end
      | EmptyString => String (upper c) (foldName r)
      end
  end.

Definition field_match (key name : string) : bool :=
  bool_decide (foldName key = foldName name).

(** Member names that match a field: in another letter case, or written
    with the long s or the Kelvin sign. *)
Example field_match_folds :
  let long_s := String (ascii_of_nat 197) (String (ascii_of_nat 191) "") in
  let kelvin :=
    String (ascii_of_nat 226) (String (ascii_of_nat 132)
      (String (ascii_of_nat 170) "")) in
  field_match "Access_Token" "access_token" = true ∧
  field_match (long_s +:+ "cope") "scope" = true ∧
  field_match ("to" +:+ kelvin +:+ "ens") "tokens" = true ∧
  field_match "token" "tokens" = false ∧
  field_match (String (ascii_of_nat 226) "okens") "tokens" = false.
Proof. vm_compute. done. Qed.

Fixpoint foldlM {A B} (f : B → A → option B) (l : list A) (b : B) : option B :=
  match l with
  | [] => Some b
  | a :: l => b' ← f b a; foldlM f l b'
  end.

Definition decode_string (cur : string) (j : json) : option string :=
  match j with
  | JNull => Some cur
  | JString s => Some s
  | _ => None
  end.

(** Go's [int] is 64 bits wide on the supported platforms. *)
Definition in_int64 (z : Z) : Prop := - 2 ^ 63 <= z < 2 ^ 63.

Global Instance in_int64_dec z : Decision (in_int64 z).
Proof. unfold in_int64. apply _. Defined.

Definition decode_int (cur : Z) (j : json) : option Z :=
  match j with
  | JNull => Some cur
  | JNumber (JInt z) => if decide (in_int64 z) then Some z else None
  | _ => None
  end.

Definition decode_struct {T} (set_field : T → string * json → option T)
    (cur : T) (j : json) : option T :=
  match j with
  | JNull => Some cur
  | JObject members => foldlM set_field members cur
  | _ => None
  end.

(** [time.Time] marshals to an RFC 3339 string and fails for a year outside
    0..9999; it unmarshals from such a string.  The two conversions are
    taken as an interface with the laws the program relies on: a rendered
    instant reads back as itself, and an instant that was read can be
    rendered. *)
Class TimeCodec := {
  formatRFC3339 : Z → option string;
  parseRFC3339 : string → option Z;
  parse_format t s : formatRFC3339 t = Some s → parseRFC3339 s = Some t;
  format_parse s t : parseRFC3339 s = Some t → is_Some (formatRFC3339 t);
}.

(** ErrorResponse is an OAuth error payload. *)
Record ErrorResponse := {
  Error : string;
  ErrorDescription : string;
}.

Definition set_ErrorResponse_field (r : ErrorResponse) (m : string * json)
    : option ErrorResponse :=
  if field_match m.1 "error" then
    v ← decode_string (Error r) m.2;
    Some {| Error := v; ErrorDescription := ErrorDescription r |}
  else if field_match m.1 "error_description" then
    v ← decode_string (ErrorDescription r) m.2;
    Some {| Error := Error r; ErrorDescription := v |}
  else Some r.

(** TokenStorage holds persisted OAuth tokens for one client. *)
Record TokenStorage := {
  AccessToken : string;
  RefreshToken : string;
  TokenType : string;
  ExpiresAt : Z;
  ClientID : string;
}.

Global Instance TokenStorage_eq_dec : EqDecision TokenStorage.
Proof. solve_decision. Defined.

(** TokenStorageMap manages tokens for multiple clients in one file.
    [Tokens] is a Go map of pointers: [None] is the nil map, and an entry
    [None] is a nil pointer. *)
Record TokenStorageMap := {
  Tokens : option (gmap string (option TokenStorage));
}.

(** The token response of the refresh request (an anonymous struct in the
    source). *)
Module tokenResp.
Record t := {
  AccessToken : string;
  RefreshToken : string;
  TokenType : string;
  ExpiresIn : Z;
}.
Definition zero : t :=
  {| AccessToken := ""; RefreshToken := ""; TokenType := ""; ExpiresIn := 0 |}.
Definition set_field (r : t) (m : string * json) : option t :=
  if field_match m.1 "access_token" then
    v ← decode_string (AccessToken r) m.2;
    Some {| AccessToken := v; RefreshToken := RefreshToken r;
            TokenType := TokenType r; ExpiresIn := ExpiresIn r |}
  else if field_match m.1 "refresh_token" then
    v ← decode_string (RefreshToken r) m.2;
    Some {| AccessToken := AccessToken r; RefreshToken := v;
            TokenType := TokenType r; ExpiresIn := ExpiresIn r |}
  else if field_match m.1 "token_type" then
    v ← decode_string (TokenType r) m.2;
    Some {| AccessToken := AccessToken r; RefreshToken := RefreshToken r;
            TokenType := v; ExpiresIn := ExpiresIn r |}
  else if field_match m.1 "expires_in" then
    v ← decode_int (ExpiresIn r) m.2;
    Some {| AccessToken := AccessToken r; RefreshToken := RefreshToken r;
            TokenType := TokenType r; ExpiresIn := v |}
  else Some r.
End tokenResp.

Section Codec.
Context `{TimeCodec}.

Definition decode_time (cur : Z) (j : json) : option Z :=
  match j with
  | JNull => Some cur
  | JString s => parseRFC3339 s
  | _ => None
  end.

Definition zero_TokenStorage : TokenStorage :=
  {| AccessToken := ""; RefreshToken := ""; TokenType := "";
     ExpiresAt := 0; ClientID := "" |}.

Definition set_TokenStorage_field (r : TokenStorage) (m : string * json)
    : option TokenStorage :=
  if field_match m.1 "access_token" then
    v ← decode_string (AccessToken r) m.2;
    Some {| AccessToken := v; RefreshToken := RefreshToken r;
            TokenType := TokenType r; ExpiresAt := ExpiresAt r;
            ClientID := ClientID r |}
  else if field_match m.1 "refresh_token" then
    v ← decode_string (RefreshToken r) m.2;
    Some {| AccessToken := AccessToken r; RefreshToken := v;
            TokenType := TokenType r; ExpiresAt := ExpiresAt r;
            ClientID := ClientID r |}
  else if field_match m.1 "token_type" then
    v ← decode_string (TokenType r) m.2;
    Some {| AccessToken := AccessToken r; RefreshToken := RefreshToken r;
            TokenType := v; ExpiresAt := ExpiresAt r;
            ClientID := ClientID r |}
  else if field_match m.1 "expires_at" then
    v ← decode_time (ExpiresAt r) m.2;
    Some {| AccessToken := AccessToken r; RefreshToken := RefreshToken r;
            TokenType := TokenType r; ExpiresAt := v;
            ClientID := ClientID r |}
  else if field_match m.1 "client_id" then
    v ← decode_string (ClientID r) m.2;
    Some {| AccessToken := AccessToken r; RefreshToken := RefreshToken r;
            TokenType := TokenType r; ExpiresAt := ExpiresAt r;
            ClientID := v |}
  else Some r.

(** A map element is decoded into a fresh pointer: [null] gives nil. *)
Definition decode_entry (j : json) : option (option TokenStorage) :=
  match j with
  | JNull => Some None
  | _ => Some <$> decode_struct set_TokenStorage_field zero_TokenStorage j
  end.

Definition set_entry (m : gmap string (option TokenStorage))
    (kv : string * json) : option (gmap string (option TokenStorage)) :=
  e ← decode_entry kv.2; Some (<[kv.1 := e]> m).

Definition decode_tokens (cur : option (gmap string (option TokenStorage)))
    (j : json) : option (option (gmap string (option TokenStorage))) :=
  match j with
  | JNull => Some None
  | JObject members => Some <$> foldlM set_entry members (default ∅ cur)
  | _ => None
  end.

Definition set_TokenStorageMap_field (r : TokenStorageMap) (m : string * json)
    : option TokenStorageMap :=
  if field_match m.1 "tokens" then
    v ← decode_tokens (Tokens r) m.2; Some {| Tokens := v |}
  else Some r.

(** [json.Unmarshal(data, &v)] for the three destination types, [v] being
    the zero value in every call of the program. *)
Definition json_Unmarshal_with {T} (set_field : T → string * json → option T)
    (zero : T) (data : Data) : T + error :=
  match data with
  | NotJSON _ => inr JSONSyntaxError
  | JSONText doc =>
      match decode_struct set_field zero doc with
      | Some v => inl v
      | None => inr JSONTypeError
      end
  end.

Definition json_Unmarshal_TokenStorageMap : Data → TokenStorageMap + error :=
  json_Unmarshal_with set_TokenStorageMap_field {| Tokens := None |}.

Definition json_Unmarshal_ErrorResponse : Data → ErrorResponse + error :=
  json_Unmarshal_with set_ErrorResponse_field {| Error := ""; ErrorDescription := "" |}.

Definition json_Unmarshal_tokenResp : Data → tokenResp.t + error :=
  json_Unmarshal_with tokenResp.set_field tokenResp.zero.

(** [json.MarshalIndent]: struct fields in declaration order, map keys
    sorted; indentation does not show in the syntax tree.  Strings are
    written as they are, which is what [json.Marshal] does for valid
    UTF-8; it replaces other bytes by U+FFFD, so for a token or a client
    id that is not valid UTF-8 the file holds a different string. *)
Definition encode_TokenStorage (t : TokenStorage) : option json :=
  ts ← formatRFC3339 (ExpiresAt t);
  Some (JObject [ ("access_token", JString (AccessToken t));
                  ("refresh_token", JString (RefreshToken t));
                  ("token_type", JString (TokenType t));
                  ("expires_at", JString ts);
                  ("client_id", JString (ClientID t)) ]).

Definition encode_entry (kv : string * option TokenStorage)
    : option (string * json) :=
  match kv.2 with
  | None => Some (kv.1, JNull)
  | Some t => j ← encode_TokenStorage t; Some (kv.1, j)
  end.

Definition key_le (a b : string * option TokenStorage) : Prop :=
  String.leb a.1 b.1 = true.

Global Instance key_le_dec a b : Decision (key_le a b).
Proof. unfold key_le. apply _. Defined.

Definition encode_tokens (m : option (gmap string (option TokenStorage)))
    : option json :=
  match m with
  | None => Some JNull
  | Some m => JObject <$> mapM encode_entry (merge_sort key_le (map_to_list m))
  end.

Definition json_MarshalIndent (sm : TokenStorageMap) : Data + error :=
  match encode_tokens (Tokens sm) with
  | Some j => inl (JSONText (JObject [("tokens", j)]))
  | None => inr JSONMarshalError
  end.

End Codec.

(** ** The world outside the process

    A file has contents, a modification time and permission bits.  Paths
    that differ as strings name different files (no links).  The clock
    counts nanoseconds.  [plan] lists, for the system calls still to come,
    what the environment does at each of them: how much time passes, what
    another process does to a file just before the call, and whether the
    call fails with an error number of the environment's choosing.  An
    exhausted plan means a world that is left alone.  [log] records the
    calls made so far. *)

Record File := {
  data : Data;
  mtime : Z;
  mode : Z;
}.

Inductive Interference :=
  | Nothing
  | Removes (path : string)
  | Writes (path : string) (f : File).

Record Env := {
  elapsed : Z;
  interference : Interference;
  fault : option Errno;
}.

Record HttpRequest := {
  req_method : string;
  req_url : string;
  req_header : list (string * string);
  req_form : list (string * string);
}.

Inductive HttpOutcome :=
  | NewRequestFails (err : error)
  | DoFails (err : error)
  | ReadAllFails (status : Z) (err : error)
  | Response (status : Z) (body : Data).

Inductive Event :=
  | EvOpenExcl (path : string) (err : option error)
  | EvWritePid (path : string)
  | EvClose (path : string)
  | EvStat (path : string)
  | EvRemove (path : string) (err : option error)
  | EvSleep (d : Z)
  | EvReadFile (path : string) (err : option error)
  | EvWriteFile (path : string) (err : option error)
  | EvRename (oldpath newpath : string) (err : option error)
  | EvHTTP (req : HttpRequest)
  | EvPrintWarning (err : error).

Global Instance Event_is_open_dec (ev : Event) :
  Decision (∃ p err, ev = EvOpenExcl p err).
Proof. destruct ev; solve [left; eauto | right; intros (? & ? & [=])]. Defined.

Record World := {
  files : gmap string File;
  clock : Z;
  plan : list Env;
  log : list Event;
  network : HttpRequest → HttpOutcome;
}.

Definition interfere (i : Interference) (fs : gmap string File)
    : gmap string File :=
  match i with
  | Nothing => fs
  | Removes p => delete p fs
  | Writes p f => <[p := f]> fs
  end.

(** State transformers over the world. *)
Definition M (A : Type) : Type := World → A * World.

Definition ret {A} (a : A) : M A := fun w => (a, w).

Definition bind {A B} (m : M A) (k : A → M B) : M B :=
  fun w => let (a, w') := m w in k a w'.

Notation "'let!' x ':=' m 'in' k" := (bind m (fun x => k))
  (at level 10, x pattern, m at level 100, k at level 200,
   format "'[v' 'let!'  x  ':='  m  'in' '/' k ']'").

Definition set_files (f : gmap string File → gmap string File) : M unit :=
  fun w => (tt, {| files := f (files w); clock := clock w; plan := plan w;
                   log := log w; network := network w |}).

Definition get_files : M (gmap string File) := fun w => (files w, w).

(** Entering a system call: the environment takes its turn, and the call
    learns whether it is made to fail. *)
Definition enter : M (option Errno) :=
  fun w =>
    match plan w with
    | [] => (None, w)
    | e :: rest =>
        (fault e,
         {| files := interfere (interference e) (files w);
            clock := clock w + Z.max 0 (elapsed e);
            plan := rest; log := log w; network := network w |})
    end.

(** Leaving a call: it is logged. *)
Definition emit (ev : Event) : M unit :=
  fun w => (tt, {| files := files w; clock := clock w; plan := plan w;
                   log := log w ++ [ev]; network := network w |}).

(** [time.Now()] as an instant. *)
Definition time_Now : M Z := fun w => (clock w, w).

(** [time.Sleep(d)]. *)
Definition time_Sleep (d : Z) : M unit :=
  fun w => (tt, {| files := files w; clock := clock w + d; plan := plan w;
                   log := log w ++ [EvSleep d]; network := network w |}).

(** [os.OpenFile(path, os.O_CREATE|os.O_EXCL|os.O_WRONLY, perm)]: fails
    with EEXIST when the file exists, creates it empty otherwise. *)
Definition os_OpenFile_excl (path : string) (perm : Z) : M (option error) :=
  let! f := enter in
  let! fs := get_files in
  let! now := time_Now in
  let! err :=
    match f with
    | Some errno => ret (Some (PathError "open" path errno))
    | None =>
        match fs !! path with
        | Some _ => ret (Some (PathError "open" path EEXIST))
        | None =>
            let! _ := set_files (insert path {| data := NotJSON ""; mtime := now;
                                                mode := perm |}) in
            ret None
        end
    end in
  let! _ := emit (EvOpenExcl path err) in
  ret err.

(** [fmt.Fprintf(lockFile, "%d", os.Getpid())]; the source ignores its
    result.  The digits of a process id are a JSON number. *)
Definition Fprintf_pid (path : string) (pid : Z) : M unit :=
  let! f := enter in
  let! now := time_Now in
  let! _ :=
    match f with
    | Some _ => ret tt
    | None =>
        set_files (fun fs =>
          match fs !! path with
          | Some file => <[path := {| data := JSONText (JNumber (JInt pid));
                                      mtime := now; mode := mode file |}]> fs
          | None => fs
          end)
    end in
  emit (EvWritePid path).

(** [Close] of the lock file; the source ignores its result. *)
Definition File_Close (path : string) : M unit :=
  let! _ := enter in emit (EvClose path).

(** [os.Stat(path)], as far as the modification time. *)
Definition os_Stat (path : string) : M (Z + error) :=
  let! f := enter in
  let! fs := get_files in
  let! _ := emit (EvStat path) in
  match f with
  | Some errno => ret (inr (PathError "stat" path errno))
  | None =>
      match fs !! path with
      | Some file => ret (inl (mtime file))
      | None => ret (inr (PathError "stat" path ENOENT))
      end
  end.

(** [os.Remove(path)]. *)
Definition os_Remove (path : string) : M (option error) :=
  let! f := enter in
  let! fs := get_files in
  let! err :=
    match f with
    | Some errno => ret (Some (PathError "remove" path errno))
    | None =>
        match fs !! path with
        | Some _ => let! _ := set_files (delete path) in ret None
        | None => ret (Some (PathError "remove" path ENOENT))
        end
    end in
  let! _ := emit (EvRemove path err) in
  ret err.

(** [os.ReadFile(path)]. *)
Definition os_ReadFile (path : string) : M (Data + error) :=
  let! f := enter in
  let! fs := get_files in
  let r :=
    match f with
    | Some errno => inr (PathError "open" path errno)
    | None =>
        match fs !! path with
        | Some file => inl (data file)
        | None => inr (PathError "open" path ENOENT)
        end
    end in
  let! _ := emit (EvReadFile path (match r with inl _ => None | inr e => Some e end)) in
  ret r.

(** [os.WriteFile(path, data, perm)]: creates the file with [perm] or
    truncates an existing one (keeping its permission bits), then writes.
    A failure while writing (no space, I/O error) leaves the file
    truncated; any other failure happens before the file is touched. *)
Definition os_WriteFile (path : string) (d : Data) (perm : Z) : M (option error) :=
  let! f := enter in
  let! fs := get_files in
  let! now := time_Now in
  let m := match fs !! path with Some file => mode file | None => perm end in
  let! err :=
    match f with
    | Some errno =>
        let! _ := (if decide (errno = ENOSPC ∨ errno = EIO)
                   then set_files (insert path {| data := NotJSON ""; mtime := now;
                                                  mode := m |})
                   else ret tt) in
        ret (Some (PathError "write" path errno))
    | None =>
        let! _ := set_files (insert path {| data := d; mtime := now; mode := m |}) in
        ret None
    end in
  let! _ := emit (EvWriteFile path err) in
  ret err.

(** [os.Rename(oldpath, newpath)]: atomic; a failed rename changes
    nothing. *)
Definition os_Rename (oldpath newpath : string) : M (option error) :=
  let! f := enter in
  let! fs := get_files in
  let! err :=
    match f with
    | Some errno => ret (Some (PathError "rename" oldpath errno))
    | None =>
        match fs !! oldpath with
        | Some file =>
            let! _ := set_files (fun fs => <[newpath := file]> (delete oldpath fs)) in
            ret None
        | None => ret (Some (PathError "rename" oldpath ENOENT))
        end
    end in
  let! _ := emit (EvRename oldpath newpath err) in
  ret err.

(** One call of the program to its HTTP client: the request is built
    ([http.NewRequestWithContext]), handed to [retryClient.DoWithContext]
    and the body is read ([io.ReadAll]).  The outcome is what this
    sequence hands back to the program.  The retrying client is a library
    outside this repository: it may put the request on the wire more than
    once before it answers (it sends again after a 5xx or 429 answer and
    after a transport error), so [EvHTTP] records the call of the client,
    not the requests that reach the server, and an outcome stands for
    the answer the client settles on. *)
Definition http_Do (req : HttpRequest) : M HttpOutcome :=
  fun w => (network w req,
            {| files := files w; clock := clock w; plan := plan w;
               log := log w ++ [EvHTTP req]; network := network w |}).

Definition print_warning (err : error) : M unit :=
  emit (EvPrintWarning err).

(** ** filelock.go *)

(** fileLock represents a file lock. *)
Record fileLock := {
  lockFile : option string;
  lockPath : string;
}.

Definition maxRetries : nat := 50.
Definition retryDelay : Z := 100 * 1000000.
Definition staleAfter : Z := 30 * 1000000000.

(** The body of the loop [for i := 0; i < maxRetries; i++], with
    [remaining = maxRetries - i]. *)
Fixpoint acquireFileLock_loop (pid : Z) (lockPath : string) (remaining : nat)
    : M (fileLock + error) :=
  match remaining with
  | O => ret (inr (ErrLockTimeout (Z.of_nat maxRetries * retryDelay)))
  | S remaining =>
      let! err := os_OpenFile_excl lockPath 384 in
      match err with
      | None =>
          let! _ := Fprintf_pid lockPath pid in
          ret (inl {| lockFile := Some lockPath; lockPath := lockPath |})
      | Some err =>
          if os_IsExist err then
            let! info := os_Stat lockPath in
            let! now := time_Now in
            match info with
            | inl modTime =>
                if decide (now - modTime > staleAfter) then
                  let! remErr := os_Remove lockPath in
                  match remErr with
                  | Some remErr =>
                      if negb (os_IsNotExist remErr) then
                        ret (inr (ErrRemoveStaleLock lockPath remErr))
                      else acquireFileLock_loop pid lockPath remaining
                  | None => acquireFileLock_loop pid lockPath remaining
                  end
                else
                  let! _ := time_Sleep retryDelay in
                  acquireFileLock_loop pid lockPath remaining
            | inr _ =>
                let! _ := time_Sleep retryDelay in
                acquireFileLock_loop pid lockPath remaining
            end
          else ret (inr (ErrAcquireFileLock err))
      end
  end.

(** acquireFileLock acquires an exclusive lock on the token file. *)
Definition acquireFileLock (pid : Z) (filePath : string) : M (fileLock + error) :=
  acquireFileLock_loop pid (filePath +:+ ".lock") maxRetries.

(** release releases the file lock. *)
Definition release (fl : fileLock) : M (option error) :=
  let! _ := match lockFile fl with
            | Some f => File_Close f
            | None => ret tt
            end in
  os_Remove (lockPath fl).

(** ** Token storage and refresh (main.go) *)

(** The package-level variables the token code reads, and the process id
    that [os.Getpid] returns. *)
Record Config := {
  serverURL : string;
  clientID : string;
  clientSecret : string;
  tokenFile : string;
  pid : Z;
}.

(** 64-bit two's complement wrap-around. *)
Definition wrap64 (z : Z) : Z := (z + 2 ^ 63) mod 2 ^ 64 - 2 ^ 63.

Definition time_Second : Z := 1000000000.

Section Store.
Context `{TimeCodec} (cfg : Config).

(** isPublicClient returns true when no client secret is configured. *)
Definition isPublicClient : bool := bool_decide (clientSecret cfg = "").

Definition loadTokens : M (option TokenStorage + error) :=
  let! r := os_ReadFile (tokenFile cfg) in
  match r with
  | inr err => ret (inr err)
  | inl data =>
      match json_Unmarshal_TokenStorageMap data with
      | inr err => ret (inr (ErrParseTokenFile err))
      | inl storageMap =>
          match Tokens storageMap with
          | None => ret (inr ErrNoTokensInFile)
          | Some tokens =>
              match tokens !! clientID cfg with
              | Some storage => ret (inl storage)
              | None => ret (inr (ErrNoTokensForClient (clientID cfg)))
              end
          end
      end
  end.

(** saveTokens writes through the pointer it is given
    ([storage.ClientID = clientID]), so the storage as the caller sees it
    afterwards is returned together with the error.  The deferred
    [lock.release()] runs after the result has been decided. *)
Definition saveTokens (storage : TokenStorage) : M (TokenStorage * option error) :=
  let storage :=
    if decide (ClientID storage = "") then
      {| AccessToken := AccessToken storage; RefreshToken := RefreshToken storage;
         TokenType := TokenType storage; ExpiresAt := ExpiresAt storage;
         ClientID := clientID cfg |}
    else storage in
  let! lock := acquireFileLock (pid cfg) (tokenFile cfg) in
  match lock with
  | inr err => ret (storage, Some (ErrAcquireLock err))
  | inl lock =>
      let! result :=
        (let! existing := os_ReadFile (tokenFile cfg) in
         let storageMap :=
           match existing with
           | inl existing =>
               match json_Unmarshal_TokenStorageMap existing with
               | inl storageMap => storageMap
               | inr _ => {| Tokens := Some ∅ |}
               end
           | inr _ => {| Tokens := None |}
           end in
         let tokens :=
           match Tokens storageMap with
           | None => ∅
           | Some tokens => tokens
           end in
         let storageMap :=
           {| Tokens := Some (<[ClientID storage := Some storage]> tokens) |} in
         match json_MarshalIndent storageMap with
         | inr err => ret (Some err)
         | inl data =>
             let tempFile := tokenFile cfg +:+ ".tmp" in
             let! err := os_WriteFile tempFile data 384 in
             match err with
             | Some err => ret (Some (ErrWriteTemp err))
             | None =>
                 let! err := os_Rename tempFile (tokenFile cfg) in
                 match err with
                 | Some err =>
                     let! removeErr := os_Remove tempFile in
                     match removeErr with
                     | Some removeErr =>
                         ret (Some (ErrRenameAndRemoveTemp err removeErr))
                     | None => ret (Some (ErrRenameTemp err))
                     end
                 | None => ret None
                 end
             end
         end) in
      let! _ := release lock in
      ret (storage, result)
  end.

(** The request refreshAccessToken posts to the token endpoint. *)
Definition refreshRequest (refreshToken : string) : HttpRequest :=
  let data :=
    [("grant_type", "refresh_token"); ("refresh_token", refreshToken);
     ("client_id", clientID cfg)]
    ++ (if negb isPublicClient then [("client_secret", clientSecret cfg)] else []) in
  {| req_method := "POST"; req_url := serverURL cfg +:+ "/oauth/token";
     req_header := [("Content-Type", "application/x-www-form-urlencoded")];
     req_form := data |}.

Definition refreshAccessToken (refreshToken : string) : M (TokenStorage + error) :=
  let req := refreshRequest refreshToken in
  let! resp := http_Do req in
  match resp with
  | NewRequestFails err => ret (inr (ErrCreateRequest err))
  | DoFails err => ret (inr (ErrRefreshRequestFailed err))
  | ReadAllFails _ err => ret (inr (ErrReadResponse err))
  | Response StatusCode body =>
      if decide (StatusCode ≠ 200) then
        match json_Unmarshal_ErrorResponse body with
        | inl errResp =>
            if decide (Error errResp = "invalid_grant" ∨
                       Error errResp = "invalid_token")
            then ret (inr ErrRefreshTokenExpired)
            else ret (inr (ErrOAuth (Error errResp) (ErrorDescription errResp)))
        | inr _ => ret (inr (ErrRefreshStatus StatusCode body))
        end
      else
        match json_Unmarshal_tokenResp body with
        | inr err => ret (inr (ErrParseTokenResponse err))
        | inl tokenResp =>
            match validateTokenResponse (tokenResp.AccessToken tokenResp)
                    (tokenResp.TokenType tokenResp)
                    (tokenResp.ExpiresIn tokenResp) with
            | Some err => ret (inr (ErrInvalidTokenResponse err))
            | None =>
                (* Preserve the old refresh token in fixed-mode. *)
                let newRefreshToken :=
                  if decide (tokenResp.RefreshToken tokenResp = "")
                  then refreshToken
                  else tokenResp.RefreshToken tokenResp in
                let! now := time_Now in
                let storage :=
                  {| AccessToken := tokenResp.AccessToken tokenResp;
                     RefreshToken := newRefreshToken;
                     TokenType := tokenResp.TokenType tokenResp;
                     ExpiresAt :=
                       now + wrap64 (tokenResp.ExpiresIn tokenResp * time_Second);
                     ClientID := clientID cfg |} in
                let! saved := saveTokens storage in
                let! _ := match saved.2 with
                          | Some err => print_warning err
                          | None => ret tt
                          end in
                ret (inl saved.1)
            end
        end
  end.

(** The request of the demo API call. *)
Definition tokeninfoRequest (accessToken : string) : HttpRequest :=
  {| req_method := "GET"; req_url := serverURL cfg +:+ "/oauth/tokeninfo";
     req_header := [("Authorization", "Bearer " +:+ accessToken)];
     req_form := [] |}.

Definition StatusCode (resp : HttpOutcome) : option Z :=
  match resp with
  | Response status _ | ReadAllFails status _ => Some status
  | _ => None
  end.

(** The end of makeAPICallWithAutoRefresh, after the block for 401: read
    the body of the response at hand and check its status. *)
Definition makeAPICall_finish (storage : TokenStorage) (resp : HttpOutcome)
    : M (TokenStorage * option error) :=
  match resp with
  | NewRequestFails err => ret (storage, Some (ErrCreateRequest err))
  | DoFails err => ret (storage, Some (ErrAPIRequestFailed err))
  | ReadAllFails _ err => ret (storage, Some (ErrReadResponse err))
  | Response status body =>
      if decide (status ≠ 200) then ret (storage, Some (ErrAPICallStatus status body))
      else ret (storage, None)
  end.

(** makeAPICallWithAutoRefresh demonstrates the 401, refresh, retry
    pattern.  It writes the refreshed tokens through the pointer it is
    given, so the storage as the caller sees it afterwards is returned
    with the error. *)
Definition makeAPICallWithAutoRefresh (storage : TokenStorage)
    : M (TokenStorage * option error) :=
  let! resp := http_Do (tokeninfoRequest (AccessToken storage)) in
  if decide (StatusCode resp = Some 401) then
    let! refreshed := refreshAccessToken (RefreshToken storage) in
    match refreshed with
    | inr err =>
        match err with
        | ErrRefreshTokenExpired => ret (storage, Some ErrRefreshTokenExpired)
        | _ => ret (storage, Some (ErrRefreshFailed err))
        end
    | inl newStorage =>
        let storage :=
          {| AccessToken := AccessToken newStorage;
             RefreshToken := RefreshToken newStorage;
             TokenType := TokenType storage;
             ExpiresAt := ExpiresAt newStorage;
             ClientID := ClientID storage |} in
        let! resp := http_Do (tokeninfoRequest (AccessToken storage)) in
        match resp with
        | NewRequestFails err => ret (storage, Some (ErrCreateRetryRequest err))
        | DoFails err => ret (storage, Some (ErrRetryFailed err))
        | _ => makeAPICall_finish storage resp
        end
    end
  else makeAPICall_finish storage resp.

(** The first part of main: "Try to reuse or refresh existing tokens."
    [Proceed None] is the state in which main goes on to
    performAuthCodeFlow ("No valid tokens - start the full flow");
    [interrupted] says whether the context is cancelled when the refresh
    fails. *)
Inductive Startup :=
  | Exit (code : Z)
  | Proceed (storage : option TokenStorage).

Definition main_reuse_or_refresh (interrupted : bool) : M Startup :=
  let! loaded := loadTokens in
  match loaded with
  | inl (Some existing) =>
      let! now := time_Now in
      if decide (now < ExpiresAt existing) then ret (Proceed (Some existing))
      else
        let! refreshed := refreshAccessToken (RefreshToken existing) in
        match refreshed with
        | inr err =>
            if interrupted then ret (Exit 130)
            else let! _ := print_warning err in ret (Proceed None)
        | inl newStorage => ret (Proceed (Some newStorage))
        end
  | _ => ret (Proceed None)
  end.

(** What main does with the error of makeAPICallWithAutoRefresh: it
    re-authenticates for ErrRefreshTokenExpired and only reports any other
    error. *)
Definition main_reauthenticates (err : error) : bool :=
  match err with
  | ErrRefreshTokenExpired => true
  | _ => false
  end.

(** The routing clause "only the refresh-expired case routes to
    re-authorization", read on the start-up path of main: whenever a failed
    refresh is followed by a new authorization, the failure was the
    sentinel. *)
Definition only_expired_reauthorizes : Prop :=
  ∀ interrupted w existing err,
    (loadTokens w).1 = inl (Some existing) →
    ¬ clock (loadTokens w).2 < ExpiresAt existing →
    (refreshAccessToken (RefreshToken existing) (loadTokens w).2).1 = inr err →
    (main_reuse_or_refresh interrupted w).1 = Proceed None →
    err = ErrRefreshTokenExpired.

End Store.

(** ** encoding/base64: RawURLEncoding.EncodeToString *)

(** The URL-safe alphabet of RFC 4648 section 5. *)
Definition encodeURL : string :=
  "ABCDEFGHIJKLMNOPQRSTUVWXYZabcdefghijklmnopqrstuvwxyz0123456789-_".

Definition b64digit (v : N) : ascii :=
  default "A"%char (String.get (N.to_nat (N.land v 63)) encodeURL).

(** Three source bytes become four digits; a remainder of one byte becomes
    two digits and a remainder of two bytes three digits, and the raw
    encoding appends no padding character. *)
Fixpoint RawURLEncoding_EncodeToString (src : list byte) : string :=
  match src with
  | [] => ""
  | [b0] =>
      let v := N.shiftl (Byte.to_N b0) 16 in
      String (b64digit (N.shiftr v 18)) (String (b64digit (N.shiftr v 12)) "")
  | [b0; b1] =>
      let v := N.lor (N.shiftl (Byte.to_N b0) 16) (N.shiftl (Byte.to_N b1) 8) in
      String (b64digit (N.shiftr v 18)) (String (b64digit (N.shiftr v 12))
        (String (b64digit (N.shiftr v 6)) ""))
  | b0 :: b1 :: b2 :: rest =>
      let v := N.lor (N.lor (N.shiftl (Byte.to_N b0) 16)
                            (N.shiftl (Byte.to_N b1) 8)) (Byte.to_N b2) in
      String (b64digit (N.shiftr v 18)) (String (b64digit (N.shiftr v 12))
        (String (b64digit (N.shiftr v 6)) (String (b64digit v)
          (RawURLEncoding_EncodeToString rest))))
  end.

(** ** crypto/sha256: Sum256 (FIPS 180-4), on 32-bit words held in [N] *)

Module SHA256.

Definition w32 (x : N) : N := N.land x 0xffffffff.
Definition add32 (a b : N) : N := w32 (a + b).
Definition rotr (n x : N) : N := N.lor (N.shiftr x n) (w32 (N.shiftl x (32 - n))).
Definition not32 (x : N) : N := N.lxor x 0xffffffff.

Definition Ch (x y z : N) : N := N.lxor (N.land x y) (N.land (not32 x) z).
Definition Maj (x y z : N) : N :=
  N.lxor (N.lxor (N.land x y) (N.land x z)) (N.land y z).
Definition Sigma0 (x : N) : N := N.lxor (N.lxor (rotr 2 x) (rotr 13 x)) (rotr 22 x).
Definition Sigma1 (x : N) : N := N.lxor (N.lxor (rotr 6 x) (rotr 11 x)) (rotr 25 x).
Definition sigma0 (x : N) : N := N.lxor (N.lxor (rotr 7 x) (rotr 18 x)) (N.shiftr x 3).
Definition sigma1 (x : N) : N := N.lxor (N.lxor (rotr 17 x) (rotr 19 x)) (N.shiftr x 10).

(** The round constants are the first 32 bits of the fractional parts of
    the cube roots of the first 64 primes, and the initial hash value those
    of the square roots of the first 8 primes (FIPS 180-4, 4.2.2 and
    5.3.3); they are computed here rather than tabulated. *)
Definition is_prime (n : N) : bool :=
  (1 <? n)%N &&
  forallb (fun d => negb (n mod d =? 0)%N)
          (N.of_nat <$> seq 2 (N.to_nat (N.sqrt n) - 1)).

Definition first_primes (count : nat) : list N :=
  take count (filter (fun n => is_prime n = true) (N.of_nat <$> seq 2 320)).

(** Integer cube root, one bit at a time from the top. *)
Fixpoint icbrt_from (bit : nat) (n r : N) : N :=
  match bit with
  | O => r
  | S bit =>
      let c := (r + 2 ^ N.of_nat bit)%N in
      icbrt_from bit n (if (c * c * c <=? n)%N then c else r)
  end.

Definition icbrt (n : N) : N := icbrt_from 40 n 0.

Definition K : list N :=
  (fun p => w32 (icbrt (p * 2 ^ 96))) <$> first_primes 64.

Definition H0 : list N :=
  (fun p => w32 (N.sqrt (p * 2 ^ 64))) <$> first_primes 8.

(** Big-endian packing of bytes into a number, and back. *)
Definition be_to_N (bs : list byte) : N :=
  fold_left (fun acc b => N.lor (N.shiftl acc 8) (Byte.to_N b)) bs 0%N.

Definition byte_of_N (n : N) : byte :=
  default Byte.x00 (Byte.of_N (N.land n 0xff)).

Fixpoint N_to_be (width : nat) (n : N) : list byte :=
  match width with
  | O => []
  | S w => byte_of_N (N.shiftr n (8 * N.of_nat w)) :: N_to_be w n
  end.

(** The message followed by 0x80, zero bytes up to 56 modulo 64, and the
    bit length as a 64-bit big-endian number. *)
Definition pad (msg : list byte) : list byte :=
  let len := length msg in
  msg ++ [Byte.x80]
      ++ repeat Byte.x00 ((119 - len mod 64) mod 64)%nat
      ++ N_to_be 8 (8 * N.of_nat len).

Fixpoint chunks (fuel : nat) (size : nat) (bs : list byte) : list (list byte) :=
  match fuel with
  | O => []
  | S fuel =>
      match bs with
      | [] => []
      | _ => take size bs :: chunks fuel size (drop size bs)
      end
  end.

(** The message schedule, built with the most recent word first. *)
Fixpoint schedule (n : nat) (rw : list N) : list N :=
  match n with
  | O => rev rw
  | S n =>
      let w := add32 (add32 (add32 (sigma1 (nth 1 rw 0%N)) (nth 6 rw 0%N))
                            (sigma0 (nth 14 rw 0%N))) (nth 15 rw 0%N) in
      schedule n (w :: rw)
  end.

Definition round (s : list N) (kw : N * N) : list N :=
  match s with
  | [a; b; c; d; e; f; g; h] =>
      let t1 := add32 (add32 (add32 (add32 h (Sigma1 e)) (Ch e f g)) (fst kw)) (snd kw) in
      let t2 := add32 (Sigma0 a) (Maj a b c) in
      [add32 t1 t2; a; b; c; add32 d t1; e; f; g]
  | _ => s
  end.

Definition block (h : list N) (blk : list byte) : list N :=
  let w16 := (be_to_N <$> chunks 16 4 blk) in
  let w := schedule 48 (rev w16) in
  let s := fold_left round (zip K w) h in
  zip_with add32 h s.

Definition Sum256 (msg : list byte) : list byte :=
  let p := pad msg in
  let h := fold_left block (chunks (length p) 64 p) H0 in
  h ≫= N_to_be 4.

End SHA256.

(** ** GeneratePKCE *)

Record PKCEParams := {
  Verifier : string;
  Challenge : string;
  Method : string;
}.

(** [rand.Read(b)] on the buffer [b := make([]byte, 32)]: either an error,
    or the buffer as the entropy source filled it. *)
Definition GeneratePKCE (read : list byte + error) : PKCEParams + error :=
  match read with
  | inr err => inr (ErrRandomBytes err)
  | inl b =>
      let verifier := RawURLEncoding_EncodeToString b in
      let sum := SHA256.Sum256 (String.list_byte_of_string verifier) in
      let challenge := RawURLEncoding_EncodeToString sum in
      inl {| Verifier := verifier; Challenge := challenge; Method := "S256" |}
  end.

(** ** callback.go: the local callback listener

    The handler of /callback runs once per request, each run in a
    goroutine of its own, and the goroutines share the two [sync.Once]
    values, the buffered result channel and the variables the exchange
    writes.  The model is a machine whose state holds those shared objects
    and one program counter per request; a schedule says which goroutine
    moves next.  A goroutine that cannot move (it waits in [Once.Do] while
    another goroutine runs the function, or on a full channel) is not
    enabled.  [sync.Once] is modelled by its contract: the first call of
    [Do] runs the function, a call made while the function runs returns
    only after it has returned, a later call returns at once. *)

Module Callback.

(** [url.Values], the parsed query, in the order of the raw query;
    [Get] returns the first value of the key, or the empty string. *)
Definition Values := list (string * string).

Fixpoint Get (q : Values) (key : string) : string :=
  match q with
  | [] => ""
  | (k, v) :: rest => if decide (k = key) then v else Get rest key
  end.

(** callbackResult holds the outcome of the local callback round-trip. *)
Record callbackResult := {
  Storage : option TokenStorage;
  Error : string;
  Desc : string;
}.

(** [html.EscapeString]. *)
Fixpoint html_EscapeString (s : string) : string :=
  match s with
  | EmptyString => EmptyString
  | String c rest =>
      (if Ascii.eqb c "&" then "&amp;"
       else if Ascii.eqb c "'" then "&#39;"
       else if Ascii.eqb c "<" then "&lt;"
       else if Ascii.eqb c ">" then "&gt;"
       else if Ascii.eqb c (ascii_of_nat 34) then "&#34;"
       else String c EmptyString) +:+ html_EscapeString rest
  end.

(** What writeCallbackPage writes: the success page, or the failure page
    with its one variable paragraph. *)
Inductive Page :=
  | SuccessPage
  | FailurePage (message : string).

Definition writeCallbackPage (success : bool) (errCode errDesc : string) : Page :=
  if success then SuccessPage
  else
    let msg := if decide (errDesc ≠ "") then errDesc else errCode in
    FailurePage (html_EscapeString msg).

(** The handler up to the exchange: either it has written a failure page
    and has a result to send, or it goes on to [exchangeOnce.Do] with the
    code. *)
Inductive Outcome :=
  | Finish (page : Page) (r : callbackResult)
  | RunExchange (code : string).

Definition classify (expectedState : string) (q : Values) : Outcome :=
  let oauthErr := Get q "error" in
  if decide (oauthErr ≠ "") then
    let desc := Get q "error_description" in
    Finish (writeCallbackPage false oauthErr desc)
           {| Storage := None; Error := oauthErr; Desc := desc |}
  else
    let state := Get q "state" in
    if decide (state ≠ expectedState) then
      Finish (writeCallbackPage false "state_mismatch"
                "State parameter does not match. Possible CSRF attack.")
             {| Storage := None; Error := "state_mismatch";
                Desc := "state parameter mismatch" |}
    else
      let code := Get q "code" in
      if decide (code = "") then
        Finish (writeCallbackPage false "missing_code"
                  "No authorization code in callback.")
               {| Storage := None; Error := "missing_code";
                  Desc := "code parameter missing" |}
      else RunExchange code.

(** The handler after [exchangeOnce.Do] has returned. *)
Definition after_exchange (exchangeStorage : option TokenStorage)
    (exchangeErr : option string) : Page * callbackResult :=
  match exchangeErr with
  | Some msg =>
      (writeCallbackPage false "token_exchange_failed" msg,
       {| Storage := None; Error := "token_exchange_failed"; Desc := msg |})
  | None =>
      (writeCallbackPage true "" "",
       {| Storage := exchangeStorage; Error := ""; Desc := "" |})
  end.

(** Where a handler goroutine stands. *)
Inductive PC :=
  | Start
  | ExchangeEnter (code : string)    (* calling exchangeOnce.Do *)
  | ExchangeRun (code : string)      (* inside exchangeFn *)
  | ExchangeLeave                    (* exchangeFn has returned *)
  | ExchangeDone                     (* exchangeOnce.Do has returned *)
  | SendEnter (r : callbackResult)   (* calling once.Do in sendResult *)
  | SendChan (r : callbackResult)    (* at resultCh <- r *)
  | SendLeave                        (* the send is done *)
  | Returned.                        (* the handler has returned *)

Record Handler := {
  query : Values;
  pc : PC;
  page : option Page;
}.

Inductive Once :=
  | Fresh
  | Running (by_goroutine : nat)
  | Finished.

(** The goroutine of startCallbackServer at its select. *)
Inductive Caller :=
  | Waiting
  | Got (r : callbackResult)
  | Cancelled
  | TimedOut.

Record State := {
  handlers : list Handler;
  once : Once;
  resultCh : list callbackResult;          (* capacity 1 *)
  exchangeOnce : Once;
  exchangeStorage : option TokenStorage;
  exchangeErr : option string;
  caller : Caller;
  (* history, for stating the properties *)
  exchangeCalls : list (nat * string);     (* calls of exchangeFn: by whom, with which code *)
  sent : list callbackResult;              (* values sent on resultCh *)
}.

Inductive Move :=
  | Run (goroutine : nat)
  | Receive
  | Cancel
  | Timeout.

Section Listener.
(** [exchangeFn], as the pair it returns for a code: the storage and the
    error (nil, or its message).  It is called at most once per listener,
    so a function of the code describes it. *)
Variable exchangeFn : string → option TokenStorage * option string.
Variable expectedState : string.

Definition init (requests : list Values) : State :=
  {| handlers := (λ q, {| query := q; pc := Start; page := None |}) <$> requests;
     once := Fresh; resultCh := []; exchangeOnce := Fresh;
     exchangeStorage := None; exchangeErr := None; caller := Waiting;
     exchangeCalls := []; sent := [] |}.

Definition set_handler (i : nat) (h : Handler) (s : State) : State :=
  {| handlers := <[i := h]> (handlers s); once := once s; resultCh := resultCh s;
     exchangeOnce := exchangeOnce s; exchangeStorage := exchangeStorage s;
     exchangeErr := exchangeErr s; caller := caller s;
     exchangeCalls := exchangeCalls s; sent := sent s |}.

Definition goto (h : Handler) (next : PC) : Handler :=
  {| query := query h; pc := next; page := page h |}.

Definition write_page (h : Handler) (p : Page) (next : PC) : Handler :=
  {| query := query h; pc := next; page := Some p |}.

(** One move of handler goroutine [i]; [None] when it cannot move. *)
Definition step_handler (i : nat) (h : Handler) (s : State) : option State :=
  match pc h with
  | Start =>
      match classify expectedState (query h) with
      | Finish p r => Some (set_handler i (write_page h p (SendEnter r)) s)
      | RunExchange code => Some (set_handler i (goto h (ExchangeEnter code)) s)
      end
  | ExchangeEnter code =>
      match exchangeOnce s with
      | Fresh =>
          Some {| handlers := <[i := goto h (ExchangeRun code)]> (handlers s);
                  once := once s; resultCh := resultCh s;
                  exchangeOnce := Running i;
                  exchangeStorage := exchangeStorage s;
                  exchangeErr := exchangeErr s; caller := caller s;
                  exchangeCalls := exchangeCalls s ++ [(i, code)];
                  sent := sent s |}
      | Running _ => None
      | Finished => Some (set_handler i (goto h ExchangeDone) s)
      end
  | ExchangeRun code =>
      Some {| handlers := <[i := goto h ExchangeLeave]> (handlers s);
              once := once s; resultCh := resultCh s;
              exchangeOnce := exchangeOnce s;
              exchangeStorage := (exchangeFn code).1;
              exchangeErr := (exchangeFn code).2; caller := caller s;
              exchangeCalls := exchangeCalls s; sent := sent s |}
  | ExchangeLeave =>
      Some {| handlers := <[i := goto h ExchangeDone]> (handlers s);
              once := once s; resultCh := resultCh s;
              exchangeOnce := Finished;
              exchangeStorage := exchangeStorage s;
              exchangeErr := exchangeErr s; caller := caller s;
              exchangeCalls := exchangeCalls s; sent := sent s |}
  | ExchangeDone =>
      let pr := after_exchange (exchangeStorage s) (exchangeErr s) in
      Some (set_handler i (write_page h pr.1 (SendEnter pr.2)) s)
  | SendEnter r =>
      match once s with
      | Fresh =>
          Some {| handlers := <[i := goto h (SendChan r)]> (handlers s);
                  once := Running i; resultCh := resultCh s;
                  exchangeOnce := exchangeOnce s;
                  exchangeStorage := exchangeStorage s;
                  exchangeErr := exchangeErr s; caller := caller s;
                  exchangeCalls := exchangeCalls s; sent := sent s |}
      | Running _ => None
      | Finished => Some (set_handler i (goto h Returned) s)
      end
  | SendChan r =>
      if decide (length (resultCh s) < 1)%nat then
        Some {| handlers := <[i := goto h SendLeave]> (handlers s);
                once := once s; resultCh := resultCh s ++ [r];
                exchangeOnce := exchangeOnce s;
                exchangeStorage := exchangeStorage s;
                exchangeErr := exchangeErr s; caller := caller s;
                exchangeCalls := exchangeCalls s; sent := sent s ++ [r] |}
      else None
  | SendLeave =>
      Some {| handlers := <[i := goto h Returned]> (handlers s);
              once := Finished; resultCh := resultCh s;
              exchangeOnce := exchangeOnce s;
              exchangeStorage := exchangeStorage s;
              exchangeErr := exchangeErr s; caller := caller s;
              exchangeCalls := exchangeCalls s; sent := sent s |}
  | Returned => None
  end.

Definition set_caller (c : Caller) (ch : list callbackResult) (s : State) : State :=
  {| handlers := handlers s; once := once s; resultCh := ch;
     exchangeOnce := exchangeOnce s; exchangeStorage := exchangeStorage s;
     exchangeErr := exchangeErr s; caller := c;
     exchangeCalls := exchangeCalls s; sent := sent s |}.

(** One move of the machine: a handler goroutine, or the select of
    startCallbackServer taking one of its three cases. *)
Definition step (m : Move) (s : State) : option State :=
  match m with
  | Run i =>
      match handlers s !! i with
      | Some h => step_handler i h s
      | None => None
      end
  | Receive =>
      match caller s, resultCh s with
      | Waiting, r :: rest => Some (set_caller (Got r) rest s)
      | _, _ => None
      end
  | Cancel =>
      match caller s with
      | Waiting => Some (set_caller Cancelled (resultCh s) s)
      | _ => None
      end
  | Timeout =>
      match caller s with
      | Waiting => Some (set_caller TimedOut (resultCh s) s)
      | _ => None
      end
  end.

(** A schedule is carried out move by move; a move that is not enabled
    leaves the state as it is. *)
Definition exec (s : State) (m : Move) : State := default s (step m s).

Definition run (schedule : list Move) (s : State) : State :=
  foldl exec s schedule.

(** What startCallbackServer returns once its select has taken a case. *)
Inductive callbackError :=
  | CallbackFailed (code desc : string)
  | ContextDone
  | CallbackTimeout.

Definition result (s : State) : option (option TokenStorage + callbackError) :=
  match caller s with
  | Waiting => None
  | Got r =>
      if decide (Error r ≠ "") then Some (inr (CallbackFailed (Error r) (Desc r)))
      else Some (inl (Storage r))
  | Cancelled => Some (inr ContextDone)
  | TimedOut => Some (inr CallbackTimeout)
  end.

End Listener.

(** The listener before the exchange was moved into the handler: the
    handler validates in the same order and hands the code to the caller. *)
Module Legacy.

Record callbackResult := {
  Code : string;
  Error : string;
  Desc : string;
}.

Definition handle (expectedState : string) (q : Values) : Page * callbackResult :=
  let oauthErr := Get q "error" in
  if decide (oauthErr ≠ "") then
    let desc := Get q "error_description" in
    (writeCallbackPage false oauthErr desc,
     {| Code := ""; Error := oauthErr; Desc := desc |})
  else
    let state := Get q "state" in
    if decide (state ≠ expectedState) then
      (writeCallbackPage false "state_mismatch"
         "State parameter does not match. Possible CSRF attack.",
       {| Code := ""; Error := "state_mismatch"; Desc := "state parameter mismatch" |})
    else
      let code := Get q "code" in
      if decide (code = "") then
        (writeCallbackPage false "missing_code" "No authorization code in callback.",
         {| Code := ""; Error := "missing_code"; Desc := "code parameter missing" |})
      else
        (writeCallbackPage true "" "", {| Code := code; Error := ""; Desc := "" |}).

End Legacy.

End Callback.

(* ===================================================================== *)
(** * Properties *)
(* ===================================================================== *)

(** The rows of TestValidateTokenResponse. *)
Example validate_valid_bearer :
  validateTokenResponse "a-long-enough-token" "Bearer" 3600 = None.
Proof. reflexivity. Qed.
Example validate_valid_empty_type :
  validateTokenResponse "a-long-enough-token" "" 3600 = None.
Proof. reflexivity. Qed.
Example validate_empty_access_token :
  validateTokenResponse "" "Bearer" 3600 = Some ErrAccessTokenEmpty.
Proof. reflexivity. Qed.
Example validate_too_short :
  validateTokenResponse "short" "Bearer" 3600 = Some (ErrAccessTokenTooShort 5).
Proof. reflexivity. Qed.
Example validate_zero_expires_in :
  validateTokenResponse "a-long-enough-token" "Bearer" 0
  = Some (ErrExpiresInNotPositive 0).
Proof. reflexivity. Qed.
Example validate_negative_expires_in :
  validateTokenResponse "a-long-enough-token" "Bearer" (-1)
  = Some (ErrExpiresInNotPositive (-1)).
Proof. reflexivity. Qed.
Example validate_wrong_token_type :
  validateTokenResponse "a-long-enough-token" "MAC" 3600
  = Some (ErrUnexpectedTokenType "MAC").
Proof. reflexivity. Qed.

Lemma validateTokenResponse_None accessToken tokenType expiresIn :
  validateTokenResponse accessToken tokenType expiresIn = None ↔
  10 <= Z.of_nat (String.length accessToken) ∧ 0 < expiresIn ∧
  (tokenType = "" ∨ tokenType = "Bearer").
Proof.
  unfold validateTokenResponse.
  repeat case_decide; split; try done; try (intros (?&?&?); try lia).
  - subst accessToken. simpl in *. lia.
  - destruct H5 as [?|?]; tauto.
  - intros _. split; [lia|]. split; [lia|].
    destruct (decide (tokenType = "")); [by left|].
    destruct (decide (tokenType = "Bearer")); [by right|]. tauto.
Qed.

(** C4. validateTokenResponse returns an error exactly when the access
    token is empty, or shorter than 10, or expires_in is not strictly
    positive, or token_type is non-empty and different from "Bearer"; and
    every input with access token length at least 10, positive expires_in
    and token_type "Bearer" or empty is accepted. *)
Theorem validateTokenResponse_rejects_exactly accessToken tokenType expiresIn :
  (is_Some (validateTokenResponse accessToken tokenType expiresIn) ↔
     accessToken = "" ∨ Z.of_nat (String.length accessToken) < 10 ∨
     expiresIn <= 0 ∨ (tokenType ≠ "" ∧ tokenType ≠ "Bearer"))
  ∧
  ((10 <= Z.of_nat (String.length accessToken) ∧ 0 < expiresIn ∧
     (tokenType = "" ∨ tokenType = "Bearer")) ↔
   validateTokenResponse accessToken tokenType expiresIn = None).
Proof.
  split; [|symmetry; apply validateTokenResponse_None].
  rewrite <- not_eq_None_Some, validateTokenResponse_None.
  split.
  - intros Hn.
    destruct (decide (accessToken = "")); [by left|].
    destruct (decide (Z.of_nat (String.length accessToken) < 10)); [by right; left|].
    destruct (decide (expiresIn <= 0)); [by right; right; left|].
    right; right; right.
    destruct (decide (tokenType = "")) as [->|?].
    { exfalso. apply Hn. split; [lia|]. split; [lia|]. by left. }
    destruct (decide (tokenType = "Bearer")) as [->|?]; [|done].
    exfalso. apply Hn. split; [lia|]. split; [lia|]. by right.
  - intros [->|[?|[?|[? ?]]]] (?&?&?); simpl in *; try lia.
    destruct H3; congruence.
Qed.

(** ** Test vectors *)

Definition hex_2 (b : byte) : string :=
  let n := Byte.to_N b in
  let d (k : N) := default "0"%char (String.get (N.to_nat k) "0123456789abcdef") in
  String (d (N.shiftr n 4)) (String (d (N.land n 15)) "").

Example sha256_constants :
  length SHA256.K = 64%nat ∧
  SHA256.K !! 0%nat = Some 0x428a2f98%N ∧ SHA256.K !! 63%nat = Some 0xc67178f2%N ∧
  SHA256.H0 !! 0%nat = Some 0x6a09e667%N ∧ SHA256.H0 !! 7%nat = Some 0x5be0cd19%N.
Proof. vm_compute. done. Qed.

Example sha256_abc :
  String.concat "" (hex_2 <$> SHA256.Sum256 (String.list_byte_of_string "abc"))
  = "ba7816bf8f01cfea414140de5dae2223b00361a396177a9cb410ff61f20015ad".
Proof. vm_compute. reflexivity. Qed.

Example sha256_empty :
  String.concat "" (hex_2 <$> SHA256.Sum256 [])
  = "e3b0c44298fc1c149afbf4c8996fb92427ae41e4649b934ca495991b7852b855".
Proof. vm_compute. reflexivity. Qed.

Example base64_six_bytes :
  RawURLEncoding_EncodeToString (String.list_byte_of_string "Man is") = "TWFuIGlz".
Proof. vm_compute. reflexivity. Qed.

Example base64_no_padding :
  RawURLEncoding_EncodeToString (String.list_byte_of_string "any carnal pleas")
  = "YW55IGNhcm5hbCBwbGVhcw".
Proof. vm_compute. reflexivity. Qed.

(** The example of RFC 7636, appendix B. *)
Example rfc7636_appendix_B :
  RawURLEncoding_EncodeToString
    (SHA256.Sum256 (String.list_byte_of_string "dBjftJeZ4CVP-mB92K27uhbUJU1p1r_wW1gFWFOEjXk"))
  = "E9Melhoa2OwvFrEMTJguCHaoeK1t8URWbuGJSstw-cM".
Proof. vm_compute. reflexivity. Qed.

(** ** GeneratePKCE *)

Lemma list_ind_by_three {A} (P : list A → Prop) :
  P [] → (∀ a, P [a]) → (∀ a b, P [a; b]) →
  (∀ a b c l, P l → P (a :: b :: c :: l)) →
  ∀ l, P l.
Proof.
  intros H0 H1 H2 H3 l.
  cut (P l ∧ (∀ a, P (a :: l)) ∧ (∀ a b, P (a :: b :: l))); [tauto|].
  induction l as [|x l (IH0 & IH1 & IH2)]; [by auto|].
  split; [apply IH1|]. split; [intros a; apply IH2|]. intros a b. by apply H3.
Qed.

Lemma RawURLEncoding_length (src : list byte) :
  String.length (RawURLEncoding_EncodeToString src)
  = ((4 * length src + 2) / 3)%nat.
Proof.
  induction src as [| |a b|a b c l IH] using list_ind_by_three; try reflexivity.
  change (String.length (RawURLEncoding_EncodeToString (a :: b :: c :: l)))
    with (S (S (S (S (String.length (RawURLEncoding_EncodeToString l)))))).
  rewrite IH. cbn [length].
  replace (4 * S (S (S (length l))) + 2)%nat
    with ((4 * length l + 2) + 4 * 3)%nat by lia.
  rewrite Nat.div_add by lia. lia.
Qed.

(** C5. For every 32-byte value the entropy source returns, GeneratePKCE
    succeeds; the verifier is the unpadded base64url encoding of those
    bytes and is 43 characters long (within 43..128), the challenge is the
    unpadded base64url encoding of SHA-256 of the verifier's bytes, and the
    method is "S256". *)
Theorem GeneratePKCE_spec (b : list byte) :
  length b = 32%nat →
  ∃ p, GeneratePKCE (inl b) = inl p ∧
       Verifier p = RawURLEncoding_EncodeToString b ∧
       String.length (Verifier p) = 43%nat ∧
       (43 <= String.length (Verifier p) <= 128)%nat ∧
       Challenge p = RawURLEncoding_EncodeToString
                       (SHA256.Sum256 (String.list_byte_of_string (Verifier p))) ∧
       Method p = "S256".
Proof.
  intros Hlen. eexists. split; [reflexivity|]. cbn [Verifier Challenge Method].
  rewrite RawURLEncoding_length, Hlen.
  repeat split; try reflexivity; cbn; lia.
Qed.

Lemma GeneratePKCE_spec_witness :
  ∃ p, GeneratePKCE (inl (repeat Byte.x2a 32)) = inl p ∧
       Verifier p = RawURLEncoding_EncodeToString (repeat Byte.x2a 32) ∧
       String.length (Verifier p) = 43%nat ∧
       (43 <= String.length (Verifier p) <= 128)%nat ∧
       Challenge p = RawURLEncoding_EncodeToString
                       (SHA256.Sum256 (String.list_byte_of_string (Verifier p))) ∧
       Method p = "S256".
Proof. apply (GeneratePKCE_spec (repeat Byte.x2a 32)). reflexivity. Defined.

(** An entropy failure is propagated, wrapped, and no parameters are made. *)
Lemma GeneratePKCE_entropy_failure err :
  GeneratePKCE (inr err) = inr (ErrRandomBytes err).
Proof. reflexivity. Qed.

(** ** acquireFileLock *)

(** How one pass through the loop body ends, with the errors the calls
    returned. *)
Inductive Attempt :=
  | Acquired
  | OpenFailed (err : error)
  | StaleRemoved (openErr : error) (remErr : option error)
  | StaleRemoveFailed (openErr remErr : error)
  | Waited (openErr : error).

Definition retried (a : Attempt) : bool :=
  match a with
  | StaleRemoved _ _ | Waited _ => true
  | _ => false
  end.

(** The calls one pass makes, in order. *)
Definition attempt_events (lp : string) (a : Attempt) : list Event :=
  match a with
  | Acquired => [EvOpenExcl lp None; EvWritePid lp]
  | OpenFailed err => [EvOpenExcl lp (Some err)]
  | StaleRemoved openErr remErr =>
      [EvOpenExcl lp (Some openErr); EvStat lp; EvRemove lp remErr]
  | StaleRemoveFailed openErr remErr =>
      [EvOpenExcl lp (Some openErr); EvStat lp; EvRemove lp (Some remErr)]
  | Waited openErr => [EvOpenExcl lp (Some openErr); EvStat lp; EvSleep retryDelay]
  end.

(** What a pass that leaves the loop returns. *)
Definition attempt_final (lp : string) (a : Attempt) : option (fileLock + error) :=
  match a with
  | Acquired => Some (inl {| lockFile := Some lp; lockPath := lp |})
  | OpenFailed err => Some (inr (ErrAcquireFileLock err))
  | StaleRemoveFailed _ err => Some (inr (ErrRemoveStaleLock lp err))
  | StaleRemoved _ _ | Waited _ => None
  end.

(** A pass is as the source has it: a retry only after "already exists",
    a return only for another open error or a removal error other than
    "does not exist". *)
Definition attempt_ok (a : Attempt) : Prop :=
  match a with
  | Acquired => True
  | OpenFailed err => os_IsExist err = false
  | StaleRemoved openErr remErr =>
      os_IsExist openErr = true ∧
      (∀ e, remErr = Some e → os_IsNotExist e = true)
  | StaleRemoveFailed openErr remErr =>
      os_IsExist openErr = true ∧ os_IsNotExist remErr = false
  | Waited openErr => os_IsExist openErr = true
  end.

(** A run of the loop with [k] passes left: passes that retry, ended by a
    pass that returns, or by running out of passes. *)
Inductive lock_run (lp : string) : nat → list Attempt → fileLock + error → Prop :=
  | run_timeout :
      lock_run lp 0 [] (inr (ErrLockTimeout (Z.of_nat maxRetries * retryDelay)))
  | run_final k a r :
      attempt_ok a → attempt_final lp a = Some r → lock_run lp (S k) [a] r
  | run_retry k a rest r :
      attempt_ok a → retried a = true → lock_run lp k rest r →
      lock_run lp (S k) (a :: rest) r.

Definition open_attempts (evs : list Event) : nat :=
  length (filter (λ ev, ∃ p err, ev = EvOpenExcl p err) evs).

Ltac run_op :=
  repeat (first
    [ progress cbn [fst snd log files clock plan network ret bind] in *
    | progress unfold ret, bind, enter, emit, set_files, get_files, time_Now,
        time_Sleep in *
    | case_match; simplify_eq ]).

Lemma os_OpenFile_excl_log p perm w :
  log (os_OpenFile_excl p perm w).2
  = log w ++ [EvOpenExcl p (os_OpenFile_excl p perm w).1].
Proof. unfold os_OpenFile_excl. run_op; done. Qed.

Lemma Fprintf_pid_log p n w :
  log (Fprintf_pid p n w).2 = log w ++ [EvWritePid p].
Proof. unfold Fprintf_pid. run_op; done. Qed.

Lemma os_Stat_log p w : log (os_Stat p w).2 = log w ++ [EvStat p].
Proof. unfold os_Stat. run_op; done. Qed.

Lemma os_Remove_log p w :
  log (os_Remove p w).2 = log w ++ [EvRemove p (os_Remove p w).1].
Proof. unfold os_Remove. run_op; done. Qed.

Lemma time_Sleep_log d w : log (time_Sleep d w).2 = log w ++ [EvSleep d].
Proof. done. Qed.

Lemma acquireFileLock_loop_run pid lp k w :
  ∃ attempts,
    lock_run lp k attempts (acquireFileLock_loop pid lp k w).1 ∧
    log (acquireFileLock_loop pid lp k w).2
    = log w ++ concat (attempt_events lp <$> attempts).
Proof.
  revert w. induction k as [|k IH]; intros w.
  { exists []. split; [constructor|]. simpl. by rewrite app_nil_r. }
  cbn [acquireFileLock_loop]. unfold bind, ret, time_Now.
  pose proof (os_OpenFile_excl_log lp 384 w) as Hopen.
  destruct (os_OpenFile_excl lp 384 w) as [err w1]. simpl in Hopen.
  destruct err as [err|].
  2:{ exists [Acquired].
      pose proof (Fprintf_pid_log lp pid w1) as Hpid.
      destruct (Fprintf_pid lp pid w1) as [[] w2]. simpl in *.
      split; [by apply run_final|].
      rewrite Hpid, Hopen, <- app_assoc. done. }
  destruct (os_IsExist err) eqn:Hexist.
  2:{ exists [OpenFailed err]. simpl. split; [by apply run_final|].
      by rewrite Hopen. }
  pose proof (os_Stat_log lp w1) as Hstat.
  destruct (os_Stat lp w1) as [info w2]. simpl in Hstat.
  assert (Hwait : ∃ attempts,
    lock_run lp (S k) attempts
      (acquireFileLock_loop pid lp k (time_Sleep retryDelay w2).2).1 ∧
    log (acquireFileLock_loop pid lp k (time_Sleep retryDelay w2).2).2
    = log w ++ concat (attempt_events lp <$> attempts)).
  { destruct (IH (time_Sleep retryDelay w2).2) as (rest & Hrun & Hlog).
    exists (Waited err :: rest). split; [by apply run_retry|].
    rewrite Hlog, time_Sleep_log, Hstat, Hopen. simpl. by rewrite <- !app_assoc. }
  destruct info as [modTime|]; [|exact Hwait].
  case_decide; [|exact Hwait].
  pose proof (os_Remove_log lp w2) as Hrem.
  destruct (os_Remove lp w2) as [remErr w3]. simpl in Hrem.
  assert (Hretry : (∀ e, remErr = Some e → os_IsNotExist e = true) →
    ∃ attempts,
    lock_run lp (S k) attempts (acquireFileLock_loop pid lp k w3).1 ∧
    log (acquireFileLock_loop pid lp k w3).2
    = log w ++ concat (attempt_events lp <$> attempts)).
  { intros Hne. destruct (IH w3) as (rest & Hrun & Hlog).
    exists (StaleRemoved err remErr :: rest). split; [by apply run_retry|].
    rewrite Hlog, Hrem, Hstat, Hopen. simpl. by rewrite <- !app_assoc. }
  destruct remErr as [remErr|]; [|by apply Hretry].
  destruct (os_IsNotExist remErr) eqn:Hne; simpl;
    [apply Hretry; by intros ? [= <-]|].
  exists [StaleRemoveFailed err remErr]. split; [by apply run_final|].
  simpl. rewrite Hrem, Hstat, Hopen. by rewrite <- !app_assoc.
Qed.

Lemma lock_run_length lp k attempts r :
  lock_run lp k attempts r → (length attempts <= k)%nat.
Proof. induction 1; simpl; lia. Qed.

Lemma lock_run_timeout lp k attempts r :
  lock_run lp k attempts r →
  (∃ d, r = inr (ErrLockTimeout d)) ↔
  (length attempts = k ∧ Forall (λ a, retried a = true) attempts).
Proof.
  induction 1 as [|k a r Hok Hfin|k a rest r Hok Hret Hrun IH].
  - split; [done|]. intros _. eauto.
  - split.
    + intros [d ->]. by destruct a.
    + intros [_ Hall]. apply Forall_cons in Hall as [Ha _].
      destruct a; simplify_eq/=.
  - rewrite IH, Forall_cons. simpl.
    split; [intros [? ?]|intros [? [? ?]]]; (split; [lia|done]).
Qed.

Lemma lock_run_timeout_value lp k attempts d :
  lock_run lp k attempts (inr (ErrLockTimeout d)) →
  d = Z.of_nat maxRetries * retryDelay.
Proof.
  remember (inr (ErrLockTimeout d)) as r eqn:Hr.
  induction 1 as [|k a r Hok Hfin|]; [by simplify_eq| |by auto].
  subst r. by destruct a.
Qed.

Lemma open_attempts_events lp attempts :
  open_attempts (concat (attempt_events lp <$> attempts)) = length attempts.
Proof.
  unfold open_attempts. induction attempts as [|a rest IH]; [done|].
  cbn [fmap list_fmap concat]. rewrite filter_app, length_app, IH.
  destruct a; reflexivity.
Qed.

(** The three ways a pass goes in a world that is left alone. *)
Lemma acquireFileLock_loop_free pid lp k w :
  plan w = [] → files w !! lp = None →
  acquireFileLock_loop pid lp (S k) w
  = (inl {| lockFile := Some lp; lockPath := lp |},
     {| files := <[lp := {| data := JSONText (JNumber (JInt pid));
                            mtime := clock w; mode := 384 |}]> (files w);
        clock := clock w; plan := [];
        log := log w ++ [EvOpenExcl lp None; EvWritePid lp];
        network := network w |}).
Proof.
  destruct w as [fs clk pl lg net]. cbn [plan files clock log network].
  intros -> Hfree. cbn [acquireFileLock_loop].
  unfold os_OpenFile_excl, Fprintf_pid, bind, enter, emit, get_files, set_files,
    time_Now, ret. cbn. rewrite Hfree. cbn.
  rewrite lookup_insert_eq, insert_insert_eq, <- app_assoc. done.
Qed.

Lemma acquireFileLock_loop_stale pid lp k w f :
  plan w = [] → files w !! lp = Some f → clock w - mtime f > staleAfter →
  acquireFileLock_loop pid lp (S k) w
  = acquireFileLock_loop pid lp k
      {| files := delete lp (files w); clock := clock w; plan := [];
         log := log w ++ [EvOpenExcl lp (Some (PathError "open" lp EEXIST));
                         EvStat lp; EvRemove lp None];
         network := network w |}.
Proof.
  destruct w as [fs clk pl lg net]. cbn [plan files clock log network].
  intros -> Hf Hstale. cbn [acquireFileLock_loop].
  unfold os_OpenFile_excl, os_Stat, os_Remove, bind, enter, emit, get_files,
    set_files, time_Now, ret.
  repeat (first [rewrite Hf | rewrite decide_True by done | progress cbn]).
  by rewrite <- !app_assoc.
Qed.

Lemma acquireFileLock_loop_fresh pid lp k w f :
  plan w = [] → files w !! lp = Some f → clock w - mtime f <= staleAfter →
  acquireFileLock_loop pid lp (S k) w
  = acquireFileLock_loop pid lp k
      {| files := files w; clock := clock w + retryDelay; plan := [];
         log := log w ++ [EvOpenExcl lp (Some (PathError "open" lp EEXIST));
                         EvStat lp; EvSleep retryDelay];
         network := network w |}.
Proof.
  destruct w as [fs clk pl lg net]. cbn [plan files clock log network].
  intros -> Hf Hfresh. cbn [acquireFileLock_loop].
  unfold os_OpenFile_excl, os_Stat, time_Sleep, bind, enter, emit, get_files,
    set_files, time_Now, ret.
  repeat (first [rewrite Hf | rewrite decide_False by lia | progress cbn]).
  by rewrite <- !app_assoc.
Qed.

(** C6. acquireFileLock is a total function of the world, so it always
    returns.  In every world, whatever the other processes do and whichever
    calls fail, its calls form at most 50 passes of the loop, each with
    exactly one exclusive-create attempt; it returns the timeout error
    (after 50 times 100ms) exactly when all 50 passes ended in a retry, and
    otherwise what the first pass that did not retry returned: the held
    lock, or the error of an open that failed for another reason than
    "already exists", or the error of a stale lock that could not be
    removed.  In a world left alone, a pass creates the lock file and
    returns the lock when the file is absent; when the file exists it
    removes it and retries at once (the clock does not move) if the
    modification time is more than 30s back, and sleeps 100ms and retries
    otherwise. *)
Theorem acquireFileLock_bounded pid filePath :
  let lp := filePath +:+ ".lock" in
  (∀ w, ∃ attempts,
     let r := acquireFileLock pid filePath w in
     lock_run lp 50 attempts r.1 ∧
     log r.2 = log w ++ concat (attempt_events lp <$> attempts) ∧
     open_attempts (concat (attempt_events lp <$> attempts)) = length attempts ∧
     (length attempts <= 50)%nat ∧
     ((∃ d, r.1 = inr (ErrLockTimeout d)) ↔
        length attempts = 50%nat ∧ Forall (λ a, retried a = true) attempts) ∧
     (∀ d, r.1 = inr (ErrLockTimeout d) → d = 50 * (100 * 1000000))) ∧
  (∀ k w, plan w = [] → files w !! lp = None →
     acquireFileLock_loop pid lp (S k) w
     = (inl {| lockFile := Some lp; lockPath := lp |},
        {| files := <[lp := {| data := JSONText (JNumber (JInt pid));
                               mtime := clock w; mode := 384 |}]> (files w);
           clock := clock w; plan := [];
           log := log w ++ [EvOpenExcl lp None; EvWritePid lp];
           network := network w |})) ∧
  (∀ k w f, plan w = [] → files w !! lp = Some f →
     clock w - mtime f > 30 * 1000000000 →
     acquireFileLock_loop pid lp (S k) w
     = acquireFileLock_loop pid lp k
         {| files := delete lp (files w); clock := clock w; plan := [];
            log := log w ++ [EvOpenExcl lp (Some (PathError "open" lp EEXIST));
                         EvStat lp; EvRemove lp None];
            network := network w |}) ∧
  (∀ k w f, plan w = [] → files w !! lp = Some f →
     clock w - mtime f <= 30 * 1000000000 →
     acquireFileLock_loop pid lp (S k) w
     = acquireFileLock_loop pid lp k
         {| files := files w; clock := clock w + 100 * 1000000; plan := [];
            log := log w ++ [EvOpenExcl lp (Some (PathError "open" lp EEXIST));
                            EvStat lp; EvSleep (100 * 1000000)];
            network := network w |}).
Proof.
  intros lp. split; [|split; [|split]].
  - intros w. unfold acquireFileLock. fold lp.
    destruct (acquireFileLock_loop_run pid lp maxRetries w) as (attempts & Hrun & Hlog).
    exists attempts. cbn zeta. split; [exact Hrun|]. split; [exact Hlog|].
    split; [apply open_attempts_events|].
    split; [exact (lock_run_length _ _ _ _ Hrun)|].
    split; [exact (lock_run_timeout _ _ _ _ Hrun)|].
    intros d Hd. rewrite Hd in Hrun.
    by rewrite (lock_run_timeout_value _ _ _ _ Hrun).
  - intros k w. apply acquireFileLock_loop_free.
  - intros k w f. apply acquireFileLock_loop_stale.
  - intros k w f. apply acquireFileLock_loop_fresh.
Qed.

(** ** The token store *)

Lemma string_length_append (s t : string) :
  String.length (s +:+ t) = (String.length s + String.length t)%nat.
Proof.
  induction s as [|c s IH]; [reflexivity|].
  change (String c s +:+ t) with (String c (s +:+ t)).
  cbn [String.length]. by rewrite IH.
Qed.

Lemma string_append_ne (s t : string) : t ≠ "" → s +:+ t ≠ s.
Proof.
  intros Ht Heq. apply (f_equal String.length) in Heq.
  rewrite string_length_append in Heq. destruct t; [done|]. simpl in Heq. lia.
Qed.

Lemma string_append_inj (s t1 t2 : string) : s +:+ t1 = s +:+ t2 → t1 = t2.
Proof.
  induction s as [|c s IH]; [done|].
  change (String c s +:+ t1) with (String c (s +:+ t1)).
  change (String c s +:+ t2) with (String c (s +:+ t2)).
  intros [= Heq]. auto.
Qed.

(** The environment does nothing to the file at [p] ... *)
Definition touches (i : Interference) (p : string) : Prop :=
  match i with
  | Nothing => False
  | Removes q => q = p
  | Writes q _ => q = p
  end.

Definition quiet_at (p : string) (w : World) : Prop :=
  Forall (λ e, ¬ touches (interference e) p) (plan w).

(** ... and makes no call fail that would succeed on the files as they
    are. *)
Definition faultless (w : World) : Prop :=
  Forall (λ e, fault e = None) (plan w).

Lemma interfere_lookup i fs p :
  ¬ touches i p → interfere i fs !! p = fs !! p.
Proof.
  destruct i as [|q|q f]; simpl; intros Hq; [done| |].
  - by rewrite lookup_delete_ne.
  - by rewrite lookup_insert_ne.
Qed.

(** What entering a call does. *)
Lemma enter_spec w :
  plan (enter w).2 = tail (plan w) ∧
  log (enter w).2 = log w ∧
  network (enter w).2 = network w ∧
  clock w <= clock (enter w).2 ∧
  (∀ p, quiet_at p w → files (enter w).2 !! p = files w !! p) ∧
  (faultless w → (enter w).1 = None) ∧
  (plan w = [] → enter w = (None, w)).
Proof.
  unfold enter, quiet_at, faultless.
  destruct (plan w) as [|e rest] eqn:Hplan; simpl.
  { repeat split; auto with lia. }
  repeat split; try done; try lia.
  - intros p [Hp _]%Forall_cons. by apply interfere_lookup.
  - by intros [He _]%Forall_cons.
Qed.

Lemma quiet_at_tail p w w' :
  plan w' = tail (plan w) → quiet_at p w → quiet_at p w'.
Proof.
  unfold quiet_at. intros ->. destruct (plan w); [done|].
  by intros [_ ?]%Forall_cons.
Qed.

Lemma faultless_tail w w' :
  plan w' = tail (plan w) → faultless w → faultless w'.
Proof.
  unfold faultless. intros ->. destruct (plan w); [done|].
  by intros [_ ?]%Forall_cons.
Qed.

(** A computation advances the plan and leaves the network alone. *)
Definition advances {A} (m : M A) : Prop :=
  ∀ w, plan (m w).2 `suffix_of` plan w ∧ network (m w).2 = network w.

(** A computation does not change the file at [p] (unless the environment
    does). *)
Definition keeps (p : string) {A} (m : M A) : Prop :=
  ∀ w, quiet_at p w → files (m w).2 !! p = files w !! p.

Lemma quiet_at_suffix p w w' :
  plan w' `suffix_of` plan w → quiet_at p w → quiet_at p w'.
Proof.
  unfold quiet_at. intros [k ->]. rewrite Forall_app. tauto.
Qed.


Lemma advances_ret {A} (a : A) : advances (ret a).
Proof. intros w. done. Qed.

Lemma advances_bind {A B} (m : M A) (k : A → M B) :
  advances m → (∀ a, advances (k a)) → advances (bind m k).
Proof.
  intros Hm Hk w. unfold bind. destruct (Hm w) as [H1 H2].
  destruct (m w) as [a w1]. simpl in *.
  destruct (Hk a w1) as [H3 H4]. split; [by etrans|congruence].
Qed.

Lemma keeps_ret p {A} (a : A) : keeps p (ret a).
Proof. intros w. done. Qed.

Lemma keeps_bind p {A B} (m : M A) (k : A → M B) :
  advances m → keeps p m → (∀ a, keeps p (k a)) → keeps p (bind m k).
Proof.
  intros Ha Hm Hk w Hq. unfold bind.
  specialize (Hm w Hq). destruct (Ha w) as [Hs _].
  destruct (m w) as [a w1]. simpl in *.
  rewrite (Hk a w1); [done|]. by eapply quiet_at_suffix.
Qed.

Lemma advances_enter : advances enter.
Proof.
  intros w. destruct (enter_spec w) as (Hp & _ & Hn & _). split; [|done].
  rewrite Hp. destruct (plan w); [done|]. simpl. by apply suffix_cons_r.
Qed.

Lemma keeps_enter p : keeps p enter.
Proof. intros w Hq. by apply enter_spec. Qed.

Lemma advances_emit ev : advances (emit ev).
Proof. intros w. done. Qed.

Lemma keeps_emit p ev : keeps p (emit ev).
Proof. intros w. done. Qed.

Lemma advances_set_files f : advances (set_files f).
Proof. intros w. done. Qed.

Lemma advances_get_files : advances get_files.
Proof. intros w. done. Qed.

Lemma keeps_get_files p : keeps p get_files.
Proof. intros w. done. Qed.

Lemma advances_time_Now : advances time_Now.
Proof. intros w. done. Qed.

Lemma keeps_time_Now p : keeps p time_Now.
Proof. intros w. done. Qed.

Lemma advances_time_Sleep d : advances (time_Sleep d).
Proof. intros w. done. Qed.

Lemma keeps_time_Sleep p d : keeps p (time_Sleep d).
Proof. intros w. done. Qed.

Lemma keeps_set_files p f :
  (∀ fs, f fs !! p = fs !! p) → keeps p (set_files f).
Proof. intros Hf w _. apply Hf. Qed.

Create HintDb frame.

#[global] Hint Resolve advances_ret advances_bind advances_enter advances_emit
  advances_set_files advances_get_files advances_time_Now advances_time_Sleep
  keeps_ret keeps_bind keeps_enter keeps_emit keeps_get_files keeps_time_Now
  keeps_time_Sleep : frame.

Ltac frame_solve :=
  repeat (first
    [ progress intros
    | apply advances_bind | apply keeps_bind
    | apply advances_ret | apply keeps_ret
    | apply advances_enter | apply keeps_enter
    | apply advances_emit | apply keeps_emit
    | apply advances_set_files | apply advances_get_files | apply keeps_get_files
    | apply advances_time_Now | apply keeps_time_Now
    | apply advances_time_Sleep | apply keeps_time_Sleep
    | case_match
    | apply keeps_set_files; intros;
        first [ by rewrite lookup_insert_ne by done
              | by rewrite lookup_delete_ne by done
              | case_match; by rewrite ?lookup_insert_ne by done ] ]).

Lemma advances_os_OpenFile_excl p perm : advances (os_OpenFile_excl p perm).
Proof. unfold os_OpenFile_excl. frame_solve. Qed.

Lemma keeps_os_OpenFile_excl q p perm : p ≠ q → keeps q (os_OpenFile_excl p perm).
Proof. intros. unfold os_OpenFile_excl. frame_solve. Qed.

Lemma advances_Fprintf_pid p n : advances (Fprintf_pid p n).
Proof. unfold Fprintf_pid. frame_solve. Qed.

Lemma keeps_Fprintf_pid q p n : p ≠ q → keeps q (Fprintf_pid p n).
Proof. intros. unfold Fprintf_pid. frame_solve. Qed.

Lemma advances_File_Close p : advances (File_Close p).
Proof. unfold File_Close. frame_solve. Qed.

Lemma keeps_File_Close q p : keeps q (File_Close p).
Proof. unfold File_Close. frame_solve. Qed.

Lemma advances_os_Stat p : advances (os_Stat p).
Proof. unfold os_Stat. frame_solve. Qed.

Lemma keeps_os_Stat q p : keeps q (os_Stat p).
Proof. unfold os_Stat. frame_solve. Qed.

Lemma advances_os_Remove p : advances (os_Remove p).
Proof. unfold os_Remove. frame_solve. Qed.

Lemma keeps_os_Remove q p : p ≠ q → keeps q (os_Remove p).
Proof. intros. unfold os_Remove. frame_solve. Qed.

Lemma advances_os_ReadFile p : advances (os_ReadFile p).
Proof. unfold os_ReadFile. frame_solve. Qed.

Lemma keeps_os_ReadFile q p : keeps q (os_ReadFile p).
Proof. unfold os_ReadFile. frame_solve. Qed.

Lemma advances_os_WriteFile p d perm : advances (os_WriteFile p d perm).
Proof. unfold os_WriteFile. frame_solve. Qed.

Lemma keeps_os_WriteFile q p d perm : p ≠ q → keeps q (os_WriteFile p d perm).
Proof. intros. unfold os_WriteFile. frame_solve. Qed.

Lemma advances_os_Rename a b : advances (os_Rename a b).
Proof. unfold os_Rename. frame_solve. Qed.

Lemma keeps_os_Rename q a b : a ≠ q → b ≠ q → keeps q (os_Rename a b).
Proof.
  intros. unfold os_Rename. frame_solve.
  apply keeps_set_files. intros fs.
  by rewrite lookup_insert_ne, lookup_delete_ne.
Qed.

Lemma advances_acquireFileLock_loop pid lp k :
  advances (acquireFileLock_loop pid lp k).
Proof.
  induction k as [|k IH]; cbn [acquireFileLock_loop]; [apply advances_ret|].
  pose proof (advances_os_OpenFile_excl lp 384).
  pose proof (advances_Fprintf_pid lp pid).
  pose proof (advances_os_Stat lp). pose proof (advances_os_Remove lp).
  frame_solve; done.
Qed.

Lemma keeps_acquireFileLock_loop q pid lp k :
  lp ≠ q → keeps q (acquireFileLock_loop pid lp k).
Proof.
  intros Hne.
  induction k as [|k IH]; cbn [acquireFileLock_loop]; [apply keeps_ret|].
  pose proof (advances_os_OpenFile_excl lp 384).
  pose proof (advances_Fprintf_pid lp pid).
  pose proof (advances_os_Stat lp). pose proof (advances_os_Remove lp).
  pose proof (keeps_os_OpenFile_excl q lp 384 Hne).
  pose proof (keeps_Fprintf_pid q lp pid Hne).
  pose proof (keeps_os_Stat q lp). pose proof (keeps_os_Remove q lp Hne).
  frame_solve; done.
Qed.

Lemma acquireFileLock_loop_lockPath pid lp k w fl :
  (acquireFileLock_loop pid lp k w).1 = inl fl →
  fl = {| lockFile := Some lp; lockPath := lp |}.
Proof.
  destruct (acquireFileLock_loop_run pid lp k w) as (attempts & Hrun & _).
  intros Heq. rewrite Heq in Hrun. clear Heq.
  remember (inl fl) as r eqn:Hr.
  induction Hrun as [|k a r Hok Hfin|]; [done| |by auto].
  subst r. destruct a; by simplify_eq/=.
Qed.

Lemma advances_release fl : advances (release fl).
Proof.
  unfold release. pose proof (advances_File_Close).
  pose proof (advances_os_Remove (lockPath fl)). frame_solve; done.
Qed.

Lemma keeps_release q fl : lockPath fl ≠ q → keeps q (release fl).
Proof.
  intros Hne. unfold release. pose proof (advances_File_Close).
  pose proof (keeps_File_Close q).
  pose proof (keeps_os_Remove q (lockPath fl) Hne). frame_solve; done.
Qed.

(** ** What is written to the token file reads back *)


Section CodecProperties.
Context `{TimeCodec}.






End CodecProperties.

(** ** What the single calls do *)

Lemma os_ReadFile_log p w :
  log (os_ReadFile p w).2
  = log w ++ [EvReadFile p (match (os_ReadFile p w).1 with
                            | inl _ => None | inr e => Some e end)].
Proof. unfold os_ReadFile. run_op; done. Qed.

Lemma os_WriteFile_log p d perm w :
  log (os_WriteFile p d perm w).2
  = log w ++ [EvWriteFile p (os_WriteFile p d perm w).1].
Proof. unfold os_WriteFile. run_op; done. Qed.

Lemma os_Rename_log a b w :
  log (os_Rename a b w).2 = log w ++ [EvRename a b (os_Rename a b w).1].
Proof. unfold os_Rename. run_op; done. Qed.

Lemma release_log lp w :
  log (release {| lockFile := Some lp; lockPath := lp |} w).2
  = log w ++ [EvClose lp;
              EvRemove lp (release {| lockFile := Some lp; lockPath := lp |} w).1].
Proof.
  unfold release, File_Close, os_Remove. cbn [lockFile lockPath].
  run_op; by rewrite <- ?app_assoc.
Qed.





(** A rename that fails changes no file. *)
Lemma os_Rename_failed a b w e q :
  quiet_at q w → (os_Rename a b w).1 = Some e →
  files (os_Rename a b w).2 !! q = files w !! q.
Proof.
  intros Hq. unfold os_Rename, bind, get_files, set_files, emit, ret.
  destruct (enter_spec w) as (_ & _ & _ & _ & Hfiles & _).
  specialize (Hfiles q Hq).
  destruct (enter w) as [flt w0]. simpl in *. destruct flt; simpl; [done|].
  destruct (files w0 !! a); simpl; done.
Qed.

(** ** saveTokens and loadTokens *)

Section StoreProperties.
Context `{TimeCodec} (cfg : Config).

Abbreviation tok := (tokenFile cfg).
Abbreviation tmp := (tokenFile cfg +:+ ".tmp").
Abbreviation lck := (tokenFile cfg +:+ ".lock").

(** The storage as saveTokens leaves it: an empty client id is filled in. *)
Definition effective (storage : TokenStorage) : TokenStorage :=
  if decide (ClientID storage = "") then
    {| AccessToken := AccessToken storage; RefreshToken := RefreshToken storage;
       TokenType := TokenType storage; ExpiresAt := ExpiresAt storage;
       ClientID := clientID cfg |}
  else storage.

(** The entries saveTokens starts from, given what reading the file gave. *)
Definition existing_tokens (existing : Data + error)
    : gmap string (option TokenStorage) :=
  match existing with
  | inl d =>
      match json_Unmarshal_TokenStorageMap d with
      | inl sm => default ∅ (Tokens sm)
      | inr _ => ∅
      end
  | inr _ => ∅
  end.

(** The control flow of saveTokens, call by call. *)
Lemma saveTokens_eq storage w :
  saveTokens cfg storage w =
  let st := effective storage in
  let a := acquireFileLock (pid cfg) tok w in
  match a.1 with
  | inr err => ((st, Some (ErrAcquireLock err)), a.2)
  | inl lock =>
      let rd := os_ReadFile tok a.2 in
      let sm := {| Tokens := Some (<[ClientID st := Some st]> (existing_tokens rd.1)) |} in
      match json_MarshalIndent sm with
      | inr err => ((st, Some err), (release lock rd.2).2)
      | inl d =>
          let wr := os_WriteFile tmp d 384 rd.2 in
          match wr.1 with
          | Some err => ((st, Some (ErrWriteTemp err)), (release lock wr.2).2)
          | None =>
              let rn := os_Rename tmp tok wr.2 in
              match rn.1 with
              | None => ((st, None), (release lock rn.2).2)
              | Some err =>
                  let rm := os_Remove tmp rn.2 in
                  ((st, Some (match rm.1 with
                              | Some removeErr => ErrRenameAndRemoveTemp err removeErr
                              | None => ErrRenameTemp err
                              end)),
                   (release lock rm.2).2)
              end
          end
      end
  end.
Proof.
  unfold saveTokens, bind, ret. fold (effective storage). cbn zeta.
  destruct (acquireFileLock (pid cfg) tok w) as [[lock|err] w1]; [|done].
  cbn [fst snd].
  destruct (os_ReadFile tok w1) as [existing w2]. cbn [fst snd].
  assert (match Tokens match existing with
                       | inl existing0 =>
                           match json_Unmarshal_TokenStorageMap existing0 with
                           | inl storageMap => storageMap
                           | inr _ => {| Tokens := Some ∅ |}
                           end
                       | inr _ => {| Tokens := None |}
                       end with
          | Some tokens => tokens
          | None => ∅
          end = existing_tokens existing) as ->.
  { unfold existing_tokens. destruct existing as [d|]; [|done].
    destruct (json_Unmarshal_TokenStorageMap d) as [[[t|]]|]; done. }
  destruct (json_MarshalIndent _) as [d|err]; [|by destruct (release lock w2)].
  destruct (os_WriteFile tmp d 384 w2) as [[err|] w3]; cbn [fst snd];
    [by destruct (release lock w3)|].
  destruct (os_Rename tmp tok w3) as [[err|] w4]; cbn [fst snd];
    [|by destruct (release lock w4)].
  destruct (os_Remove tmp w4) as [[removeErr|] w5]; cbn [fst snd];
    by destruct (release lock w5).
Qed.

(** The three paths never coincide. *)
Lemma lock_ne_tok : lck ≠ tok.
Proof. by apply string_append_ne. Qed.

Lemma tmp_ne_tok : tmp ≠ tok.
Proof. by apply string_append_ne. Qed.

Lemma lock_ne_tmp : lck ≠ tmp.
Proof. by intros [=]%string_append_inj. Qed.

Lemma acquireFileLock_lock w lock :
  (acquireFileLock (pid cfg) tok w).1 = inl lock →
  lock = {| lockFile := Some lck; lockPath := lck |}.
Proof. apply acquireFileLock_loop_lockPath. Qed.

Lemma advances_acquireFileLock : advances (acquireFileLock (pid cfg) tok).
Proof. apply advances_acquireFileLock_loop. Qed.

Lemma keeps_acquireFileLock q : lck ≠ q → keeps q (acquireFileLock (pid cfg) tok).
Proof. apply keeps_acquireFileLock_loop. Qed.

(** One call further: the file at [p] is still what it was at [w0], and the
    environment still leaves it alone. *)
Lemma keep_step {A} (m : M A) p w (old : option File) :
  advances m → keeps p m →
  quiet_at p w ∧ files w !! p = old →
  quiet_at p (m w).2 ∧ files (m w).2 !! p = old.
Proof.
  intros Ha Hk [Hq <-]. split; [|by apply Hk].
  eapply quiet_at_suffix; [apply Ha|done].
Qed.

Lemma move_step {A} (m : M A) p w :
  advances m → quiet_at p w → quiet_at p (m w).2.
Proof. intros Ha Hq. eapply quiet_at_suffix; [apply Ha|done]. Qed.

(** Whenever saveTokens returns an error, the token file is as it was. *)
Lemma saveTokens_error_keeps_file storage w :
  quiet_at tok w →
  (saveTokens cfg storage w).1.2 ≠ None →
  files (saveTokens cfg storage w).2 !! tok = files w !! tok.
Proof.
  intros Hq. rewrite saveTokens_eq. cbn zeta.
  assert (H0 : quiet_at tok w ∧ files w !! tok = files w !! tok) by done.
  apply (keep_step (acquireFileLock (pid cfg) tok)) in H0;
    [|apply advances_acquireFileLock|apply keeps_acquireFileLock, lock_ne_tok].
  pose proof (acquireFileLock_lock w) as Hlock.
  destruct (acquireFileLock (pid cfg) tok w) as [[lock|err] w1]; cbn [fst snd] in *;
    [|intros _; apply H0].
  rewrite (Hlock lock eq_refl). clear Hlock.
  assert (Hrel : ∀ w', quiet_at tok w' ∧ files w' !! tok = files w !! tok →
    files (release {| lockFile := Some lck; lockPath := lck |} w').2 !! tok
    = files w !! tok).
  { intros w' Hw'. eapply keep_step in Hw'; [apply Hw'|apply advances_release|].
    apply keeps_release, lock_ne_tok. }
  apply (keep_step (os_ReadFile tok)) in H0;
    [|apply advances_os_ReadFile|apply keeps_os_ReadFile].
  destruct (os_ReadFile tok w1) as [existing w2]; cbn [fst snd] in *.
  destruct (json_MarshalIndent _) as [d|err]; cbn [fst snd]; [|intros _; by apply Hrel].
  apply (keep_step (os_WriteFile tmp d 384)) in H0;
    [|apply advances_os_WriteFile|apply keeps_os_WriteFile, tmp_ne_tok].
  destruct (os_WriteFile tmp d 384 w2) as [[err|] w3]; cbn [fst snd] in *;
    [intros _; by apply Hrel|].
  pose proof (os_Rename_failed tmp tok w3) as Hfail.
  pose proof (move_step (os_Rename tmp tok) tok w3 (advances_os_Rename _ _)) as Hmv.
  destruct (os_Rename tmp tok w3) as [[err|] w4]; cbn [fst snd] in *; [|done].
  intros _. destruct H0 as [Hq3 H3].
  assert (H4 : quiet_at tok w4 ∧ files w4 !! tok = files w !! tok).
  { split; [by apply Hmv|]. rewrite <- H3. by eapply Hfail. }
  apply (keep_step (os_Remove tmp)) in H4;
    [|apply advances_os_Remove|apply keeps_os_Remove, tmp_ne_tok].
  destruct (os_Remove tmp w4) as [rm w5]; cbn [fst snd] in *. by apply Hrel.
Qed.



Lemma effective_own storage :
  ClientID storage = clientID cfg → effective storage = storage.
Proof.
  intros Hid. unfold effective. case_decide; [|done].
  destruct storage. simpl in *. by subst.
Qed.


Lemma saveTokens_storage storage w :
  (saveTokens cfg storage w).1.1 = effective storage.
Proof.
  rewrite saveTokens_eq. cbn zeta.
  repeat (case_match; cbn [fst snd]); done.
Qed.


Lemma lock_events_no_rename lp attempts a b err :
  EvRename a b err ∉ concat (attempt_events lp <$> attempts).
Proof.
  induction attempts as [|x rest IH]; cbn [fmap list_fmap concat].
  { apply not_elem_of_nil. }
  rewrite elem_of_app. intros [Hx|Hrest]; [|done].
  destruct x; cbn [attempt_events] in Hx;
    repeat (apply elem_of_cons in Hx as [?|Hx]; [done|]);
    by apply elem_of_nil in Hx.
Qed.

(** The calls of saveTokens when the rename fails: ... rename, remove of
    the temp file, then the release of the lock. *)
Lemma saveTokens_rename_failure_log storage w evs e :
  log (saveTokens cfg storage w).2 = log w ++ evs →
  EvRename tmp tok (Some e) ∈ evs →
  ∃ pre rm post,
    evs = pre ++ [EvRename tmp tok (Some e); EvRemove tmp rm] ++ post ∧
    (saveTokens cfg storage w).1.2
    = Some (match rm with
            | Some removeErr => ErrRenameAndRemoveTemp e removeErr
            | None => ErrRenameTemp e
            end).
Proof.
  rewrite saveTokens_eq. cbn zeta. unfold acquireFileLock.
  destruct (acquireFileLock_loop_run (pid cfg) lck maxRetries w)
    as (attempts & _ & Hlog1).
  pose proof (acquireFileLock_loop_lockPath (pid cfg) lck maxRetries w) as Hlock.
  pose proof (lock_events_no_rename lck attempts) as Hno.
  destruct (acquireFileLock_loop (pid cfg) lck maxRetries w) as [[lock|err] w1];
    cbn [fst snd] in *.
  2:{ rewrite Hlog1. intros <-%app_inv_head Hin. by apply Hno in Hin. }
  rewrite (Hlock lock eq_refl). clear Hlock.
  pose proof (os_ReadFile_log tok w1) as Hlog2.
  destruct (os_ReadFile tok w1) as [existing w2]; cbn [fst snd] in *.
  destruct (json_MarshalIndent _) as [d|err]; cbn [fst snd].
  2:{ rewrite release_log, Hlog2, Hlog1, <- !app_assoc.
      intros <-%app_inv_head Hin.
      rewrite elem_of_app in Hin. destruct Hin as [Hin|Hin]; [by apply Hno in Hin|].
      repeat (apply elem_of_cons in Hin as [?|Hin]; [done|]).
      by apply elem_of_nil in Hin. }
  pose proof (os_WriteFile_log tmp d 384 w2) as Hlog3.
  destruct (os_WriteFile tmp d 384 w2) as [[err|] w3]; cbn [fst snd] in *.
  { rewrite release_log, Hlog3, Hlog2, Hlog1, <- !app_assoc.
    intros <-%app_inv_head Hin.
    rewrite elem_of_app in Hin. destruct Hin as [Hin|Hin]; [by apply Hno in Hin|].
    repeat (apply elem_of_cons in Hin as [?|Hin]; [done|]).
    by apply elem_of_nil in Hin. }
  pose proof (os_Rename_log tmp tok w3) as Hlog4.
  destruct (os_Rename tmp tok w3) as [[err|] w4]; cbn [fst snd] in *.
  2:{ rewrite release_log, Hlog4, Hlog3, Hlog2, Hlog1, <- !app_assoc.
      intros <-%app_inv_head Hin.
      rewrite elem_of_app in Hin. destruct Hin as [Hin|Hin]; [by apply Hno in Hin|].
      repeat (apply elem_of_cons in Hin as [?|Hin]; [done|]).
      by apply elem_of_nil in Hin. }
  pose proof (os_Remove_log tmp w4) as Hlog5.
  destruct (os_Remove tmp w4) as [rm w5]; cbn [fst snd] in *.
  rewrite release_log, Hlog5, Hlog4, Hlog3, Hlog2, Hlog1, <- !app_assoc.
  intros <-%app_inv_head Hin.
  rewrite elem_of_app in Hin. destruct Hin as [Hin|Hin]; [by apply Hno in Hin|].
  assert (err = e) as ->.
  { repeat (apply elem_of_cons in Hin as [Heq|Hin];
              [first [by simplify_eq | done]|]).
    by apply elem_of_nil in Hin. }
  eexists (concat (attempt_events lck <$> attempts) ++ [_; _]), rm, _.
  split; [|done]. rewrite <- !app_assoc. reflexivity.
Qed.

Lemma advances_saveTokens storage : advances (saveTokens cfg storage).
Proof.
  unfold saveTokens.
  apply advances_bind; [apply advances_acquireFileLock|].
  intros [lock|err]; [|apply advances_ret].
  apply advances_bind;
    [|intros; apply advances_bind; [apply advances_release|intros; apply advances_ret]].
  apply advances_bind; [apply advances_os_ReadFile|].
  intros existing. cbn zeta.
  destruct (json_MarshalIndent _); [|apply advances_ret].
  apply advances_bind; [apply advances_os_WriteFile|].
  intros [e|]; [apply advances_ret|].
  apply advances_bind; [apply advances_os_Rename|].
  intros [e|]; [|apply advances_ret].
  apply advances_bind; [apply advances_os_Remove|].
  intros [e'|]; apply advances_ret.
Qed.

End StoreProperties.


(** C7. Whenever the rename of the temp file over the token file fails
    during saveTokens, the next call is the removal of the temp file, and
    the error returned carries the rename's own error: alone when the
    removal went through, together with the removal's error when it did
    not.  If no other process touches the token file, the file is after
    the call what it was before. *)
Theorem saveTokens_rename_failure `{TimeCodec} cfg storage w evs e :
  log (saveTokens cfg storage w).2 = log w ++ evs →
  EvRename (tokenFile cfg +:+ ".tmp") (tokenFile cfg) (Some e) ∈ evs →
  (∃ pre rm post,
     evs = pre ++ [EvRename (tokenFile cfg +:+ ".tmp") (tokenFile cfg) (Some e);
                   EvRemove (tokenFile cfg +:+ ".tmp") rm] ++ post ∧
     (saveTokens cfg storage w).1.2
     = Some (match rm with
             | Some removeErr => ErrRenameAndRemoveTemp e removeErr
             | None => ErrRenameTemp e
             end)) ∧
  (quiet_at (tokenFile cfg) w →
   files (saveTokens cfg storage w).2 !! tokenFile cfg = files w !! tokenFile cfg).
Proof.
  intros Hlog Hin.
  destruct (saveTokens_rename_failure_log cfg storage w evs e Hlog Hin)
    as (pre & rm & post & Hevs & Hres).
  split; [by eauto|].
  intros Hq. apply saveTokens_error_keeps_file; [done|]. by rewrite Hres.
Qed.

(** ** Running the model *)

(** To run the token store an instance of the time conversions is needed.
    This one writes an instant as its decimal count of nanoseconds, not in
    RFC 3339 notation; it satisfies the two laws. *)
Definition decimal_format (t : Z) : option string :=
  Some (DecimalString.NilEmpty.string_of_int (Z.to_int t)).

Definition decimal_parse (s : string) : option Z :=
  Z.of_int <$> DecimalString.NilEmpty.int_of_string s.

Lemma decimal_parse_format t s :
  decimal_format t = Some s → decimal_parse s = Some t.
Proof.
  unfold decimal_format, decimal_parse. intros Heq.
  apply (inj Some) in Heq. subst s.
  rewrite DecimalString.NilEmpty.isi.
  cbn [fmap option_fmap option_map]. by rewrite DecimalZ.of_to.
Qed.

Lemma decimal_format_parse s t :
  decimal_parse s = Some t → is_Some (decimal_format t).
Proof. intros _. by eexists. Qed.

#[local] Instance decimal_codec : TimeCodec := {|
  formatRFC3339 := decimal_format;
  parseRFC3339 := decimal_parse;
  parse_format := decimal_parse_format;
  format_parse := decimal_format_parse;
|}.

Definition offline : HttpRequest → HttpOutcome :=
  λ _, DoFails (ErrTransport "offline").

Definition test_cfg (client : string) : Config :=
  {| serverURL := "http://localhost:8080"; clientID := client;
     clientSecret := ""; tokenFile := "tokens.json"; pid := 4242 |}.

Definition test_storage (id : string) : TokenStorage :=
  {| AccessToken := "token-" +:+ id; RefreshToken := "refresh-" +:+ id;
     TokenType := "Bearer"; ExpiresAt := 1700003600000000000; ClientID := id |}.

(** An empty directory at some instant, left alone. *)
Definition empty_world : World :=
  {| files := ∅; clock := 1700000000000000000; plan := []; log := [];
     network := offline |}.

(** The world after client-a saved its tokens. *)
Definition world_a : World := (saveTokens (test_cfg "client-a") (test_storage "client-a") empty_world).2.

(** The world after client-b saved its tokens as well. *)
Definition world_ab : World := (saveTokens (test_cfg "client-b") (test_storage "client-b") world_a).2.

(** TestSaveAndLoadTokens. *)
Example save_then_load :
  (saveTokens (test_cfg "client-a") (test_storage "client-a") empty_world).1.2 = None ∧
  (loadTokens (test_cfg "client-a") world_a).1 = inl (Some (test_storage "client-a")).
Proof. vm_compute. done. Qed.

(** TestSaveTokens_MultipleClients. *)
Example save_two_clients :
  (loadTokens (test_cfg "client-a") world_ab).1 = inl (Some (test_storage "client-a")) ∧
  (loadTokens (test_cfg "client-b") world_ab).1 = inl (Some (test_storage "client-b")) ∧
  (loadTokens (test_cfg "client-c") world_ab).1 = inr (ErrNoTokensForClient "client-c").
Proof. vm_compute. done. Qed.

(** The calls of one save in a world left alone. *)
Example save_calls :
  log world_a
  = [ EvOpenExcl "tokens.json.lock" None; EvWritePid "tokens.json.lock";
      EvReadFile "tokens.json" (Some (PathError "open" "tokens.json" ENOENT));
      EvWriteFile "tokens.json.tmp" None;
      EvRename "tokens.json.tmp" "tokens.json" None;
      EvClose "tokens.json.lock"; EvRemove "tokens.json.lock" None ].
Proof. vm_compute. done. Qed.



(** The token file as client-a left it. *)
Definition file_a : File :=
  {| data := JSONText (JObject [("tokens", JObject [("client-a",
       JObject [ ("access_token", JString "token-client-a");
                 ("refresh_token", JString "refresh-client-a");
                 ("token_type", JString "Bearer");
                 ("expires_at", JString "1700003600000000000");
                 ("client_id", JString "client-a") ])])]);
     mtime := 1700000000000000000; mode := 384 |}.

Example world_a_file : files world_a !! "tokens.json" = Some file_a.
Proof. vm_compute. done. Qed.


(** The specification speaks of a token file that parses as valid JSON.
    An entry of such a file is the member under the client id of the
    object under "tokens". *)
Fixpoint member (name : string) (ms : list (string * json)) : option json :=
  match ms with
  | [] => None
  | (k, v) :: ms => if decide (k = name) then Some v else member name ms
  end.

Definition file_entry (d : Data) (client : string) : option json :=
  match d with
  | JSONText (JObject top) =>
      match member "tokens" top with
      | Some (JObject entries) => member client entries
      | _ => None
      end
  | _ => None
  end.


(** A token file that is valid JSON, with the tokens of client-b and an
    entry of client-c whose access token is a number. *)
Definition entry_b : json :=
  JObject [ ("access_token", JString "token-client-b");
            ("refresh_token", JString "refresh-client-b");
            ("token_type", JString "Bearer");
            ("expires_at", JString "1700003600000000000");
            ("client_id", JString "client-b") ].

Definition file_mistyped : File :=
  {| data := JSONText (JObject [("tokens", JObject
       [ ("client-b", entry_b);
         ("client-c", JObject [("access_token", JNumber (JInt 12345))]) ])]);
     mtime := 1700000000000000000; mode := 384 |}.

Definition world_mistyped : World :=
  {| files := {[ "tokens.json" := file_mistyped ]};
     clock := 1700000100000000000; plan := []; log := []; network := offline |}.

(** json.Unmarshal reports the number and saveTokens starts from an empty
    map: the save returns nil and the tokens of client-b are gone. *)
Example mistyped_entry_drops_others :
  let r := saveTokens (test_cfg "client-a") (test_storage "client-a") world_mistyped in
  file_entry (data file_mistyped) "client-b" = Some entry_b ∧
  json_Unmarshal_TokenStorageMap (data file_mistyped) = inr JSONTypeError ∧
  r.1.2 = None ∧
  files r.2 !! "tokens.json" = Some {| data := data file_a; mtime := 1700000100000000000; mode := 384 |} ∧
  (loadTokens (test_cfg "client-b") r.2).1 = inr (ErrNoTokensForClient "client-b").
Proof. vm_compute. done. Qed.


(** A world in which the fifth call, the rename, fails with EXDEV, and a
    world in which the removal of the temp file fails as well. *)
Definition benign : Env := {| elapsed := 0; interference := Nothing; fault := None |}.
Definition failing (e : Errno) : Env :=
  {| elapsed := 0; interference := Nothing; fault := Some e |}.

Definition world_rename_fails : World :=
  {| files := files world_a; clock := clock world_a;
     plan := [benign; benign; benign; benign; failing EXDEV];
     log := []; network := offline |}.

Definition world_rename_and_remove_fail : World :=
  {| files := files world_a; clock := clock world_a;
     plan := [benign; benign; benign; benign; failing EXDEV; failing EACCES];
     log := []; network := offline |}.

Example rename_fails :
  let r := saveTokens (test_cfg "client-b") (test_storage "client-b") world_rename_fails in
  r.1.2 = Some (ErrRenameTemp (PathError "rename" "tokens.json.tmp" EXDEV)) ∧
  files r.2 !! "tokens.json" = Some file_a ∧
  files r.2 !! "tokens.json.tmp" = None ∧
  log r.2
  = [ EvOpenExcl "tokens.json.lock" None; EvWritePid "tokens.json.lock";
      EvReadFile "tokens.json" None; EvWriteFile "tokens.json.tmp" None;
      EvRename "tokens.json.tmp" "tokens.json"
        (Some (PathError "rename" "tokens.json.tmp" EXDEV));
      EvRemove "tokens.json.tmp" None;
      EvClose "tokens.json.lock"; EvRemove "tokens.json.lock" None ].
Proof. vm_compute. done. Qed.

Example rename_and_remove_fail :
  let r := saveTokens (test_cfg "client-b") (test_storage "client-b")
             world_rename_and_remove_fail in
  r.1.2 = Some (ErrRenameAndRemoveTemp
                  (PathError "rename" "tokens.json.tmp" EXDEV)
                  (PathError "remove" "tokens.json.tmp" EACCES)) ∧
  files r.2 !! "tokens.json" = Some file_a ∧
  is_Some (files r.2 !! "tokens.json.tmp").
Proof. vm_compute. split; [done|]. split; [done|]. by eexists. Qed.

(** The same loss when the token file decodes but cannot be read: the
    third call of the save, the read, fails with EACCES. *)
Definition world_unreadable : World :=
  {| files := files world_ab; clock := clock world_ab;
     plan := [benign; benign; failing EACCES]; log := []; network := offline |}.

Example unreadable_file_drops_others :
  let r := saveTokens (test_cfg "client-a") (test_storage "client-a") world_unreadable in
  (loadTokens (test_cfg "client-b") world_unreadable).1
  = inl (Some (test_storage "client-b")) ∧
  r.1.2 = None ∧
  (loadTokens (test_cfg "client-b") r.2).1 = inr (ErrNoTokensForClient "client-b").
Proof. vm_compute. done. Qed.

Lemma saveTokens_rename_failure_witness :
  let cfg := test_cfg "client-b" in
  let storage := test_storage "client-b" in
  let w := world_rename_fails in
  let e := PathError "rename" "tokens.json.tmp" EXDEV in
  let evs := log (saveTokens cfg storage w).2 in
  (∃ pre rm post,
     evs = pre ++ [EvRename (tokenFile cfg +:+ ".tmp") (tokenFile cfg) (Some e);
                   EvRemove (tokenFile cfg +:+ ".tmp") rm] ++ post ∧
     (saveTokens cfg storage w).1.2
     = Some (match rm with
             | Some removeErr => ErrRenameAndRemoveTemp e removeErr
             | None => ErrRenameTemp e
             end)) ∧
  (quiet_at (tokenFile cfg) w →
   files (saveTokens cfg storage w).2 !! tokenFile cfg = files w !! tokenFile cfg).
Proof.
  apply (saveTokens_rename_failure (test_cfg "client-b") (test_storage "client-b")
           world_rename_fails
           (log (saveTokens (test_cfg "client-b") (test_storage "client-b")
                   world_rename_fails).2)
           (PathError "rename" "tokens.json.tmp" EXDEV)).
  - vm_compute. reflexivity.
  - vm_compute. do 4 apply list_elem_of_further. apply list_elem_of_here.
Defined.

(** ** Running acquireFileLock *)

(** Another process holds a lock file that is [age] old and never lets
    go. *)
Definition world_locked (age : Z) : World :=
  {| files := {[ "tokens.json.lock" :=
                   {| data := JSONText (JNumber (JInt 1)); mtime := 1700000000000000000 - age;
                      mode := 384 |} ]};
     clock := 1700000000000000000; plan := []; log := []; network := offline |}.

(** TestStaleLockRemoval: a lock file 60s old is removed and the lock
    taken on the second pass, without sleeping. *)
Example stale_lock_removed :
  let r := acquireFileLock 4242 "tokens.json" (world_locked (60 * 1000000000)) in
  r.1 = inl {| lockFile := Some "tokens.json.lock"; lockPath := "tokens.json.lock" |} ∧
  clock r.2 = 1700000000000000000 ∧
  log r.2
  = [ EvOpenExcl "tokens.json.lock"
        (Some (PathError "open" "tokens.json.lock" EEXIST));
      EvStat "tokens.json.lock"; EvRemove "tokens.json.lock" None;
      EvOpenExcl "tokens.json.lock" None; EvWritePid "tokens.json.lock" ].
Proof. vm_compute. done. Qed.

(** A lock file one second old stays fresh through all 50 passes: 50 open
    attempts, 50 sleeps of 100ms, then the timeout error. *)
Example fresh_lock_times_out :
  let r := acquireFileLock 4242 "tokens.json" (world_locked 1000000000) in
  r.1 = inr (ErrLockTimeout 5000000000) ∧
  open_attempts (log r.2) = 50%nat ∧
  clock r.2 = 1700000000000000000 + 5000000000.
Proof. vm_compute. done. Qed.

(** A lock file 29.95s old turns stale while waiting: one sleep, then it
    is removed and the lock is taken on the third pass. *)
Example lock_turns_stale :
  let r := acquireFileLock 4242 "tokens.json" (world_locked 29950000000) in
  r.1 = inl {| lockFile := Some "tokens.json.lock"; lockPath := "tokens.json.lock" |} ∧
  open_attempts (log r.2) = 3%nat.
Proof. vm_compute. done. Qed.

(** An open that fails for another reason ends the loop at once. *)
Example open_denied :
  let w := {| files := ∅; clock := 0; plan := [failing EACCES]; log := [];
              network := offline |} in
  (acquireFileLock 4242 "tokens.json" w).1
  = inr (ErrAcquireFileLock (PathError "open" "tokens.json.lock" EACCES)).
Proof. vm_compute. done. Qed.

(** ** refreshAccessToken *)

Section RefreshProperties.
Context `{TimeCodec} (cfg : Config).

(** The result of refreshAccessToken, by the answer of the server. *)
Lemma refreshAccessToken_result refreshToken w :
  (refreshAccessToken cfg refreshToken w).1
  = match network w (refreshRequest cfg refreshToken) with
    | NewRequestFails err => inr (ErrCreateRequest err)
    | DoFails err => inr (ErrRefreshRequestFailed err)
    | ReadAllFails _ err => inr (ErrReadResponse err)
    | Response status body =>
        if decide (status ≠ 200) then
          match json_Unmarshal_ErrorResponse body with
          | inl errResp =>
              if decide (Error errResp = "invalid_grant" ∨
                         Error errResp = "invalid_token")
              then inr ErrRefreshTokenExpired
              else inr (ErrOAuth (Error errResp) (ErrorDescription errResp))
          | inr _ => inr (ErrRefreshStatus status body)
          end
        else
          match json_Unmarshal_tokenResp body with
          | inr err => inr (ErrParseTokenResponse err)
          | inl tr =>
              match validateTokenResponse (tokenResp.AccessToken tr)
                      (tokenResp.TokenType tr) (tokenResp.ExpiresIn tr) with
              | Some err => inr (ErrInvalidTokenResponse err)
              | None =>
                  inl (effective cfg
                    {| AccessToken := tokenResp.AccessToken tr;
                       RefreshToken :=
                         if decide (tokenResp.RefreshToken tr = "")
                         then refreshToken else tokenResp.RefreshToken tr;
                       TokenType := tokenResp.TokenType tr;
                       ExpiresAt :=
                         clock w + wrap64 (tokenResp.ExpiresIn tr * time_Second);
                       ClientID := clientID cfg |})
              end
          end
    end.
Proof.
  unfold refreshAccessToken, bind, http_Do, ret, time_Now. cbn [fst snd clock].
  destruct (network w (refreshRequest cfg refreshToken)) as [e|e|st e|st body];
    try done.
  case_decide.
  { destruct (json_Unmarshal_ErrorResponse body) as [errResp|]; [|done].
    by case_decide. }
  destruct (json_Unmarshal_tokenResp body) as [tr|]; [|done].
  destruct (validateTokenResponse _ _ _); [done|].
  match goal with
  | |- context [saveTokens cfg ?st ?w1] =>
      pose proof (saveTokens_storage cfg st w1) as Hst;
      destruct (saveTokens cfg st w1) as [[st' serr] w2]
  end.
  cbn [fst snd] in *. subst st'.
  destruct serr; cbn [fst snd]; unfold print_warning, emit; done.
Qed.

(** refreshAccessToken returns the sentinel exactly for a non-200 answer
    whose body decodes to an error of invalid_grant or invalid_token. *)
Lemma refreshAccessToken_expired_iff refreshToken w :
  (refreshAccessToken cfg refreshToken w).1 = inr ErrRefreshTokenExpired ↔
  ∃ status body errResp,
    network w (refreshRequest cfg refreshToken) = Response status body ∧
    status ≠ 200 ∧
    json_Unmarshal_ErrorResponse body = inl errResp ∧
    (Error errResp = "invalid_grant" ∨ Error errResp = "invalid_token").
Proof.
  rewrite refreshAccessToken_result. split.
  - destruct (network w _) as [e|e|st e|st body]; try done.
    case_decide.
    + destruct (json_Unmarshal_ErrorResponse body) as [errResp|] eqn:He; [|done].
      case_decide; [|done]. intros _. eauto 10.
    + destruct (json_Unmarshal_tokenResp body); [|done].
      by destruct (validateTokenResponse _ _ _).
  - intros (status & body & errResp & -> & Hst & -> & Herr).
    rewrite decide_True by done. by rewrite decide_True.
Qed.

(** Any other non-200 answer gives the server's error code and description,
    or the status and the body. *)
Lemma refreshAccessToken_other_failure refreshToken w status body :
  network w (refreshRequest cfg refreshToken) = Response status body →
  status ≠ 200 →
  (refreshAccessToken cfg refreshToken w).1 ≠ inr ErrRefreshTokenExpired →
  (∃ errResp, json_Unmarshal_ErrorResponse body = inl errResp ∧
     (refreshAccessToken cfg refreshToken w).1
     = inr (ErrOAuth (Error errResp) (ErrorDescription errResp))) ∨
  ((∃ err, json_Unmarshal_ErrorResponse body = inr err) ∧
   (refreshAccessToken cfg refreshToken w).1 = inr (ErrRefreshStatus status body)).
Proof.
  rewrite refreshAccessToken_result. intros -> Hst. rewrite decide_True by done.
  destruct (json_Unmarshal_ErrorResponse body) as [errResp|err]; [|by eauto].
  case_decide; [done|]. by eauto.
Qed.

(** After a 401, makeAPICallWithAutoRefresh returns an error main
    re-authenticates for exactly when the refresh returned the sentinel. *)
Lemma makeAPICallWithAutoRefresh_reauth storage w err :
  (makeAPICallWithAutoRefresh cfg storage w).1.2 = Some err →
  main_reauthenticates err = true ↔
  (StatusCode (network w (tokeninfoRequest cfg (AccessToken storage))) = Some 401 ∧
   (refreshAccessToken cfg (RefreshToken storage)
      (http_Do (tokeninfoRequest cfg (AccessToken storage)) w).2).1
   = inr ErrRefreshTokenExpired).
Proof.
  unfold makeAPICallWithAutoRefresh, bind.
  change (http_Do (tokeninfoRequest cfg (AccessToken storage)) w)
    with (network w (tokeninfoRequest cfg (AccessToken storage)),
          (http_Do (tokeninfoRequest cfg (AccessToken storage)) w).2).
  set (w1 := (http_Do (tokeninfoRequest cfg (AccessToken storage)) w).2).
  set (resp := network w _). cbn iota beta.
  assert (Hfinish : ∀ st r w' e,
    (makeAPICall_finish st r w').1.2 = Some e → main_reauthenticates e = false).
  { intros st r w' e. unfold makeAPICall_finish, ret.
    destruct r; cbn; try by intros [= <-].
    case_decide; cbn; [by intros [= <-]|done]. }
  case_decide as H401.
  - destruct (refreshAccessToken cfg (RefreshToken storage) w1) as [[st|e] w2] eqn:Href;
      cbn [fst snd].
    + set (st' := {| AccessToken := _ |}).
      destruct (http_Do (tokeninfoRequest cfg (AccessToken st')) w2) as [r2 w3].
      intros Herr. rewrite ?Href. split; [|by intros [_ [=]]].
      assert (main_reauthenticates err = false) as ->; [|done].
      destruct r2; try (unfold ret in Herr; cbn in Herr; by simplify_eq).
      all: eapply (Hfinish st' _ w3); exact Herr.
    + rewrite ?Href. destruct e; unfold ret; cbn; intros [= <-]; cbn; split;
        try done; by intros [_ [=]].
  - intros Herr. rewrite (Hfinish _ _ _ _ Herr). split; [done|]. by intros [? _].
Qed.

(** At start-up, main goes on to a new authorization after any failure of
    the refresh, unless the process was interrupted. *)
Lemma main_reuse_or_refresh_failure interrupted w existing err :
  (loadTokens cfg w).1 = inl (Some existing) →
  ¬ clock (loadTokens cfg w).2 < ExpiresAt existing →
  (refreshAccessToken cfg (RefreshToken existing) (loadTokens cfg w).2).1 = inr err →
  (main_reuse_or_refresh cfg interrupted w).1
  = if interrupted then Exit 130 else Proceed None.
Proof.
  unfold main_reuse_or_refresh, bind, ret, time_Now.
  destruct (loadTokens cfg w) as [l w1]; cbn [fst snd]. intros -> Hexp.
  rewrite decide_False by done.
  destruct (refreshAccessToken cfg (RefreshToken existing) w1) as [r w2];
    cbn [fst snd]. intros ->. by destruct interrupted.
Qed.

End RefreshProperties.

(** C8, as amended.  refreshAccessToken returns ErrRefreshTokenExpired
    exactly when the answer has a status other than 200 and a body that
    decodes to an error object whose error field is "invalid_grant" or
    "invalid_token"; every other answer with a status other than 200 gives
    an error that is not the sentinel and carries the server's error code
    and description, or the status and the body.  After a 401,
    makeAPICallWithAutoRefresh returns an error for which main
    re-authenticates exactly when the refresh returned the sentinel.  At
    start-up main goes on to a new authorization after any failure of the
    refresh (or exits with 130 when interrupted). *)
Theorem refreshAccessToken_expired_exactly `{TimeCodec} cfg :
  (∀ refreshToken w,
     (refreshAccessToken cfg refreshToken w).1 = inr ErrRefreshTokenExpired ↔
     ∃ status body errResp,
       network w (refreshRequest cfg refreshToken) = Response status body ∧
       status ≠ 200 ∧
       json_Unmarshal_ErrorResponse body = inl errResp ∧
       (Error errResp = "invalid_grant" ∨ Error errResp = "invalid_token")) ∧
  (∀ refreshToken w status body,
     network w (refreshRequest cfg refreshToken) = Response status body →
     status ≠ 200 →
     (refreshAccessToken cfg refreshToken w).1 ≠ inr ErrRefreshTokenExpired →
     (∃ errResp, json_Unmarshal_ErrorResponse body = inl errResp ∧
        (refreshAccessToken cfg refreshToken w).1
        = inr (ErrOAuth (Error errResp) (ErrorDescription errResp))) ∨
     ((∃ err, json_Unmarshal_ErrorResponse body = inr err) ∧
      (refreshAccessToken cfg refreshToken w).1 = inr (ErrRefreshStatus status body))) ∧
  (∀ storage w err,
     (makeAPICallWithAutoRefresh cfg storage w).1.2 = Some err →
     main_reauthenticates err = true ↔
     (StatusCode (network w (tokeninfoRequest cfg (AccessToken storage))) = Some 401 ∧
      (refreshAccessToken cfg (RefreshToken storage)
         (http_Do (tokeninfoRequest cfg (AccessToken storage)) w).2).1
      = inr ErrRefreshTokenExpired)) ∧
  (∀ interrupted w existing err,
     (loadTokens cfg w).1 = inl (Some existing) →
     ¬ clock (loadTokens cfg w).2 < ExpiresAt existing →
     (refreshAccessToken cfg (RefreshToken existing) (loadTokens cfg w).2).1 = inr err →
     (main_reuse_or_refresh cfg interrupted w).1
     = if interrupted then Exit 130 else Proceed None).
Proof.
  split; [|split; [|split]].
  - apply refreshAccessToken_expired_iff.
  - apply refreshAccessToken_other_failure.
  - apply makeAPICallWithAutoRefresh_reauth.
  - apply main_reuse_or_refresh_failure.
Qed.

(** Client-a's tokens have expired and the server answers every request
    with 400 and a body that is not JSON. *)
Definition server_rejecting : HttpRequest → HttpOutcome :=
  λ _, Response 400 (NotJSON "Bad Request").

Definition world_expired_server_rejecting : World :=
  {| files := files world_a; clock := 1700007200000000000; plan := []; log := [];
     network := server_rejecting |}.

Example refresh_server_rejecting :
  (refreshAccessToken (test_cfg "client-a") "refresh-client-a"
     world_expired_server_rejecting).1
  = inr (ErrRefreshStatus 400 (NotJSON "Bad Request")).
Proof. vm_compute. done. Qed.

(** C8, counterexample to the routing clause: with expired stored tokens
    and a server that answers 400, the refresh fails with an error that is
    not ErrRefreshTokenExpired, and main still goes on to a new
    authorization. *)
Lemma not_only_expired_reauthorizes :
  ¬ only_expired_reauthorizes (test_cfg "client-a").
Proof.
  intros Honly.
  specialize (Honly false world_expired_server_rejecting (test_storage "client-a")
                (ErrRefreshStatus 400 (NotJSON "Bad Request"))).
  assert (ErrRefreshStatus 400 (NotJSON "Bad Request")
          = ErrRefreshTokenExpired) as Heq; [|discriminate Heq].
  apply Honly.
  - vm_compute. reflexivity.
  - vm_compute. intros [=].
  - vm_compute. reflexivity.
  - vm_compute. reflexivity.
Qed.

(** The same server answering 400 with invalid_grant: the sentinel. *)
Example refresh_invalid_grant :
  let w := {| files := ∅; clock := 0; plan := []; log := [];
              network := λ _, Response 400 (JSONText (JObject
                [("error", JString "invalid_grant");
                 ("error_description", JString "Refresh token is invalid or expired")])) |} in
  (refreshAccessToken (test_cfg "client-a") "old" w).1 = inr ErrRefreshTokenExpired.
Proof. vm_compute. done. Qed.

(** A body that decodes but names no error: the error carries two empty
    strings. *)
Example refresh_empty_error_object :
  let w := {| files := ∅; clock := 0; plan := []; log := [];
              network := λ _, Response 400 (JSONText (JObject [])) |} in
  (refreshAccessToken (test_cfg "client-a") "old" w).1 = inr (ErrOAuth "" "").
Proof. vm_compute. done. Qed.

(** ** Refresh rotation *)



(** A server that rotates the refresh token, and one that does not. *)
Definition token_body (refresh : list (string * json)) : Data :=
  JSONText (JObject ([("access_token", JString "new-access-token");
                      ("token_type", JString "Bearer");
                      ("expires_in", JNumber (JInt 3600))] ++ refresh)).

Definition world_refresh (refresh : list (string * json)) : World :=
  {| files := files world_a; clock := 1700007200000000000; plan := []; log := [];
     network := λ _, Response 200 (token_body refresh) |}.

Example refresh_rotates :
  (refreshAccessToken (test_cfg "client-a") "old-refresh"
     (world_refresh [("refresh_token", JString "rotated")])).1
  = inl {| AccessToken := "new-access-token"; RefreshToken := "rotated";
           TokenType := "Bearer"; ExpiresAt := 1700010800000000000;
           ClientID := "client-a" |}.
Proof. vm_compute. done. Qed.

Example refresh_keeps_old_token :
  let r := refreshAccessToken (test_cfg "client-a") "old-refresh" (world_refresh []) in
  r.1 = inl {| AccessToken := "new-access-token"; RefreshToken := "old-refresh";
               TokenType := "Bearer"; ExpiresAt := 1700010800000000000;
               ClientID := "client-a" |} ∧
  (loadTokens (test_cfg "client-a") r.2).1
  = inl (Some {| AccessToken := "new-access-token"; RefreshToken := "old-refresh";
                 TokenType := "Bearer"; ExpiresAt := 1700010800000000000;
                 ClientID := "client-a" |}).
Proof. vm_compute. done. Qed.


(** ** The callback listener *)

Section CallbackProperties.
Import Callback.
Variable exchangeFn : string → option TokenStorage * option string.
Variable expectedState : string.

Abbreviation step := (Callback.step exchangeFn expectedState).
Abbreviation step_handler := (Callback.step_handler exchangeFn expectedState).
Abbreviation exec := (Callback.exec exchangeFn expectedState).
Abbreviation run := (Callback.run exchangeFn expectedState).
Abbreviation classify := (Callback.classify expectedState).

(** A goroutine is inside the function of [once.Do] ... *)
Definition in_send (p : PC) : bool :=
  match p with SendChan _ | SendLeave => true | _ => false end.

(** ... or inside the function of [exchangeOnce.Do]. *)
Definition in_exchange (p : PC) : bool :=
  match p with ExchangeRun _ | ExchangeLeave => true | _ => false end.

(** The handler has written its page. *)
Definition page_due (p : PC) : bool :=
  match p with
  | SendEnter _ | SendChan _ | SendLeave | Returned => true
  | _ => false
  end.

Definition has_sent (p : PC) : nat :=
  match p with SendLeave => 1 | _ => 0 end.

Record Inv (requests : list Values) (s : State) : Prop := {
  inv_queries : query <$> handlers s = requests;
  inv_send_owner : ∀ i h, handlers s !! i = Some h →
    (in_send (pc h) = true ↔ once s = Running i);
  inv_send_alive : ∀ i, once s = Running i → is_Some (handlers s !! i);
  inv_exchange_owner : ∀ i h, handlers s !! i = Some h →
    (in_exchange (pc h) = true ↔ exchangeOnce s = Running i);
  inv_exchange_alive : ∀ i, exchangeOnce s = Running i → is_Some (handlers s !! i);
  inv_sent_fresh : once s = Fresh → sent s = [];
  inv_sent_running : ∀ i h, once s = Running i → handlers s !! i = Some h →
    length (sent s) = has_sent (pc h);
  inv_sent_finished : once s = Finished → length (sent s) = 1%nat;
  inv_calls : length (exchangeCalls s)
              = match exchangeOnce s with Fresh => 0%nat | _ => 1%nat end;
  inv_chan : match caller s with
             | Got r => sent s = [r] ∧ resultCh s = []
             | _ => resultCh s = sent s
             end;
  inv_page : ∀ i h, handlers s !! i = Some h →
    page_due (pc h) = true → is_Some (page h);
  inv_code : ∀ i h c, handlers s !! i = Some h →
    pc h = ExchangeEnter c ∨ pc h = ExchangeRun c →
    classify (query h) = RunExchange c;
  inv_call_code : ∀ i c, (i, c) ∈ exchangeCalls s →
    ∃ h, handlers s !! i = Some h ∧ classify (query h) = RunExchange c;
}.

Lemma Inv_init requests : Inv requests (init requests).
Proof.
  assert (Hall : ∀ i h, handlers (init requests) !! i = Some h →
                        pc h = Start ∧ page h = None).
  { intros i h. unfold init. cbn [handlers]. rewrite list_lookup_fmap.
    destruct (requests !! i); simpl; [|done]. by intros [= <-]. }
  split; cbn [init once exchangeOnce sent exchangeCalls caller resultCh]; try done.
  - unfold init. cbn [handlers]. rewrite <- list_fmap_compose.
    by rewrite list_fmap_id.
  - intros i h [Hpc _]%Hall. by rewrite Hpc.
  - intros i h [Hpc _]%Hall. by rewrite Hpc.
  - intros i h [Hpc _]%Hall. by rewrite Hpc.
  - intros i h c [Hpc _]%Hall. rewrite Hpc. by intros [|].
  - intros i c Hin. by apply elem_of_nil in Hin.
Qed.

(** Looking up handler [j] after handler [i] has moved. *)
Lemma lookup_moved (hs : list Handler) i h h' j hj :
  hs !! i = Some h →
  <[i := h']> hs !! j = Some hj →
  (j = i ∧ hj = h') ∨ (j ≠ i ∧ hs !! j = Some hj).
Proof.
  intros Hi Hj. destruct (decide (j = i)) as [->|Hne].
  - rewrite list_lookup_insert_eq in Hj by (by eapply lookup_lt_Some).
    left. by simplify_eq.
  - rewrite list_lookup_insert_ne in Hj by done. by right.
Qed.

Lemma lookup_moved_alive (hs : list Handler) i h' j :
  is_Some (hs !! j) → is_Some (<[i := h']> hs !! j).
Proof.
  intros Hj. apply lookup_lt_is_Some. rewrite length_insert.
  by apply lookup_lt_is_Some.
Qed.

Lemma queries_moved (hs : list Handler) i h h' :
  hs !! i = Some h → query h' = query h →
  query <$> <[i := h']> hs = query <$> hs.
Proof.
  intros Hi Hq. rewrite list_fmap_insert, Hq.
  apply list_insert_id. by rewrite list_lookup_fmap, Hi.
Qed.

Ltac moved :=
  repeat match goal with
  | Hi : ?hs !! ?i = Some ?h, Hj : <[?i := ?h']> ?hs !! ?j = Some ?hj |- _ =>
      destruct (lookup_moved hs i h h' j hj Hi Hj) as [[-> ->]|[? ?]]; clear Hj
  end.

(** How one move of a handler changes the state. *)
Ltac step_cases Hstep :=
  unfold Callback.step_handler in Hstep;
  repeat case_match; simplify_eq;
  cbn [handlers once exchangeOnce sent exchangeCalls caller resultCh
       exchangeStorage exchangeErr set_handler write_page goto
       pc page query in_send in_exchange page_due has_sent] in *.

Lemma step_handler_shape i h s s' :
  step_handler i h s = Some s' →
  ∃ h', handlers s' = <[i := h']> (handlers s) ∧ query h' = query h ∧
        caller s' = caller s.
Proof. intros Hstep. step_cases Hstep; eexists; done. Qed.

Lemma step_handler_queries requests i h s s' :
  Inv requests s → handlers s !! i = Some h →
  step_handler i h s = Some s' → query <$> handlers s' = requests.
Proof.
  intros [Hq _ _ _ _ _ _ _ _ _ _ _ _] Hh Hstep.
  destruct (step_handler_shape _ _ _ _ Hstep) as (h' & -> & Hqh & _).
  by rewrite (queries_moved _ _ h).
Qed.

Lemma owner_moved (crit : PC → bool) (o o' : Once) (hs : list Handler) i h h' :
  hs !! i = Some h →
  (∀ j hj, hs !! j = Some hj → (crit (pc hj) = true ↔ o = Running j)) →
  (crit (pc h') = true ↔ o' = Running i) →
  (∀ j, j ≠ i → (o' = Running j ↔ o = Running j)) →
  ∀ j hj, <[i := h']> hs !! j = Some hj → (crit (pc hj) = true ↔ o' = Running j).
Proof.
  intros Hi Hold Hnew Hother j hj Hj. moved; [done|].
  rewrite Hother by done. by apply Hold.
Qed.

Lemma alive_moved (o o' : Once) (hs : list Handler) i h h' :
  hs !! i = Some h →
  (∀ j, o = Running j → is_Some (hs !! j)) →
  (∀ j, o' = Running j → j = i ∨ o = Running j) →
  ∀ j, o' = Running j → is_Some (<[i := h']> hs !! j).
Proof.
  intros Hi Hold Hnew j Hj. apply lookup_moved_alive.
  destruct (Hnew j Hj) as [->|Ho]; [by eexists|by apply Hold].
Qed.

Ltac once_facts :=
  repeat match goal with
  | H : true = true ↔ ?X |- _ =>
      let H' := fresh "Hown" in
      assert (H' : X) by (by apply H); clear H; try rewrite H' in *
  | H : false = true ↔ ?X |- _ =>
      let H' := fresh "Hnot" in
      assert (H' : ¬ X) by (by intros ?%H); clear H
  end.

Ltac once_solver :=
  once_facts; intros;
  first [ done
        | split; intros; simplify_eq; eauto; congruence
        | simplify_eq; eauto; congruence
        | naive_solver ].

Lemma step_handler_send_owner requests i h s s' :
  Inv requests s → handlers s !! i = Some h →
  step_handler i h s = Some s' →
  ∀ j hj, handlers s' !! j = Some hj → (in_send (pc hj) = true ↔ once s' = Running j).
Proof.
  intros [_ Hso _ _ _ _ _ _ _ _ _ _ _] Hh Hstep.
  pose proof (Hso i h Hh) as Hi. destruct h as [q p pg].
  step_cases Hstep.
  all: apply (owner_moved in_send _ _ _ i _ _ Hh Hso);
    cbn [pc in_send]; clear Hso Hh.
  all: solve [once_solver].
Qed.

Lemma step_handler_send_alive requests i h s s' :
  Inv requests s → handlers s !! i = Some h →
  step_handler i h s = Some s' →
  ∀ j, once s' = Running j → is_Some (handlers s' !! j).
Proof.
  intros [_ Hso Hsa _ _ _ _ _ _ _ _ _ _] Hh Hstep.
  pose proof (Hso i h Hh) as Hi. destruct h as [q p pg].
  step_cases Hstep.
  all: apply (alive_moved _ _ _ i _ _ Hh Hsa); clear Hso Hsa Hh.
  all: solve [once_solver].
Qed.

Lemma step_handler_exchange_owner requests i h s s' :
  Inv requests s → handlers s !! i = Some h →
  step_handler i h s = Some s' →
  ∀ j hj, handlers s' !! j = Some hj →
    (in_exchange (pc hj) = true ↔ exchangeOnce s' = Running j).
Proof.
  intros [_ _ _ Heo _ _ _ _ _ _ _ _ _] Hh Hstep.
  pose proof (Heo i h Hh) as Hi. destruct h as [q p pg].
  step_cases Hstep.
  all: apply (owner_moved in_exchange _ _ _ i _ _ Hh Heo);
    cbn [pc in_exchange]; clear Heo Hh.
  all: solve [once_solver].
Qed.

Lemma step_handler_exchange_alive requests i h s s' :
  Inv requests s → handlers s !! i = Some h →
  step_handler i h s = Some s' →
  ∀ j, exchangeOnce s' = Running j → is_Some (handlers s' !! j).
Proof.
  intros [_ _ _ Heo Hea _ _ _ _ _ _ _ _] Hh Hstep.
  pose proof (Heo i h Hh) as Hi. destruct h as [q p pg].
  step_cases Hstep.
  all: apply (alive_moved _ _ _ i _ _ Hh Hea); clear Heo Hea Hh.
  all: solve [once_solver].
Qed.

Lemma step_handler_sent_fresh requests i h s s' :
  Inv requests s → handlers s !! i = Some h →
  step_handler i h s = Some s' →
  once s' = Fresh → sent s' = [].
Proof.
  intros [_ Hso _ _ _ Hsf _ _ _ _ _ _ _] Hh Hstep.
  pose proof (Hso i h Hh) as Hi. destruct h as [q p pg]. clear Hso Hh.
  step_cases Hstep.
  all: solve [once_solver].
Qed.

Lemma step_handler_sent_finished requests i h s s' :
  Inv requests s → handlers s !! i = Some h →
  step_handler i h s = Some s' →
  once s' = Finished → length (sent s') = 1%nat.
Proof.
  intros [_ Hso _ _ _ _ Hsr Hsd _ _ _ _ _] Hh Hstep.
  pose proof (Hso i h Hh) as Hi.
  pose proof (λ Ho, Hsr i h Ho Hh) as Hsr_i. clear Hsr.
  destruct h as [q p pg]. clear Hso Hh.
  step_cases Hstep.
  all: solve [once_solver].
Qed.

Lemma step_handler_sent_running requests i h s s' :
  Inv requests s → handlers s !! i = Some h →
  step_handler i h s = Some s' →
  ∀ j hj, once s' = Running j → handlers s' !! j = Some hj →
    length (sent s') = has_sent (pc hj).
Proof.
  intros [_ Hso _ _ _ Hsf Hsr Hsd _ _ _ _ _] Hh Hstep.
  pose proof (Hso i h Hh) as Hi.
  pose proof (λ Ho, Hsr i h Ho Hh) as Hsr_i.
  destruct h as [q p pg]. clear Hso.
  step_cases Hstep.
  all: intros j hj Ho Hj; moved; cbn [pc has_sent] in *; once_facts; simplify_eq.
  all: try done.
  all: rewrite ?length_app; cbn [length].
  all: try (rewrite Hsr_i by done; done).
  all: try (rewrite Hsf by done; done).
  all: try (by eapply Hsr).
  all: congruence.
Qed.

Lemma step_handler_calls requests i h s s' :
  Inv requests s → handlers s !! i = Some h →
  step_handler i h s = Some s' →
  length (exchangeCalls s')
  = match exchangeOnce s' with Fresh => 0%nat | _ => 1%nat end.
Proof.
  intros [_ _ _ Heo _ _ _ _ Hc _ _ _ _] Hh Hstep.
  pose proof (Heo i h Hh) as Hi. destruct h as [q p pg]. clear Heo Hh.
  step_cases Hstep; once_facts; rewrite ?length_app; cbn [length];
    try rewrite Hc; try done.
  all: try (destruct (exchangeOnce s); done).
Qed.

Lemma step_handler_chan requests i h s s' :
  Inv requests s → handlers s !! i = Some h →
  step_handler i h s = Some s' →
  match caller s' with
  | Got r => sent s' = [r] ∧ resultCh s' = []
  | _ => resultCh s' = sent s'
  end.
Proof.
  intros [_ Hso _ _ _ _ Hsr _ _ Hch _ _ _] Hh Hstep.
  pose proof (Hso i h Hh) as Hi.
  pose proof (λ Ho, Hsr i h Ho Hh) as Hsr_i. clear Hsr.
  destruct h as [q p pg]. clear Hso Hh.
  step_cases Hstep; try done; try congruence.
  all: once_facts; specialize (Hsr_i eq_refl); cbn in Hsr_i.
  all: try (by rewrite Hch).
  all: destruct Hch as [Hs _]; by rewrite Hs in Hsr_i.
Qed.

Lemma step_handler_page requests i h s s' :
  Inv requests s → handlers s !! i = Some h →
  step_handler i h s = Some s' →
  ∀ j hj, handlers s' !! j = Some hj → page_due (pc hj) = true → is_Some (page hj).
Proof.
  intros [_ _ _ _ _ _ _ _ _ _ Hp _ _] Hh Hstep.
  pose proof (Hp i h Hh) as Hi. destruct h as [q p pg].
  step_cases Hstep.
  all: intros j hj Hj; moved; cbn [pc page page_due] in *; eauto.
Qed.

Lemma step_handler_code requests i h s s' :
  Inv requests s → handlers s !! i = Some h →
  step_handler i h s = Some s' →
  ∀ j hj c, handlers s' !! j = Some hj →
    pc hj = ExchangeEnter c ∨ pc hj = ExchangeRun c →
    classify (query hj) = RunExchange c.
Proof.
  intros [_ _ _ _ _ _ _ _ _ _ _ Hcode _] Hh Hstep.
  pose proof (λ c, Hcode i h c Hh) as Hi. destruct h as [q p pg].
  step_cases Hstep.
  all: intros j hj c Hj; moved; cbn [pc query goto write_page] in *; eauto.
  all: intros [?|?]; simplify_eq; eauto.
Qed.

Lemma step_handler_call_code requests i h s s' :
  Inv requests s → handlers s !! i = Some h →
  step_handler i h s = Some s' →
  ∀ j c, (j, c) ∈ exchangeCalls s' →
    ∃ hj, handlers s' !! j = Some hj ∧ classify (query hj) = RunExchange c.
Proof.
  intros [_ _ _ _ _ _ _ _ _ _ _ Hcode Hcc] Hh Hstep.
  pose proof (λ c, Hcode i h c Hh) as Hi.
  assert (Hkeep : ∀ h' j c, query h' = query h →
    (j, c) ∈ exchangeCalls s →
    ∃ hj, <[i := h']> (handlers s) !! j = Some hj ∧
          classify (query hj) = RunExchange c).
  { intros h' j c Hq Hin. destruct (Hcc j c Hin) as (hj & Hj & Hcl).
    destruct (decide (j = i)) as [->|Hne].
    - exists h'. rewrite list_lookup_insert_eq by (by eapply lookup_lt_Some).
      split; [done|]. rewrite Hq. by simplify_eq.
    - exists hj. by rewrite list_lookup_insert_ne. }
  clear Hcc Hcode. destruct h as [q p pg].
  step_cases Hstep.
  all: intros j c Hin; try (by apply Hkeep).
  apply elem_of_app in Hin as [Hin|Hin]; [by apply Hkeep|].
  apply list_elem_of_singleton in Hin. simplify_eq.
  eexists. rewrite list_lookup_insert_eq by (by eapply lookup_lt_Some).
  split; [done|]. cbn [query]. apply Hi. by left.
Qed.

Lemma step_handler_Inv requests i h s s' :
  Inv requests s → handlers s !! i = Some h →
  step_handler i h s = Some s' → Inv requests s'.
Proof.
  intros HI Hh Hstep. split.
  - by eapply step_handler_queries.
  - by eapply step_handler_send_owner.
  - by eapply step_handler_send_alive.
  - by eapply step_handler_exchange_owner.
  - by eapply step_handler_exchange_alive.
  - by eapply step_handler_sent_fresh.
  - intros j hj. by eapply step_handler_sent_running.
  - by eapply step_handler_sent_finished.
  - by eapply step_handler_calls.
  - by eapply step_handler_chan.
  - by eapply step_handler_page.
  - by eapply step_handler_code.
  - by eapply step_handler_call_code.
Qed.

(** At most one value is ever sent on the result channel. *)
Lemma Inv_sent_le_1 requests s : Inv requests s → (length (sent s) <= 1)%nat.
Proof.
  intros [_ _ Hsa _ _ Hsf Hsr Hsd _ _ _ _ _].
  destruct (once s) as [|i|] eqn:Ho.
  - rewrite Hsf by done. simpl. lia.
  - destruct (Hsa i eq_refl) as [h Hh]. rewrite (Hsr i h eq_refl Hh).
    destruct (pc h); simpl; lia.
  - rewrite Hsd by done. lia.
Qed.

Lemma step_caller_Inv requests m s s' :
  (∀ i, m ≠ Run i) → Inv requests s → step m s = Some s' → Inv requests s'.
Proof.
  intros Hm HI Hstep. pose proof (Inv_sent_le_1 _ _ HI) as Hle.
  destruct HI as [Hq Hso Hsa Heo Hea Hsf Hsr Hsd Hc Hch Hp Hcode Hcc].
  destruct m as [i| | |]; [by destruct (Hm i)| | |]; cbn [Callback.step] in Hstep.
  all: destruct (caller s) eqn:Hcaller; try done.
  all: try (destruct (resultCh s) as [|r rest] eqn:Hres; [done|]).
  all: simplify_eq; split;
    cbn [handlers once exchangeOnce sent exchangeCalls caller resultCh set_caller];
    try done.
  rewrite <- Hch in *. cbn [length] in Hle.
  destruct rest; [done|]. simpl in Hle. lia.
Qed.

Lemma step_Inv requests m s s' :
  Inv requests s → step m s = Some s' → Inv requests s'.
Proof.
  intros HI Hstep. destruct m as [i| | |];
    try (eapply step_caller_Inv; [|done..]; by intros).
  cbn [Callback.step] in Hstep.
  destruct (handlers s !! i) as [h|] eqn:Hh; [|done].
  by eapply step_handler_Inv.
Qed.

Lemma exec_Inv requests m s : Inv requests s → Inv requests (exec s m).
Proof.
  intros HI. unfold Callback.exec.
  destruct (step m s) as [s'|] eqn:Hstep; [|done]. by eapply step_Inv.
Qed.

Lemma run_Inv_from requests schedule s :
  Inv requests s → Inv requests (run schedule s).
Proof.
  revert s. induction schedule as [|m rest IH]; intros s HI; [done|].
  cbn [Callback.run foldl]. apply IH. by apply exec_Inv.
Qed.

Lemma run_Inv requests schedule :
  Inv requests (run schedule (init requests)).
Proof. apply run_Inv_from, Inv_init. Qed.

(** The channel has room whenever a goroutine stands at the send. *)
Lemma Inv_chan_room requests s i h r :
  Inv requests s → handlers s !! i = Some h → pc h = SendChan r →
  resultCh s = [].
Proof.
  intros [_ Hso _ _ _ _ Hsr _ _ Hch _ _ _] Hh Hpc.
  assert (once s = Running i) as Ho by (apply (Hso i h Hh); by rewrite Hpc).
  pose proof (Hsr i h Ho Hh) as Hlen. rewrite Hpc in Hlen. cbn in Hlen.
  destruct (sent s) eqn:Hs; [|done].
  destruct (caller s); by destruct_and?.
Qed.

(** The goroutine inside [once.Do] or [exchangeOnce.Do] can always move. *)
Lemma owner_enabled requests s j hj :
  Inv requests s → handlers s !! j = Some hj →
  in_send (pc hj) = true ∨ in_exchange (pc hj) = true →
  is_Some (step (Run j) s).
Proof.
  intros HI Hj Hin. cbn [Callback.step]. rewrite Hj.
  unfold Callback.step_handler.
  destruct (pc hj) eqn:Hpc; cbn in Hin; try (by destruct Hin); try by eexists.
  rewrite (Inv_chan_room _ _ _ _ _ HI Hj Hpc). cbn. by eexists.
Qed.

(** A handler that has not returned can move, or waits in [Do] for the one
    goroutine that runs the function, and that goroutine can move. *)
Lemma handler_progress requests s i h :
  Inv requests s → handlers s !! i = Some h → pc h ≠ Returned →
  is_Some (step (Run i) s) ∨
  ∃ j hj, j ≠ i ∧ handlers s !! j = Some hj ∧
          (once s = Running j ∨ exchangeOnce s = Running j) ∧
          is_Some (step (Run j) s).
Proof.
  intros HI Hh Hpc.
  pose proof HI as [_ Hso Hsa Heo Hea _ _ _ _ _ _ _ _].
  assert (Hwait : ∀ j, once s = Running j ∨ exchangeOnce s = Running j →
            in_send (pc h) = false → in_exchange (pc h) = false →
            ∃ j hj, j ≠ i ∧ handlers s !! j = Some hj ∧
              (once s = Running j ∨ exchangeOnce s = Running j) ∧
              is_Some (step (Run j) s)).
  { intros j Hrun Hns Hne.
    assert (is_Some (handlers s !! j)) as [hj Hj] by (destruct Hrun; eauto).
    exists j, hj. split.
    { intros ->. simplify_eq. destruct Hrun as [Ho|Ho].
      - apply (Hso i h Hh) in Ho. congruence.
      - apply (Heo i h Hh) in Ho. congruence. }
    split; [done|]. split; [done|].
    eapply owner_enabled; [done..|].
    destruct Hrun as [Ho|Ho]; [left; by apply (Hso j hj Hj)|right; by apply (Heo j hj Hj)]. }
  assert (Hrun : step (Run i) s = step_handler i h s)
    by (cbn [Callback.step]; by rewrite Hh).
  destruct (pc h) eqn:Hp; try done.
  all: try (left; eapply owner_enabled; [done..|]; rewrite Hp; cbn; by eauto).
  - left. rewrite Hrun. unfold Callback.step_handler. rewrite Hp.
    destruct (Callback.classify _ _); by eexists.
  - destruct (exchangeOnce s) as [|j|] eqn:Ho.
    + left. rewrite Hrun. unfold Callback.step_handler. rewrite Hp, Ho. by eexists.
    + right. apply (Hwait j); by eauto.
    + left. rewrite Hrun. unfold Callback.step_handler. rewrite Hp, Ho. by eexists.
  - left. rewrite Hrun. unfold Callback.step_handler. rewrite Hp. by eexists.
  - destruct (once s) as [|j|] eqn:Ho.
    + left. rewrite Hrun. unfold Callback.step_handler. rewrite Hp, Ho. by eexists.
    + right. apply (Hwait j); by eauto.
    + left. rewrite Hrun. unfold Callback.step_handler. rewrite Hp, Ho. by eexists.
Qed.

(** *** Every handler returns *)

(** The number of moves a handler has left at most. *)
Definition rank (p : PC) : nat :=
  match p with
  | Start => 8
  | ExchangeEnter _ => 7
  | ExchangeRun _ => 6
  | ExchangeLeave => 5
  | ExchangeDone => 4
  | SendEnter _ => 3
  | SendChan _ => 2
  | SendLeave => 1
  | Returned => 0
  end.

Definition weight (s : State) : nat :=
  sum_list ((λ h, rank (pc h)) <$> handlers s).

(** The moves of handler goroutines that a schedule really makes. *)
Fixpoint handler_moves (schedule : list Move) (s : State) : nat :=
  match schedule with
  | [] => 0
  | m :: rest =>
      match step m s with
      | Some s' =>
          (match m with Run _ => 1 | _ => 0 end + handler_moves rest s')%nat
      | None => handler_moves rest s
      end
  end.

Lemma sum_list_moved (f : Handler → nat) (hs : list Handler) i h h' :
  hs !! i = Some h →
  (sum_list (f <$> <[i := h']> hs) + f h = sum_list (f <$> hs) + f h')%nat.
Proof.
  revert i. induction hs as [|x hs IH]; intros [|i] Hi; try done.
  - csimpl in *. simplify_eq. lia.
  - csimpl in *. specialize (IH i Hi). lia.
Qed.

Lemma step_handler_rank i h s s' :
  step_handler i h s = Some s' →
  ∃ h', handlers s' = <[i := h']> (handlers s) ∧ (rank (pc h') < rank (pc h))%nat.
Proof.
  intros Hstep. destruct h as [q p pg].
  step_cases Hstep; subst; eexists; (split; [reflexivity|]); cbn; lia.
Qed.

Lemma step_weight m s s' :
  step m s = Some s' →
  (weight s' + match m with Run _ => 1 | _ => 0 end <= weight s)%nat.
Proof.
  destruct m as [i| | |]; cbn [Callback.step]; intros Hstep.
  - destruct (handlers s !! i) as [h|] eqn:Hh; [|done].
    destruct (step_handler_rank _ _ _ _ Hstep) as (h' & Hs' & Hlt).
    unfold weight. rewrite Hs'.
    pose proof (sum_list_moved (λ h, rank (pc h)) _ i h h' Hh). simpl in *. lia.
  - repeat case_match; simplify_eq; unfold weight; cbn; lia.
  - repeat case_match; simplify_eq; unfold weight; cbn; lia.
  - repeat case_match; simplify_eq; unfold weight; cbn; lia.
Qed.

Lemma handler_moves_bound schedule s :
  (handler_moves schedule s + weight (run schedule s) <= weight s)%nat.
Proof.
  revert s. induction schedule as [|m rest IH]; intros s; [simpl; lia|].
  change (run (m :: rest) s) with (run rest (exec s m)).
  cbn [handler_moves]. specialize (IH (exec s m)). revert IH.
  unfold Callback.exec at 1 3.
  destruct (step m s) as [s'|] eqn:Hstep; cbn [default]; intros IH; [|done].
  pose proof (step_weight _ _ _ Hstep). unfold id in IH. destruct m; lia.
Qed.

Lemma weight_init requests : weight (init requests) = (8 * length requests)%nat.
Proof.
  unfold weight, init. cbn [handlers]. rewrite <- list_fmap_compose.
  induction requests as [|q rest IH]; [done|]. cbn in *. rewrite IH. lia.
Qed.

(** When no handler goroutine can move, every handler has returned, and a
    handler that has returned has written its page. *)
Lemma quiescent_all_returned requests s :
  Inv requests s → (∀ i, step (Run i) s = None) →
  ∀ i h, handlers s !! i = Some h → pc h = Returned ∧ is_Some (page h).
Proof.
  intros HI Hq i h Hh.
  assert (pc h = Returned ∨ pc h ≠ Returned) as [Hp|Hp]
    by (destruct (pc h); (by left) || (by right)).
  - split; [done|]. apply (inv_page _ _ HI i h Hh). by rewrite Hp.
  - destruct (handler_progress _ _ _ _ HI Hh Hp) as [[s' Hs]|(j & hj & _ & _ & _ & [s' Hs])].
    + by rewrite Hq in Hs.
    + by rewrite Hq in Hs.
Qed.

(** A sendResult that comes after the result was sent returns at once and
    sends nothing. *)
Lemma sendResult_discarded s i h r :
  handlers s !! i = Some h → pc h = SendEnter r → once s = Finished →
  step (Run i) s = Some (set_handler i (goto h Returned) s).
Proof.
  intros Hh Hpc Ho. cbn [Callback.step]. rewrite Hh.
  unfold Callback.step_handler. by rewrite Hpc, Ho.
Qed.

Lemma Inv_calls_le_1 requests s :
  Inv requests s → (length (exchangeCalls s) <= 1)%nat.
Proof. intros HI. rewrite (inv_calls _ _ HI). destruct (exchangeOnce s); lia. Qed.

Lemma Inv_got requests s r : Inv requests s → caller s = Got r → sent s = [r].
Proof. intros HI Hc. pose proof (inv_chan _ _ HI) as H. rewrite Hc in H. tauto. Qed.

Lemma Inv_handlers_length requests s :
  Inv requests s → length (handlers s) = length requests.
Proof. intros HI. by rewrite <- (inv_queries _ _ HI), length_fmap. Qed.

Lemma returned_or_not (hs : list Handler) :
  (∀ i h, hs !! i = Some h → pc h = Returned) ∨
  (∃ i h, hs !! i = Some h ∧ pc h ≠ Returned).
Proof.
  induction hs as [|h hs IH]; [by left|].
  assert (pc h = Returned ∨ pc h ≠ Returned) as [Hp|Hp]
    by (destruct (pc h); (by left) || (by right)).
  - destruct IH as [IH|(i & hi & Hi & Hn)].
    + left. intros [|i] hi Hi; simplify_eq/=; eauto.
    + right. by exists (S i), hi.
  - right. by exists 0%nat, h.
Qed.

(** The handlers need no help from the caller: from any state of the
    invariant, handler moves alone bring every handler to its return. *)
Lemma handlers_can_finish requests n s :
  Inv requests s → (weight s <= n)%nat →
  ∃ rest, (∀ m, m ∈ rest → ∃ i, m = Run i) ∧
          ∀ i h, handlers (run rest s) !! i = Some h →
                 pc h = Returned ∧ is_Some (page h).
Proof.
  revert s. induction n as [|n IH]; intros s HI Hw.
  all: destruct (returned_or_not (handlers s)) as [Hall|(i & h & Hh & Hp)].
  all: try (exists []; split; [by intros m ?%elem_of_nil|]; intros i h Hh;
            split; [by eapply Hall|];
            apply (inv_page _ _ HI i h Hh); by erewrite Hall).
  all: assert (∃ j s', step (Run j) s = Some s') as (j & s' & Hs)
    by (destruct (handler_progress _ _ _ _ HI Hh Hp)
          as [[s' Hs]|(j & hj & _ & _ & _ & [s' Hs])]; eauto).
  all: pose proof (step_weight _ _ _ Hs) as Hd; cbn in Hd.
  - lia.
  - destruct (IH s') as (rest & Hruns & Hdone); [by eapply step_Inv|lia|].
    exists (Run j :: rest). split.
    + intros m [->|?]%elem_of_cons; eauto.
    + change (run (Run j :: rest) s) with (run rest (exec s (Run j))).
      unfold Callback.exec at 1. by rewrite Hs.
Qed.

Lemma run_app schedule rest s :
  run (schedule ++ rest) s = run rest (run schedule s).
Proof. apply foldl_app. Qed.

(** C1. Take any number of requests to /callback and any schedule of the
    handler goroutines and of the waiting caller.  In the state reached:
    at most one value has been sent on the result channel, and what the
    caller received is that value; exchangeFn has been called at most
    once; a handler that calls sendResult after the result was sent
    returns at once, sending nothing; a handler that has not returned can
    move, or waits in Once.Do for the one goroutine that runs the function
    there, which can move (so the channel send never blocks); the handler
    moves of the whole schedule number at most 8 per request; once no
    handler can move, every handler has returned and has written its
    page; and whatever the caller does, handler moves alone can continue
    the schedule to such a state. *)
Theorem startCallbackServer_single_delivery requests schedule :
  let s := run schedule (init requests) in
  (length (sent s) <= 1)%nat ∧
  (∀ r, caller s = Got r → sent s = [r]) ∧
  (length (exchangeCalls s) <= 1)%nat ∧
  (∀ i h r, handlers s !! i = Some h → pc h = SendEnter r → once s = Finished →
     step (Run i) s = Some (set_handler i (goto h Returned) s)) ∧
  (∀ i h, handlers s !! i = Some h → pc h ≠ Returned →
     is_Some (step (Run i) s) ∨
     ∃ j hj, j ≠ i ∧ handlers s !! j = Some hj ∧
             (once s = Running j ∨ exchangeOnce s = Running j) ∧
             is_Some (step (Run j) s)) ∧
  (handler_moves schedule (init requests) <= 8 * length requests)%nat ∧
  length (handlers s) = length requests ∧
  ((∀ i, step (Run i) s = None) →
   ∀ i h, handlers s !! i = Some h → pc h = Returned ∧ is_Some (page h)) ∧
  (∃ rest, (∀ m, m ∈ rest → ∃ i, m = Run i) ∧
     ∀ i h, handlers (run (schedule ++ rest) (init requests)) !! i = Some h →
            pc h = Returned ∧ is_Some (page h)).
Proof.
  intros s. pose proof (run_Inv requests schedule) as HI. fold s in HI.
  split; [by eapply Inv_sent_le_1|].
  split; [intros r; by eapply Inv_got|].
  split; [by eapply Inv_calls_le_1|].
  split; [intros i h r; apply sendResult_discarded|].
  split; [intros i h; by eapply handler_progress|].
  split.
  { pose proof (handler_moves_bound schedule (init requests)) as Hb.
    rewrite weight_init in Hb. lia. }
  split; [by eapply Inv_handlers_length|].
  split; [by eapply quiescent_all_returned|].
  destruct (handlers_can_finish requests (weight s) s HI) as (rest & ? & ?);
    [done|].
  exists rest. by rewrite run_app.
Qed.

(** A call of exchangeFn was made by a request that passed the three
    checks, with that request's code. *)
Lemma exchange_called_for requests schedule i c q :
  requests !! i = Some q →
  (i, c) ∈ exchangeCalls (run schedule (init requests)) →
  classify q = RunExchange c.
Proof.
  intros Hq Hin. pose proof (run_Inv requests schedule) as HI.
  destruct (inv_call_code _ _ HI i c Hin) as (h & Hh & Hcl).
  pose proof (inv_queries _ _ HI) as Hqs.
  apply (f_equal (λ l, l !! i)) in Hqs. rewrite list_lookup_fmap, Hh, Hq in Hqs.
  by simplify_eq/=.
Qed.

(** The request that gets to [exchangeOnce.Do] first calls exchangeFn with
    its code. *)
Lemma exchange_first_call s i h c :
  handlers s !! i = Some h → pc h = ExchangeEnter c → exchangeOnce s = Fresh →
  exchangeCalls (exec s (Run i)) = exchangeCalls s ++ [(i, c)].
Proof.
  intros Hh Hpc Ho. unfold Callback.exec. cbn [Callback.step]. rewrite Hh.
  unfold Callback.step_handler. by rewrite Hpc, Ho.
Qed.

Lemma run_cons m rest s : run (m :: rest) s = run rest (exec s m).
Proof. done. Qed.

(** A request alone: its handler runs to its return and the caller
    receives. *)
Lemma single_request_Finish q p r :
  classify q = Finish p r →
  run (replicate 8 (Run 0%nat) ++ [Receive]) (init [q])
  = {| handlers := [{| query := q; pc := Returned; page := Some p |}];
       once := Finished; resultCh := []; exchangeOnce := Fresh;
       exchangeStorage := None; exchangeErr := None; caller := Got r;
       exchangeCalls := []; sent := [r] |}.
Proof.
  intros Hc. unfold Callback.init.
  cbn [replicate app fmap list_fmap].
  rewrite run_cons. unfold Callback.exec at 1.
  cbn [Callback.step Callback.handlers lookup list_lookup].
  unfold Callback.step_handler at 1. cbn [Callback.pc Callback.query].
  rewrite Hc. vm_compute. reflexivity.
Qed.

Lemma single_request_RunExchange q code :
  classify q = RunExchange code →
  run (replicate 8 (Run 0%nat) ++ [Receive]) (init [q])
  = let pr := after_exchange (exchangeFn code).1 (exchangeFn code).2 in
    {| handlers := [{| query := q; pc := Returned; page := Some pr.1 |}];
       once := Finished; resultCh := []; exchangeOnce := Finished;
       exchangeStorage := (exchangeFn code).1; exchangeErr := (exchangeFn code).2;
       caller := Got pr.2;
       exchangeCalls := [(0%nat, code)]; sent := [pr.2] |}.
Proof.
  intros Hc. unfold Callback.init.
  cbn [replicate app fmap list_fmap].
  rewrite run_cons. unfold Callback.exec at 1.
  cbn [Callback.step Callback.handlers lookup list_lookup].
  unfold Callback.step_handler at 1. cbn [Callback.pc Callback.query].
  rewrite Hc. lazy -[Callback.after_exchange]. reflexivity.
Qed.

(** Whoever has called exchangeFn has left the start of its handler. *)
Definition callers_started (s : State) : Prop :=
  ∀ i c, (i, c) ∈ exchangeCalls s → ∃ h, handlers s !! i = Some h ∧ pc h ≠ Start.

Lemma step_callers_started m s s' :
  callers_started s → step m s = Some s' → callers_started s'.
Proof.
  intros HP Hstep. destruct m as [j| | |]; cbn [Callback.step] in Hstep.
  2-4: destruct (caller s); try done; try (destruct (resultCh s); [done|]);
       simplify_eq; exact HP.
  destruct (handlers s !! j) as [hj|] eqn:Hj; [|done].
  assert (Hshape : ∃ h', handlers s' = <[j := h']> (handlers s) ∧ pc h' ≠ Start ∧
            (exchangeCalls s' = exchangeCalls s ∨
             ∃ c, exchangeCalls s' = exchangeCalls s ++ [(j, c)])).
  { unfold Callback.step_handler in Hstep.
    repeat case_match; simplify_eq; cbn; eexists; (split; [reflexivity|]);
      (split; [cbn; congruence|]); eauto. }
  destruct Hshape as (h' & Hhs & Hpc & Hcalls).
  assert (Hj' : handlers s' !! j = Some h').
  { rewrite Hhs. apply list_lookup_insert_eq. by eapply lookup_lt_Some. }
  intros i c Hin.
  assert (Hcase : (i, c) ∈ exchangeCalls s ∨ i = j).
  { destruct Hcalls as [Heq|(c' & Heq)]; rewrite Heq in Hin; [by left|].
    apply elem_of_app in Hin as [Hin|Hin]; [by left|].
    apply list_elem_of_singleton in Hin. simplify_eq. by right. }
  destruct (decide (i = j)) as [->|Hne]; [by exists h'|].
  destruct Hcase as [Hold|?]; [|done].
  destruct (HP i c Hold) as (h & Hh & Hp). exists h. split; [|done].
  rewrite Hhs. by rewrite list_lookup_insert_ne.
Qed.

Lemma run_callers_started requests schedule :
  callers_started (run schedule (init requests)).
Proof.
  assert (Hgen : ∀ s, callers_started s → callers_started (run schedule s)).
  { induction schedule as [|m rest IH]; intros s HP; [done|].
    rewrite run_cons. apply IH. unfold Callback.exec.
    destruct (step m s) as [s'|] eqn:Hstep; [|done].
    by eapply step_callers_started. }
  apply Hgen. intros i c Hin. by apply elem_of_nil in Hin.
Qed.

Lemma exec_Run s i h :
  handlers s !! i = Some h → exec s (Run i) = default s (step_handler i h s).
Proof. intros Hh. unfold Callback.exec. cbn [Callback.step]. by rewrite Hh. Qed.

Lemma classify_code q c : classify q = RunExchange c → c = Get q "code".
Proof. unfold Callback.classify. repeat case_decide; congruence. Qed.

(** A request that passed the checks, from the start of its handler: the
    first to get there calls exchangeFn with its code; a later one finds
    the call made on behalf of another such request and makes none. *)
Lemma passing_request_exchange requests schedule i h q :
  requests !! i = Some q → classify q = RunExchange (Get q "code") →
  handlers (run schedule (init requests)) !! i = Some h → pc h = Start →
  let s := run schedule (init requests) in
  let s' := run [Run i; Run i; Run i] s in
  match exchangeOnce s with
  | Fresh =>
      exchangeCalls s = [] ∧ exchangeCalls s' = [(i, Get q "code")] ∧
      exchangeStorage s' = (exchangeFn (Get q "code")).1 ∧
      exchangeErr s' = (exchangeFn (Get q "code")).2
  | _ =>
      ∃ j qj, j ≠ i ∧ requests !! j = Some qj ∧
              classify qj = RunExchange (Get qj "code") ∧
              exchangeCalls s = [(j, Get qj "code")] ∧
              exchangeCalls s' = exchangeCalls s
  end.
Proof.
  intros Hq Hcl Hh Hpc. cbn zeta.
  pose proof (run_Inv requests schedule) as HI.
  pose proof (run_callers_started requests schedule) as HP.
  set (s := run schedule (init requests)) in *.
  assert (Hqh : query h = q).
  { pose proof (inv_queries _ _ HI) as Hqs.
    apply (f_equal (λ l, l !! i)) in Hqs.
    rewrite list_lookup_fmap, Hh, Hq in Hqs. by simplify_eq/=. }
  assert (Hlt : (i < length (handlers s))%nat) by by eapply lookup_lt_Some.
  (* the first move: to exchangeOnce.Do *)
  set (c := Get q "code") in *.
  set (h1 := goto h (ExchangeEnter c)).
  set (s1 := set_handler i h1 s).
  assert (E1 : exec s (Run i) = s1).
  { rewrite (exec_Run s i h Hh). unfold Callback.step_handler.
    by rewrite Hpc, Hqh, Hcl. }
  assert (Hh1 : handlers s1 !! i = Some h1)
    by (unfold s1; cbn [Callback.set_handler Callback.handlers];
        by apply list_lookup_insert_eq).
  assert (Hlt1 : (i < length (handlers s1))%nat) by by eapply lookup_lt_Some.
  assert (E2 : exec s1 (Run i)
    = match exchangeOnce s with
      | Fresh =>
          {| handlers := <[i := goto h1 (ExchangeRun c)]> (handlers s1);
             once := once s; resultCh := resultCh s;
             exchangeOnce := Running i;
             exchangeStorage := exchangeStorage s;
             exchangeErr := exchangeErr s; caller := caller s;
             exchangeCalls := exchangeCalls s ++ [(i, c)];
             sent := sent s |}
      | Running _ => s1
      | Finished => set_handler i (goto h1 ExchangeDone) s1
      end).
  { rewrite (exec_Run s1 i h1 Hh1). unfold Callback.step_handler.
    change (pc h1) with (ExchangeEnter c).
    change (exchangeOnce s1) with (exchangeOnce s).
    by destruct (exchangeOnce s). }
  rewrite run_cons, E1, run_cons, E2.
  pose proof (inv_calls _ _ HI) as Hlen.
  assert (Hprev : length (exchangeCalls s) = 1%nat →
            ∃ j qj, j ≠ i ∧ requests !! j = Some qj ∧
                    classify qj = RunExchange (Get qj "code") ∧
                    exchangeCalls s = [(j, Get qj "code")]).
  { intros Hone.
    destruct (exchangeCalls s) as [|[j cj] [|? ?]] eqn:Hcalls; try done.
    assert (Hin : (j, cj) ∈ exchangeCalls s)
      by (rewrite Hcalls; apply list_elem_of_singleton; done).
    destruct (inv_call_code _ _ HI j cj Hin) as (hj & Hhj & Hclj).
    destruct (HP j cj Hin) as (hj' & Hhj' & Hpcj).
    pose proof (inv_queries _ _ HI) as Hqs.
    apply (f_equal (λ l, l !! j)) in Hqs. rewrite list_lookup_fmap, Hhj in Hqs.
    pose proof (classify_code _ _ Hclj) as ->.
    exists j, (query hj). split; [|by split].
    intros ->. by simplify_eq. }
  destruct (exchangeOnce s) as [|k|] eqn:Ho.
  - (* nobody has called yet *)
    destruct (exchangeCalls s) as [|? ?] eqn:Hcalls; [|done].
    split; [done|].
    rewrite run_cons. erewrite exec_Run.
    2:{ cbn [Callback.handlers]. by apply list_lookup_insert_eq. }
    unfold Callback.step_handler. by cbn [Callback.goto Callback.pc].
  - (* another request is inside exchangeOnce.Do: this one waits *)
    destruct (Hprev Hlen) as (j & qj & Hji & Hqj & Hclj & Hcalls).
    exists j, qj. do 4 (split; [done|]).
    by rewrite run_cons, E2.
  - (* the exchange is over: this one goes on with its result *)
    destruct (Hprev Hlen) as (j & qj & Hji & Hqj & Hclj & Hcalls).
    exists j, qj. do 4 (split; [done|]).
    rewrite run_cons. erewrite exec_Run.
    2:{ cbn [Callback.set_handler Callback.handlers].
        by apply list_lookup_insert_eq. }
    unfold Callback.step_handler. by cbn [Callback.goto Callback.pc].
Qed.

Lemma Finish_names_error q p r : classify q = Finish p r → Error r ≠ "".
Proof. unfold Callback.classify. repeat case_decide; intros; by simplify_eq. Qed.

(** C2. For every request the handler checks in this order: a non-empty
    error parameter gives the failure with that error and its description;
    otherwise a state other than expectedState gives "state_mismatch";
    otherwise an empty code gives "missing_code"; otherwise the request
    goes on to the exchange with its code.  In every schedule exchangeFn
    is called only on behalf of a request that passed the three checks and
    only with that request's code, so never for a request with an error
    parameter or a wrong state.  A request that is alone, handled to the
    end and received by the caller: when a check fails, exchangeFn has not
    been called, the page and the value sent are those of the check and
    the caller returns that failure; when it passes, exchangeFn has been
    called once, with its code, and the page, the value sent and what the
    caller returns are those of that call.  Among several requests, in
    any state reached, a request that passes and is taken from the start
    of its handler calls exchangeFn with its code and stores what it
    returned if no call has been made yet; otherwise the one call was made
    for another request that passed, with that request's code, and this
    one makes none.  A request that fails a check goes from the start of
    its handler straight to writing the page of the check and to
    sendResult. *)
Theorem callback_classification (q : Values) :
  (Get q "error" ≠ "" →
   classify q
   = Finish (writeCallbackPage false (Get q "error") (Get q "error_description"))
       {| Storage := None; Error := Get q "error";
          Desc := Get q "error_description" |}) ∧
  (Get q "error" = "" → Get q "state" ≠ expectedState →
   classify q
   = Finish (writeCallbackPage false "state_mismatch"
               "State parameter does not match. Possible CSRF attack.")
       {| Storage := None; Error := "state_mismatch";
          Desc := "state parameter mismatch" |}) ∧
  (Get q "error" = "" → Get q "state" = expectedState → Get q "code" = "" →
   classify q
   = Finish (writeCallbackPage false "missing_code"
               "No authorization code in callback.")
       {| Storage := None; Error := "missing_code";
          Desc := "code parameter missing" |}) ∧
  (Get q "error" = "" → Get q "state" = expectedState → Get q "code" ≠ "" →
   classify q = RunExchange (Get q "code")) ∧
  (∀ requests schedule i c,
     requests !! i = Some q →
     (i, c) ∈ exchangeCalls (run schedule (init requests)) →
     classify q = RunExchange c ∧
     Get q "error" = "" ∧ Get q "state" = expectedState ∧ c = Get q "code") ∧
  (∀ s i h,
     handlers s !! i = Some h → query h = q →
     pc h = ExchangeEnter (Get q "code") → exchangeOnce s = Fresh →
     exchangeCalls (exec s (Run i)) = exchangeCalls s ++ [(i, Get q "code")]) ∧
  (let s := run (replicate 8 (Run 0%nat) ++ [Receive]) (init [q]) in
   match classify q with
   | Finish p r =>
       exchangeCalls s = [] ∧
       handlers s = [{| query := q; pc := Returned; page := Some p |}] ∧
       sent s = [r] ∧
       result s = Some (inr (CallbackFailed (Error r) (Desc r)))
   | RunExchange code =>
       let pr := after_exchange (exchangeFn code).1 (exchangeFn code).2 in
       code = Get q "code" ∧
       exchangeCalls s = [(0%nat, code)] ∧
       handlers s = [{| query := q; pc := Returned; page := Some pr.1 |}] ∧
       sent s = [pr.2] ∧
       result s = match (exchangeFn code).2 with
                  | Some msg => Some (inr (CallbackFailed "token_exchange_failed" msg))
                  | None => Some (inl (exchangeFn code).1)
                  end
   end) ∧
  (∀ requests schedule i h,
     requests !! i = Some q → classify q = RunExchange (Get q "code") →
     handlers (run schedule (init requests)) !! i = Some h → pc h = Start →
     let s := run schedule (init requests) in
     let s' := run [Run i; Run i; Run i] s in
     match exchangeOnce s with
     | Fresh =>
         exchangeCalls s = [] ∧ exchangeCalls s' = [(i, Get q "code")] ∧
         exchangeStorage s' = (exchangeFn (Get q "code")).1 ∧
         exchangeErr s' = (exchangeFn (Get q "code")).2
     | _ =>
         ∃ j qj, j ≠ i ∧ requests !! j = Some qj ∧
                 classify qj = RunExchange (Get qj "code") ∧
                 exchangeCalls s = [(j, Get qj "code")] ∧
                 exchangeCalls s' = exchangeCalls s
     end) ∧
  (∀ s i h p r,
     handlers s !! i = Some h → query h = q → pc h = Start →
     classify q = Finish p r →
     exec s (Run i) = set_handler i (write_page h p (SendEnter r)) s).
Proof.
  split; [by unfold Callback.classify; intros; repeat case_decide|].
  split; [by unfold Callback.classify; intros; repeat case_decide|].
  split; [by unfold Callback.classify; intros; repeat case_decide|].
  split; [by unfold Callback.classify; intros; repeat case_decide|].
  split.
  { intros requests schedule i c Hq Hin.
    pose proof (exchange_called_for _ _ _ _ _ Hq Hin) as Hcl.
    split; [done|]. revert Hcl. unfold Callback.classify.
    repeat case_decide; try done. intros [= <-]. by repeat split. }
  split; [intros s i h Hh _; by apply exchange_first_call|].
  split.
  { cbn zeta. destruct (classify q) as [p r|code] eqn:Hc.
    - rewrite (single_request_Finish q p r Hc). unfold Callback.result.
      cbn [Callback.exchangeCalls Callback.handlers Callback.sent Callback.caller].
      do 3 (split; [done|]).
      by rewrite decide_True by by eapply Finish_names_error.
    - rewrite (single_request_RunExchange q code Hc). cbn zeta.
      unfold Callback.result.
      cbn [Callback.exchangeCalls Callback.handlers Callback.sent Callback.caller].
      split; [by apply classify_code|]. do 3 (split; [done|]).
      unfold Callback.after_exchange. by destruct (exchangeFn code).2. }
  split; [intros requests schedule i h; by apply passing_request_exchange|].
  intros s i h p r Hh Hqh Hpc Hc. rewrite (exec_Run s i h Hh).
  unfold Callback.step_handler. by rewrite Hpc, Hqh, Hc.
Qed.
End CallbackProperties.

(** An absent parameter reads as the empty string. *)
Lemma Get_absent (q : Callback.Values) (key : string) :
  key ∉ q.*1 → Callback.Get q key = "".
Proof.
  induction q as [|[k v] q IH]; [done|]. csimpl. intros Hk.
  apply not_elem_of_cons in Hk as [Hne Hk].
  rewrite decide_False by done. by apply IH.
Qed.

(** C10. With expectedState the empty string, a request whose query has no
    error parameter and no state parameter passes the state check: its
    state reads as the empty string, the handler goes on to the code check
    and, when the code is not empty, to the exchange, where the first such
    request calls exchangeFn with its code.  The listener that hands the
    code to the caller does the same, up to the code check.  For any
    expectedState, a request without error is turned away with
    "state_mismatch" exactly when its state differs from expectedState. *)
Theorem callback_empty_expected_state (q : Callback.Values) :
  "error" ∉ q.*1 → "state" ∉ q.*1 →
  Callback.Get q "state" = "" ∧
  Callback.classify "" q
  = (if decide (Callback.Get q "code" = "") then
       Callback.Finish
         (Callback.writeCallbackPage false "missing_code"
            "No authorization code in callback.")
         {| Callback.Storage := None; Callback.Error := "missing_code";
            Callback.Desc := "code parameter missing" |}
     else Callback.RunExchange (Callback.Get q "code")) ∧
  Callback.Legacy.handle "" q
  = (if decide (Callback.Get q "code" = "") then
       (Callback.writeCallbackPage false "missing_code"
          "No authorization code in callback.",
        {| Callback.Legacy.Code := ""; Callback.Legacy.Error := "missing_code";
           Callback.Legacy.Desc := "code parameter missing" |})
     else
       (Callback.writeCallbackPage true "" "",
        {| Callback.Legacy.Code := Callback.Get q "code";
           Callback.Legacy.Error := ""; Callback.Legacy.Desc := "" |})) ∧
  (∀ exchangeFn,
     Callback.Get q "code" ≠ "" →
     Callback.exchangeCalls
       (Callback.run exchangeFn "" [Callback.Run 0%nat; Callback.Run 0%nat]
          (Callback.init [q]))
     = [(0%nat, Callback.Get q "code")]) ∧
  (∀ expectedState q',
     Callback.Get q' "error" = "" →
     (Callback.Get q' "state" ≠ expectedState ↔
      Callback.classify expectedState q'
      = Callback.Finish
          (Callback.writeCallbackPage false "state_mismatch"
             "State parameter does not match. Possible CSRF attack.")
          {| Callback.Storage := None; Callback.Error := "state_mismatch";
             Callback.Desc := "state parameter mismatch" |})).
Proof.
  intros He Hs.
  pose proof (Get_absent q "error" He) as Herr.
  pose proof (Get_absent q "state" Hs) as Hstate.
  assert (Hcl : Callback.classify "" q
    = (if decide (Callback.Get q "code" = "") then
         Callback.Finish
           (Callback.writeCallbackPage false "missing_code"
              "No authorization code in callback.")
           {| Callback.Storage := None; Callback.Error := "missing_code";
              Callback.Desc := "code parameter missing" |}
       else Callback.RunExchange (Callback.Get q "code"))).
  { unfold Callback.classify. rewrite Herr, Hstate. by repeat case_decide. }
  split; [done|]. split; [done|]. split.
  { unfold Callback.Legacy.handle. rewrite Herr, Hstate. by repeat case_decide. }
  split.
  - intros exchangeFn Hcode. rewrite decide_False in Hcl by done.
    unfold Callback.run, Callback.init. cbn [foldl fmap list_fmap].
    unfold Callback.exec at 2. cbn [Callback.step Callback.handlers].
    change ([?h] !! 0%nat) with (Some h). unfold Callback.step_handler at 1.
    cbn [Callback.pc Callback.query]. rewrite Hcl. cbn [default].
    unfold Callback.exec, Callback.step, Callback.set_handler, Callback.goto.
    cbn. reflexivity.
  - intros expectedState q' Herr'. unfold Callback.classify. rewrite Herr'.
    repeat case_decide; naive_solver.
Qed.

Lemma callback_empty_expected_state_witness :
  ("error" ∉ [("code", "abc")].*1) ∧ ("state" ∉ [("code", "abc")].*1) ∧
  Callback.classify "" [("code", "abc")] = Callback.RunExchange "abc".
Proof.
  assert (He : "error" ∉ [("code", "abc")].*1)
    by (apply (bool_decide_unpack _); vm_compute; exact I).
  assert (Hs : "state" ∉ [("code", "abc")].*1)
    by (apply (bool_decide_unpack _); vm_compute; exact I).
  split; [exact He|]. split; [exact Hs|].
  exact (proj1 (proj2 (callback_empty_expected_state _ He Hs))).
Defined.

(** *** Running the listener *)

(** mockExchangeFn of the tests. *)
Definition mock_storage : TokenStorage :=
  {| AccessToken := "mock-access-token"; RefreshToken := "mock-refresh-token";
     TokenType := "Bearer"; ExpiresAt := 3600; ClientID := "" |}.
Definition mockExchangeFn (code : string) : option TokenStorage * option string :=
  (Some mock_storage, None).
Definition failingExchangeFn (code : string) : option TokenStorage * option string :=
  (None, Some "server returned status 400: invalid_grant").

Definition double_callback : list Callback.Values :=
  let q := [("code", "mycode"); ("state", "test-state-double")] in [q; q].

(** What a run leaves behind: what the caller returns, the calls of
    exchangeFn, the values sent, and where each handler stands with which
    page. *)
Definition outcome (s : Callback.State) :=
  (Callback.result s, Callback.exchangeCalls s, length (Callback.sent s),
   (λ h, (Callback.pc h, Callback.page h)) <$> Callback.handlers s).

(** TestCallbackServer_DoubleCallback, the two handlers taking turns. *)
Example double_callback_alternating :
  outcome (Callback.run mockExchangeFn "test-state-double"
             (mjoin (replicate 8 [Callback.Run 0%nat; Callback.Run 1%nat])
              ++ [Callback.Receive])
             (Callback.init double_callback))
  = (Some (inl (Some mock_storage)), [(0%nat, "mycode")], 1%nat,
     [(Callback.Returned, Some Callback.SuccessPage);
      (Callback.Returned, Some Callback.SuccessPage)]).
Proof. vm_compute. reflexivity. Qed.

(** The second request runs the exchange, the first one delivers its
    result, and the caller receives while the second is still at work. *)
Example double_callback_crossed :
  outcome (Callback.run mockExchangeFn "test-state-double"
             ([Callback.Run 1; Callback.Run 0; Callback.Run 1; Callback.Run 0;
               Callback.Run 1; Callback.Run 1; Callback.Run 0; Callback.Run 0;
               Callback.Run 0; Callback.Run 0; Callback.Run 0;
               Callback.Receive;
               Callback.Run 1; Callback.Run 1; Callback.Run 1]%nat)
             (Callback.init double_callback))
  = (Some (inl (Some mock_storage)), [(1%nat, "mycode")], 1%nat,
     [(Callback.Returned, Some Callback.SuccessPage);
      (Callback.Returned, Some Callback.SuccessPage)]).
Proof. vm_compute. reflexivity. Qed.

(** Two requests that both pass the checks, with different codes: the
    one that gets to the exchange first has its code exchanged, the code
    of the other is never handed to exchangeFn, and both show the page of
    the one exchange. *)
Example second_code_not_exchanged :
  outcome (Callback.run mockExchangeFn "test-state-double"
             (mjoin (replicate 8 [Callback.Run 0%nat; Callback.Run 1%nat])
              ++ [Callback.Receive])
             (Callback.init [ [("code", "first"); ("state", "test-state-double")];
                              [("code", "second"); ("state", "test-state-double")] ]))
  = (Some (inl (Some mock_storage)), [(0%nat, "first")], 1%nat,
     [(Callback.Returned, Some Callback.SuccessPage);
      (Callback.Returned, Some Callback.SuccessPage)]).
Proof. vm_compute. reflexivity. Qed.

(** The caller has timed out before the browser comes back: the handler
    still sends into the buffer and returns. *)
Example callback_after_timeout :
  outcome (Callback.run mockExchangeFn "test-state-double"
             (Callback.Timeout :: replicate 8 (Callback.Run 0%nat))
             (Callback.init (take 1 double_callback)))
  = (Some (inr Callback.CallbackTimeout), [(0%nat, "mycode")], 1%nat,
     [(Callback.Returned, Some Callback.SuccessPage)]).
Proof. vm_compute. reflexivity. Qed.

(** TestCallbackServer_ExchangeFailure, with a retry of the browser. *)
Example callback_exchange_failure :
  outcome (Callback.run failingExchangeFn "test-state-exchange-fail"
             (mjoin (replicate 8 [Callback.Run 0%nat; Callback.Run 1%nat])
              ++ [Callback.Receive])
             (Callback.init
                (replicate 2 [("code", "mycode");
                              ("state", "test-state-exchange-fail")])))
  = (Some (inr (Callback.CallbackFailed "token_exchange_failed"
                  "server returned status 400: invalid_grant")),
     [(0%nat, "mycode")], 1%nat,
     replicate 2
       (Callback.Returned,
        Some (Callback.FailurePage "server returned status 400: invalid_grant"))).
Proof. vm_compute. reflexivity. Qed.

(** TestCallbackServer_StateMismatch, TestCallbackServer_OAuthError and
    TestCallbackServer_MissingCode: no call of exchangeFn. *)
Example callback_state_mismatch :
  outcome (Callback.run mockExchangeFn "expected-state"
             (replicate 4 (Callback.Run 0%nat) ++ [Callback.Receive])
             (Callback.init [[("code", "mycode"); ("state", "wrong-state")]]))
  = (Some (inr (Callback.CallbackFailed "state_mismatch"
                  "state parameter mismatch")), [], 1%nat,
     [(Callback.Returned,
       Some (Callback.FailurePage
               "State parameter does not match. Possible CSRF attack."))]).
Proof. vm_compute. reflexivity. Qed.

Example callback_oauth_error :
  outcome (Callback.run mockExchangeFn "state-for-error"
             (replicate 4 (Callback.Run 0%nat) ++ [Callback.Receive])
             (Callback.init
                [[("error", "access_denied");
                  ("error_description", "User denied");
                  ("state", "state-for-error")]]))
  = (Some (inr (Callback.CallbackFailed "access_denied" "User denied")),
     [], 1%nat,
     [(Callback.Returned, Some (Callback.FailurePage "User denied"))]).
Proof. vm_compute. reflexivity. Qed.

Example callback_missing_code :
  outcome (Callback.run mockExchangeFn "state-for-missing-code"
             (replicate 4 (Callback.Run 0%nat) ++ [Callback.Receive])
             (Callback.init [[("state", "state-for-missing-code")]]))
  = (Some (inr (Callback.CallbackFailed "missing_code"
                  "code parameter missing")), [], 1%nat,
     [(Callback.Returned,
       Some (Callback.FailurePage "No authorization code in callback."))]).
Proof. vm_compute. reflexivity. Qed.

(** An empty expectedState and a request without state: the exchange is
    run. *)
Example callback_no_state :
  outcome (Callback.run mockExchangeFn ""
             (replicate 8 (Callback.Run 0%nat) ++ [Callback.Receive])
             (Callback.init [[("code", "abc")]]))
  = (Some (inl (Some mock_storage)), [(0%nat, "abc")], 1%nat,
     [(Callback.Returned, Some Callback.SuccessPage)]).
Proof. vm_compute. reflexivity. Qed.

(* ===================================================================== *)
(** * Further properties, and more of the code *)
(* ===================================================================== *)

(** ** The callback listener: where results and pages come from *)

Section CallbackOutcomes.
Import Callback.
Variable exchangeFn : string → option TokenStorage * option string.
Variable expectedState : string.

Abbreviation step := (Callback.step exchangeFn expectedState).
Abbreviation step_handler := (Callback.step_handler exchangeFn expectedState).
Abbreviation exec := (Callback.exec exchangeFn expectedState).
Abbreviation run := (Callback.run exchangeFn expectedState).
Abbreviation classify := (Callback.classify expectedState).
Abbreviation Inv := (Inv expectedState).

(** The exchange has been called once, and the shared variables hold what
    it returned. *)
Definition called (s : State) : Prop :=
  ∃ i c, exchangeCalls s = [(i, c)] ∧
         exchangeStorage s = (exchangeFn c).1 ∧ exchangeErr s = (exchangeFn c).2.

(** The page and the result that are due to a request: those of its
    classification, or for a request that passed the checks those of the
    one call of exchangeFn. *)
Definition due (calls : list (nat * string)) (q : Values)
    : option (Page * callbackResult) :=
  match classify q with
  | Finish p r => Some (p, r)
  | RunExchange _ =>
      match calls with
      | [(_, c0)] => Some (after_exchange (exchangeFn c0).1 (exchangeFn c0).2)
      | _ => None
      end
  end.

Record Inv2 (s : State) : Prop := {
  inv2_finished : exchangeOnce s = Finished → called s;
  inv2_leave : ∀ i h, handlers s !! i = Some h → pc h = ExchangeLeave → called s;
  inv2_run : ∀ i h c, handlers s !! i = Some h → pc h = ExchangeRun c →
    exchangeCalls s = [(i, c)];
  inv2_done : ∀ i h, handlers s !! i = Some h → pc h = ExchangeDone →
    exchangeOnce s = Finished ∧ ∃ c, classify (query h) = RunExchange c;
  inv2_start : ∀ i h, handlers s !! i = Some h → pc h = Start → page h = None;
  inv2_enter : ∀ i h, handlers s !! i = Some h →
    (∃ c, pc h = ExchangeEnter c ∨ pc h = ExchangeRun c) ∨ pc h = ExchangeLeave ∨
    pc h = ExchangeDone →
    page h = None ∧ ∃ c, classify (query h) = RunExchange c;
  inv2_page : ∀ i h p, handlers s !! i = Some h → page h = Some p →
    ∃ r, due (exchangeCalls s) (query h) = Some (p, r);
  inv2_pending : ∀ i h r, handlers s !! i = Some h →
    pc h = SendEnter r ∨ pc h = SendChan r →
    ∃ p, due (exchangeCalls s) (query h) = Some (p, r);
  inv2_sent : ∀ r, r ∈ sent s →
    ∃ j h p, handlers s !! j = Some h ∧
             due (exchangeCalls s) (query h) = Some (p, r);
}.

Lemma Inv2_init requests : Inv2 (init requests).
Proof.
  assert (Hall : ∀ i h, handlers (init requests) !! i = Some h →
                        pc h = Start ∧ page h = None).
  { intros i h. unfold init. cbn [handlers]. rewrite list_lookup_fmap.
    destruct (requests !! i); simpl; [|done]. by intros [= <-]. }
  split; cbn [init once exchangeOnce sent exchangeCalls]; try done.
  - intros i h [Hpc _]%Hall. by rewrite Hpc.
  - intros i h c [Hpc _]%Hall. by rewrite Hpc.
  - intros i h [Hpc _]%Hall. by rewrite Hpc.
  - intros i h [_ Hp]%Hall. done.
  - intros i h [Hpc _]%Hall. rewrite Hpc. by intros [(c & [|])|[|]].
  - intros i h p [_ Hp]%Hall. by rewrite Hp.
  - intros i h r [Hpc _]%Hall. rewrite Hpc. by intros [|].
  - intros r Hin. by apply elem_of_nil in Hin.
Qed.


Ltac step_cases Hstep :=
  unfold Callback.step_handler in Hstep;
  repeat case_match; simplify_eq;
  unfold called in *;
  cbn [handlers once exchangeOnce sent exchangeCalls caller resultCh
       exchangeStorage exchangeErr set_handler write_page goto
       pc page query in_send in_exchange] in *;
  simplify_eq.

Ltac use_facts :=
  repeat match goal with
  | H : ?a = ?a → _ |- _ => specialize (H eq_refl)
  | H : false = true → _ |- _ => clear H
  | H : ?a = ?b → _ |- _ => first [is_var a; fail 1 | is_var b; fail 1 |
      (assert (a ≠ b) by discriminate); clear H]
  end.
Ltac close :=
  use_facts; intros; simplify_eq; try done; try congruence; eauto.

Ltac norm :=
  cbn [pc page query goto write_page] in *; simplify_eq.

Ltac moved :=
  repeat match goal with
  | Hi : ?hs !! ?i = Some ?h, Hj : <[?i := ?h']> ?hs !! ?j = Some ?hj |- _ =>
      destruct (lookup_moved hs i h h' j hj Hi Hj) as [[-> ->]|[? ?]]; clear Hj
  end.

(** While a goroutine is inside exchangeOnce.Do, no other one is. *)
Lemma exchange_owner_unique requests s i h j hj :
  Inv requests s → handlers s !! i = Some h → handlers s !! j = Some hj →
  in_exchange (pc h) = true → in_exchange (pc hj) = true → i = j.
Proof.
  intros HI Hi Hj Hpi Hpj.
  apply (inv_exchange_owner _ _ _ HI i h Hi) in Hpi.
  apply (inv_exchange_owner _ _ _ HI j hj Hj) in Hpj. congruence.
Qed.

Lemma exchange_busy requests s j hj :
  Inv requests s → handlers s !! j = Some hj → in_exchange (pc hj) = true →
  exchangeOnce s = Running j.
Proof. intros HI Hj Hp. by apply (inv_exchange_owner _ _ _ HI j hj Hj). Qed.

Lemma calls_fresh requests s :
  Inv requests s → exchangeOnce s = Fresh → exchangeCalls s = [].
Proof.
  intros HI Ho. pose proof (inv_calls _ _ _ HI) as Hc. rewrite Ho in Hc.
  by destruct (exchangeCalls s).
Qed.

Lemma called_calls s : called s → ∃ i c, exchangeCalls s = [(i, c)].
Proof. intros (i & c & ? & _). eauto. Qed.

Lemma outcome_step_finished requests i h s s' :
  Inv requests s → Inv2 s → handlers s !! i = Some h →
  step_handler i h s = Some s' →
  exchangeOnce s' = Finished → called s'.
Proof.
  intros HI [Hf Hl _ _ _ _ _ _ _] Hh Hstep.
  pose proof (exchange_busy _ _ _ _ HI Hh) as Hbusy.
  specialize (Hl i h Hh). destruct h as [q p pg].
  step_cases Hstep; close.
Qed.

Lemma outcome_step_leave requests i h s s' :
  Inv requests s → Inv2 s → handlers s !! i = Some h →
  step_handler i h s = Some s' →
  ∀ j hj, handlers s' !! j = Some hj → pc hj = ExchangeLeave → called s'.
Proof.
  intros HI [_ Hl Hr _ _ _ _ _ _] Hh Hstep j hj Hj Hpj.
  pose proof (exchange_busy _ _ _ _ HI Hh) as Hbusy.
  pose proof (λ c, Hr i h c Hh) as Hri.
  pose proof (calls_fresh _ _ HI) as Hfr.
  assert (Hother : j ≠ i → ∀ hj0, handlers s !! j = Some hj0 →
            pc hj0 = ExchangeLeave → exchangeOnce s = Running j ∧ called s).
  { intros _ hj0 Hj0 Hp0. split; [|by eapply Hl].
    apply (exchange_busy _ _ _ _ HI Hj0). by rewrite Hp0. }
  clear Hl Hr HI.
  step_cases Hstep; moved; norm.
  all: try (destruct (Hother ltac:(done) _ ltac:(eassumption) ltac:(done))
              as [Hrun Hcalled]; clear Hother).
  all: close.
  all: try (rewrite Hbusy in Hrun by done; simplify_eq).
  eexists _, _. split; [by apply Hri|done].
Qed.

Lemma outcome_step_run requests i h s s' :
  Inv requests s → Inv2 s → handlers s !! i = Some h →
  step_handler i h s = Some s' →
  ∀ j hj c, handlers s' !! j = Some hj → pc hj = ExchangeRun c →
            exchangeCalls s' = [(j, c)].
Proof.
  intros HI [_ _ Hr _ _ _ _ _ _] Hh Hstep j hj c Hj Hpj.
  pose proof (calls_fresh _ _ HI) as Hfr.
  assert (Hother : j ≠ i → ∀ hj0, handlers s !! j = Some hj0 →
            pc hj0 = ExchangeRun c →
            exchangeOnce s = Running j ∧ exchangeCalls s = [(j, c)]).
  { intros _ hj0 Hj0 Hp0. split; [|by eapply Hr].
    apply (exchange_busy _ _ _ _ HI Hj0). by rewrite Hp0. }
  clear Hr HI.
  step_cases Hstep; moved; norm.
  all: try (destruct (Hother ltac:(done) _ ltac:(eassumption) ltac:(done))
              as [Hrun Hcalls]; clear Hother).
  all: close.
  by rewrite Hfr.
Qed.

Lemma outcome_step_done requests i h s s' :
  Inv requests s → Inv2 s → handlers s !! i = Some h →
  step_handler i h s = Some s' →
  ∀ j hj, handlers s' !! j = Some hj → pc hj = ExchangeDone →
          exchangeOnce s' = Finished ∧ ∃ c, classify (query hj) = RunExchange c.
Proof.
  intros HI [_ _ _ Hd _ He _ _ _] Hh Hstep j hj Hj Hpj.
  pose proof (inv_code _ _ _ HI i h) as Hcode.
  specialize (He i h Hh).
  assert (Hother : j ≠ i → ∀ hj0, handlers s !! j = Some hj0 →
            pc hj0 = ExchangeDone →
            exchangeOnce s = Finished ∧ ∃ c, classify (query hj0) = RunExchange c).
  { intros _ hj0 Hj0 Hp0. by eapply Hd. }
  clear Hd HI.
  step_cases Hstep; moved; norm.
  all: try (destruct (Hother ltac:(done) _ ltac:(eassumption) ltac:(done))
              as [Hfin Hcl]; clear Hother).
  all: close.
  all: split; [done|].
  all: first [by apply He; eauto | by eexists; apply Hcode; eauto].
Qed.

Lemma outcome_step_start i h s s' :
  Inv2 s → handlers s !! i = Some h →
  step_handler i h s = Some s' →
  ∀ j hj, handlers s' !! j = Some hj → pc hj = Start → page hj = None.
Proof.
  intros [_ _ _ _ Hs _ _ _ _] Hh Hstep j hj Hj Hpj.
  step_cases Hstep; moved; norm; eauto.
Qed.

Lemma outcome_step_enter i h s s' :
  Inv2 s → handlers s !! i = Some h →
  step_handler i h s = Some s' →
  ∀ j hj, handlers s' !! j = Some hj →
    (∃ c, pc hj = ExchangeEnter c ∨ pc hj = ExchangeRun c) ∨
    pc hj = ExchangeLeave ∨ pc hj = ExchangeDone →
    page hj = None ∧ ∃ c, classify (query hj) = RunExchange c.
Proof.
  intros [_ _ _ _ Hs He _ _ _] Hh Hstep j hj Hj Hpj.
  specialize (Hs i h Hh). pose proof (He i h Hh) as Hi.
  step_cases Hstep; moved; norm.
  all: try (by eapply He).
  all: try (by destruct Hpj as [(c & [|])|[|]]).
  all: try (apply Hi; eauto; fail).
  split; [by apply Hs|]. eauto.
Qed.

Lemma due_grow calls q x : due [] q = Some x → due calls q = Some x.
Proof. unfold due. by destruct (classify q). Qed.

Lemma due_finish calls q p r : classify q = Finish p r → due calls q = Some (p, r).
Proof. unfold due. by intros ->. Qed.

Lemma due_exchange s q c :
  called s → classify q = RunExchange c →
  due (exchangeCalls s) q
  = Some (after_exchange (exchangeStorage s) (exchangeErr s)).
Proof.
  intros (i0 & c0 & -> & -> & ->) Hcl. unfold due. by rewrite Hcl.
Qed.

Lemma outcome_step_page requests i h s s' :
  Inv requests s → Inv2 s → handlers s !! i = Some h →
  step_handler i h s = Some s' →
  ∀ j hj p, handlers s' !! j = Some hj → page hj = Some p →
            ∃ r, due (exchangeCalls s') (query hj) = Some (p, r).
Proof.
  intros HI [Hf _ _ Hd _ He Hp _ _] Hh Hstep j hj p Hj Hpj.
  pose proof (calls_fresh _ _ HI) as Hfr.
  pose proof (Hd i h Hh) as Hdi. pose proof (He i h Hh) as Hei.
  pose proof (Hp i h) as Hpi.
  assert (Hother : ∀ hj0, handlers s !! j = Some hj0 → page hj0 = Some p →
            ∃ r, due (exchangeCalls s) (query hj0) = Some (p, r))
    by (intros; by eapply Hp).
  clear Hd He Hp HI.
  step_cases Hstep; moved; norm.
  all: try (by eapply Hother).
  all: try (by eapply Hpi).
  all: try (eexists; by apply due_finish).
  all: try (destruct (Hother _ ltac:(eassumption) ltac:(done)) as [r Hr];
            exists r; rewrite Hfr in Hr by done; by apply due_grow).
  destruct (Hdi eq_refl) as [Hfin [c Hc]].
  assert (Hcalled : called s) by (by apply Hf).
  exists (after_exchange (exchangeStorage s) (exchangeErr s)).2.
  rewrite (due_exchange s _ c Hcalled Hc).
  by destruct (after_exchange _ _).
Qed.

Lemma outcome_step_pending requests i h s s' :
  Inv requests s → Inv2 s → handlers s !! i = Some h →
  step_handler i h s = Some s' →
  ∀ j hj r, handlers s' !! j = Some hj →
    pc hj = SendEnter r ∨ pc hj = SendChan r →
    ∃ p, due (exchangeCalls s') (query hj) = Some (p, r).
Proof.
  intros HI [Hf _ _ Hd _ He _ Hp _] Hh Hstep j hj r Hj Hpj.
  pose proof (calls_fresh _ _ HI) as Hfr.
  pose proof (Hd i h Hh) as Hdi.
  pose proof (Hp i h) as Hpi.
  assert (Hother : ∀ hj0, handlers s !! j = Some hj0 →
            pc hj0 = SendEnter r ∨ pc hj0 = SendChan r →
            ∃ p, due (exchangeCalls s) (query hj0) = Some (p, r))
    by (intros; by eapply Hp).
  clear Hd He Hp HI.
  step_cases Hstep; moved; norm.
  all: try (by eapply Hother).
  all: try (by destruct Hpj).
  all: try (destruct Hpj as [?|?]; simplify_eq).
  all: try (eapply Hpi; eauto; fail).
  all: try (eexists; by apply due_finish).
  all: try (destruct (Hother _ ltac:(eassumption) ltac:(eauto)) as [p Hr];
            exists p; rewrite Hfr in Hr by done; by apply due_grow).
  destruct (Hdi eq_refl) as [Hfin [c Hc]].
  assert (Hcalled : called s) by (by apply Hf).
  exists (after_exchange (exchangeStorage s) (exchangeErr s)).1.
  rewrite (due_exchange s _ c Hcalled Hc).
  by destruct (after_exchange _ _).
Qed.

Lemma outcome_step_sent2 requests i h s s' :
  Inv requests s → Inv2 s → handlers s !! i = Some h →
  step_handler i h s = Some s' →
  ∀ r, r ∈ sent s' →
    ∃ j hj p, handlers s' !! j = Some hj ∧
              due (exchangeCalls s') (query hj) = Some (p, r).
Proof.
  intros HI [_ _ _ _ _ _ _ Hp Hs] Hh Hstep r Hr.
  pose proof (calls_fresh _ _ HI) as Hfr.
  pose proof (λ r, Hp i h r Hh) as Hpi.
  assert (Hlt : (i < length (handlers s))%nat) by (by eapply lookup_lt_Some).
  assert (Hkeep : ∀ h' calls, query h' = query h →
            (∀ q x, due (exchangeCalls s) q = Some x → due calls q = Some x) →
            r ∈ sent s →
            ∃ j hj p, <[i := h']> (handlers s) !! j = Some hj ∧
                      due calls (query hj) = Some (p, r)).
  { intros h' calls Hq Hcalls Hin.
    destruct (Hs r Hin) as (j & hj & p & Hj & Hd).
    destruct (decide (j = i)) as [->|Hne].
    - exists i, h', p. rewrite list_lookup_insert_eq by done.
      split; [done|]. rewrite Hq. apply Hcalls. by simplify_eq.
    - exists j, hj, p. rewrite list_lookup_insert_ne by done. eauto. }
  clear Hp Hs HI.
  step_cases Hstep.
  all: try (by apply Hkeep).
  - apply Hkeep; [done| |done]. intros q x. rewrite Hfr by done. apply due_grow.
  - apply elem_of_app in Hr as [Hr|Hr]; [by apply Hkeep|].
    apply list_elem_of_singleton in Hr as ->.
    destruct (Hpi r0) as [p Hd]; [by right|].
    eexists i, _, p. rewrite list_lookup_insert_eq by done. by split.
Qed.

Lemma step_handler_Inv2 requests i h s s' :
  Inv requests s → Inv2 s → handlers s !! i = Some h →
  step_handler i h s = Some s' → Inv2 s'.
Proof.
  intros HI HI2 Hh Hstep. split.
  - by eapply outcome_step_finished.
  - by eapply outcome_step_leave.
  - by eapply outcome_step_run.
  - by eapply outcome_step_done.
  - by eapply outcome_step_start.
  - by eapply outcome_step_enter.
  - by eapply outcome_step_page.
  - by eapply outcome_step_pending.
  - by eapply outcome_step_sent2.
Qed.

Lemma step_Inv2 requests m s s' :
  Inv requests s → Inv2 s → step m s = Some s' → Inv2 s'.
Proof.
  intros HI HI2 Hstep. destruct m as [i| | |]; cbn [Callback.step] in Hstep.
  - destruct (handlers s !! i) as [h|] eqn:Hh; [|done].
    by eapply step_handler_Inv2.
  - destruct (caller s); try done. destruct (resultCh s); [done|].
    simplify_eq. by destruct HI2.
  - destruct (caller s); try done. simplify_eq. by destruct HI2.
  - destruct (caller s); try done. simplify_eq. by destruct HI2.
Qed.

Lemma run_Inv2_from requests schedule s :
  Inv requests s → Inv2 s → Inv2 (run schedule s).
Proof.
  revert s. induction schedule as [|m rest IH]; intros s HI HI2; [done|].
  cbn [Callback.run foldl]. apply IH; [by apply exec_Inv|].
  unfold Callback.exec.
  destruct (step m s) as [s'|] eqn:Hstep; [|done]. by eapply step_Inv2.
Qed.

Lemma run_Inv2 requests schedule : Inv2 (run schedule (init requests)).
Proof. apply (run_Inv2_from requests); [apply Inv_init|apply Inv2_init]. Qed.

Lemma classify_Finish_error q p r : classify q = Finish p r → Error r ≠ "".
Proof.
  unfold Callback.classify. repeat case_decide; intros [= <- <-]; done.
Qed.

Lemma classify_RunExchange q c :
  classify q = RunExchange c →
  Get q "error" = "" ∧ Get q "state" = expectedState ∧ c = Get q "code" ∧ c ≠ "".
Proof.
  unfold Callback.classify. repeat case_decide; intros [= <-].
  by repeat split.
Qed.

(** What the caller has received was due to one of the requests. *)
Lemma got_due requests schedule r :
  caller (run schedule (init requests)) = Got r →
  ∃ j q p, requests !! j = Some q ∧
           due (exchangeCalls (run schedule (init requests))) q = Some (p, r).
Proof.
  intros Hc. pose proof (run_Inv exchangeFn expectedState requests schedule) as HI.
  pose proof (run_Inv2 requests schedule) as HI2.
  pose proof (inv_chan _ _ _ HI) as Hch. rewrite Hc in Hch. destruct Hch as [Hs _].
  destruct (inv2_sent _ HI2 r) as (j & h & p & Hj & Hd).
  { rewrite Hs. by left. }
  exists j, (query h), p. split; [|done].
  rewrite <- (inv_queries _ _ _ HI), list_lookup_fmap, Hj. done.
Qed.

(** X1. When startCallbackServer returns without error, what it returns is
    what the one call of exchangeFn returned, that call returned no error,
    and it was made with the code of a request that carried no error
    parameter, the expected state and a non-empty code. *)
Theorem callback_tokens_from_exchange requests schedule st :
  result (run schedule (init requests)) = Some (inl st) →
  ∃ i q,
    requests !! i = Some q ∧
    Get q "error" = "" ∧ Get q "state" = expectedState ∧ Get q "code" ≠ "" ∧
    exchangeCalls (run schedule (init requests)) = [(i, Get q "code")] ∧
    exchangeFn (Get q "code") = (st, None).
Proof.
  unfold Callback.result.
  destruct (caller _) as [|r| |] eqn:Hc; try done.
  case_decide as He; [done|]. intros [= <-].
  destruct (got_due _ _ _ Hc) as (j & q & p & Hq & Hd).
  pose proof (run_Inv exchangeFn expectedState requests schedule) as HI.
  unfold due in Hd. destruct (classify q) as [p' r'|c] eqn:Hcl.
  { simplify_eq. by apply classify_Finish_error in Hcl. }
  destruct (exchangeCalls _) as [|[i0 c0] [|]] eqn:Hcalls; try done.
  destruct (inv_call_code _ _ _ HI i0 c0) as (h0 & Hh0 & Hcl0).
  { rewrite Hcalls. by left. }
  apply classify_RunExchange in Hcl0 as (He0 & Hs0 & -> & Hcode).
  exists i0, (query h0). split.
  { rewrite <- (inv_queries _ _ _ HI), list_lookup_fmap, Hh0. done. }
  repeat (split; [done|]).
  unfold after_exchange in Hd.
  destruct (exchangeFn (Get (query h0) "code")) as [storage [msg|]];
    cbn [fst snd] in *; simplify_eq; try done.
  all: by destruct He.
Qed.

(** X2. When startCallbackServer returns an error of the callback, its
    code is not empty, and it is either the failure that the handler's
    checks give for one of the requests, or "token_exchange_failed" with
    the message of the error that the one call of exchangeFn returned. *)
Theorem callback_failure_provenance requests schedule e d :
  result (run schedule (init requests)) = Some (inr (CallbackFailed e d)) →
  e ≠ "" ∧
  ∃ i q,
    requests !! i = Some q ∧
    ((∃ p, classify q = Finish p {| Storage := None; Error := e; Desc := d |}) ∨
     (∃ i0 c0,
        exchangeCalls (run schedule (init requests)) = [(i0, c0)] ∧
        (exchangeFn c0).2 = Some d ∧ e = "token_exchange_failed" ∧
        Get q "error" = "" ∧ Get q "state" = expectedState ∧ Get q "code" ≠ "")).
Proof.
  unfold Callback.result.
  destruct (caller _) as [|r| |] eqn:Hc; try done.
  case_decide as He; [|done]. intros [= <- <-]. split; [done|].
  destruct (got_due _ _ _ Hc) as (j & q & p & Hq & Hd).
  exists j, q. split; [done|].
  unfold due in Hd. destruct (classify q) as [p' r'|c] eqn:Hcl.
  - left. simplify_eq. exists p. f_equal.
    revert Hcl. unfold Callback.classify.
    repeat case_decide; intros [= <- <-]; done.
  - right. destruct (exchangeCalls _) as [|[i0 c0] [|]] eqn:Hcalls; try done.
    apply classify_RunExchange in Hcl as (He0 & Hs0 & -> & Hcode).
    exists i0, c0. split; [done|].
    unfold after_exchange in Hd.
    destruct (exchangeFn c0) as [storage [msg|]];
      cbn [fst snd] in *; simplify_eq; try done.
    all: by destruct He.
Qed.

(** X3. Every request that passed the checks is answered with the page of
    the one exchange, whichever request made it: the success page when
    exchangeFn returned no error, the failure page with its message
    otherwise.  A request that failed a check is answered with the page of
    that check. *)
Theorem callback_pages_follow_exchange requests schedule i h p :
  handlers (run schedule (init requests)) !! i = Some h →
  page h = Some p →
  match classify (query h) with
  | Finish p' _ => p = p'
  | RunExchange _ =>
      ∃ i0 c0,
        exchangeCalls (run schedule (init requests)) = [(i0, c0)] ∧
        p = match (exchangeFn c0).2 with
            | None => SuccessPage
            | Some msg => writeCallbackPage false "token_exchange_failed" msg
            end
  end.
Proof.
  intros Hh Hp. pose proof (run_Inv2 requests schedule) as HI2.
  destruct (inv2_page _ HI2 i h p Hh Hp) as [r Hd].
  unfold due in Hd. destruct (classify (query h)) as [p' r'|c]; [by simplify_eq|].
  destruct (exchangeCalls _) as [|[i0 c0] [|]]; try done.
  exists i0, c0. split; [done|]. unfold after_exchange in Hd.
  destruct (exchangeFn c0) as [storage [msg|]]; cbn [fst snd] in *; by simplify_eq.
Qed.

End CallbackOutcomes.

(** Witnesses on the double callback of the tests. *)
Lemma callback_tokens_from_exchange_witness :
  ∃ i q,
    double_callback !! i = Some q ∧
    Callback.Get q "error" = "" ∧ Callback.Get q "state" = "test-state-double" ∧
    Callback.Get q "code" ≠ "" ∧
    Callback.exchangeCalls
      (Callback.run mockExchangeFn "test-state-double"
         (mjoin (replicate 8 [Callback.Run 0%nat; Callback.Run 1%nat])
          ++ [Callback.Receive]) (Callback.init double_callback))
    = [(i, Callback.Get q "code")] ∧
    mockExchangeFn (Callback.Get q "code") = (Some mock_storage, None).
Proof.
  apply (callback_tokens_from_exchange mockExchangeFn "test-state-double"
           double_callback
           (mjoin (replicate 8 [Callback.Run 0%nat; Callback.Run 1%nat])
            ++ [Callback.Receive]) (Some mock_storage)).
  vm_compute. reflexivity.
Defined.

Lemma callback_failure_provenance_witness :
  "state_mismatch" ≠ "" ∧
  ∃ i q,
    [[("code", "mycode"); ("state", "wrong-state")]] !! i = Some q ∧
    ((∃ p, Callback.classify "expected-state" q
           = Callback.Finish p {| Callback.Storage := None;
                                  Callback.Error := "state_mismatch";
                                  Callback.Desc := "state parameter mismatch" |}) ∨
     (∃ i0 c0,
        Callback.exchangeCalls
          (Callback.run mockExchangeFn "expected-state"
             (replicate 4 (Callback.Run 0%nat) ++ [Callback.Receive])
             (Callback.init [[("code", "mycode"); ("state", "wrong-state")]]))
        = [(i0, c0)] ∧
        (mockExchangeFn c0).2 = Some "state parameter mismatch" ∧
        "state_mismatch" = "token_exchange_failed" ∧
        Callback.Get q "error" = "" ∧ Callback.Get q "state" = "expected-state" ∧
        Callback.Get q "code" ≠ "")).
Proof.
  apply (callback_failure_provenance mockExchangeFn "expected-state"
           [[("code", "mycode"); ("state", "wrong-state")]]
           (replicate 4 (Callback.Run 0%nat) ++ [Callback.Receive])).
  vm_compute. reflexivity.
Defined.

Lemma callback_pages_follow_exchange_witness :
  ∃ i0 c0,
    Callback.exchangeCalls
      (Callback.run failingExchangeFn "test-state-double"
         (mjoin (replicate 8 [Callback.Run 0%nat; Callback.Run 1%nat]))
         (Callback.init double_callback))
    = [(i0, c0)] ∧
    Callback.FailurePage "server returned status 400: invalid_grant"
    = match (failingExchangeFn c0).2 with
      | None => Callback.SuccessPage
      | Some msg => Callback.writeCallbackPage false "token_exchange_failed" msg
      end.
Proof.
  apply (callback_pages_follow_exchange failingExchangeFn "test-state-double"
           double_callback
           (mjoin (replicate 8 [Callback.Run 0%nat; Callback.Run 1%nat]))
           1%nat
           {| Callback.query := [("code", "mycode"); ("state", "test-state-double")];
              Callback.pc := Callback.Returned;
              Callback.page := Some (Callback.FailurePage
                                 "server returned status 400: invalid_grant") |}
           (Callback.FailurePage "server returned status 400: invalid_grant")).
  - vm_compute. reflexivity.
  - reflexivity.
Defined.

(** ** The pages of the listener *)

(** The characters that html.EscapeString replaces, apart from the
    ampersand. *)
Definition is_markup (c : ascii) : bool :=
  Ascii.eqb c "<" || Ascii.eqb c ">" || Ascii.eqb c "'"
  || Ascii.eqb c (ascii_of_nat 34).

Fixpoint markup_free (s : string) : bool :=
  match s with
  | EmptyString => true
  | String c rest => negb (is_markup c) && markup_free rest
  end.

Lemma markup_free_app (s t : string) :
  markup_free (s +:+ t) = markup_free s && markup_free t.
Proof.
  induction s as [|c s IH]; [done|]. cbn [markup_free String.append].
  change (String c s +:+ t) with (String c (s +:+ t)). cbn [markup_free].
  rewrite IH. by rewrite andb_assoc.
Qed.

Lemma html_EscapeString_markup_free (s : string) :
  markup_free (Callback.html_EscapeString s) = true.
Proof.
  induction s as [|c s IH]; [done|].
  cbn [Callback.html_EscapeString]. rewrite markup_free_app, IH, andb_true_r.
  destruct (Ascii.eqb c "&") eqn:E1; [done|].
  destruct (Ascii.eqb c "'") eqn:E2; [done|].
  destruct (Ascii.eqb c "<") eqn:E3; [done|].
  destruct (Ascii.eqb c ">") eqn:E4; [done|].
  destruct (Ascii.eqb c (ascii_of_nat 34)) eqn:E5; [done|].
  cbn [markup_free]. unfold is_markup. by rewrite E2, E3, E4, E5.
Qed.

(** X4. Whatever the error code and the description are (both come from
    the query of the request or from the error of the exchange), the page
    that writeCallbackPage writes is the success page or the failure page
    with a message free of the characters <, >, single and double quote:
    the description when it is not empty and the error code otherwise,
    escaped. *)
Theorem writeCallbackPage_escapes (success : bool) (errCode errDesc : string) :
  (success = true ∧
   Callback.writeCallbackPage success errCode errDesc = Callback.SuccessPage) ∨
  (success = false ∧
   ∃ msg,
     Callback.writeCallbackPage success errCode errDesc = Callback.FailurePage msg ∧
     msg = Callback.html_EscapeString (if decide (errDesc = "") then errCode else errDesc) ∧
     markup_free msg = true).
Proof.
  destruct success; [by left|]. right. split; [done|].
  unfold Callback.writeCallbackPage. eexists. split; [done|].
  split; [|apply html_EscapeString_markup_free].
  by repeat case_decide.
Qed.

Example writeCallbackPage_script :
  Callback.writeCallbackPage false "access_denied" "<script>alert('x')</script>"
  = Callback.FailurePage "&lt;script&gt;alert(&#39;x&#39;)&lt;/script&gt;".
Proof. vm_compute. reflexivity. Qed.

(** X5. The handler that runs the exchange itself and the earlier handler
    that hands the code to the caller make the same checks: a request is
    turned away by one exactly when it is turned away by the other, with
    the same page and the same error, and a request that passes is one for
    which the earlier handler writes the success page and delivers its
    code. *)
Theorem handlers_make_same_checks (expectedState : string) (q : Callback.Values) :
  match Callback.classify expectedState q with
  | Callback.Finish p r =>
      Callback.Storage r = None ∧ Callback.Error r ≠ "" ∧
      Callback.Legacy.handle expectedState q
      = (p, {| Callback.Legacy.Code := ""; Callback.Legacy.Error := Callback.Error r;
               Callback.Legacy.Desc := Callback.Desc r |})
  | Callback.RunExchange code =>
      code ≠ "" ∧
      Callback.Legacy.handle expectedState q
      = (Callback.SuccessPage,
         {| Callback.Legacy.Code := code; Callback.Legacy.Error := "";
            Callback.Legacy.Desc := "" |})
  end.
Proof.
  unfold Callback.classify, Callback.Legacy.handle.
  repeat case_decide; done.
Qed.

(** ** The lock file, held by another process *)

(** The world after [n] passes that found the lock file fresh. *)
Definition waited (lp : string) (n : nat) (w : World) : World :=
  {| files := files w; clock := clock w + Z.of_nat n * retryDelay; plan := [];
     log := log w ++ mjoin (replicate n
              [EvOpenExcl lp (Some (PathError "open" lp EEXIST));
               EvStat lp; EvSleep retryDelay]);
     network := network w |}.

Lemma acquireFileLock_loop_wait pid lp n k w f :
  plan w = [] → files w !! lp = Some f →
  (n ≠ 0%nat → clock w - mtime f + (Z.of_nat n - 1) * retryDelay <= staleAfter) →
  acquireFileLock_loop pid lp (n + k) w
  = acquireFileLock_loop pid lp k (waited lp n w).
Proof.
  revert w. induction n as [|n IH]; intros w Hplan Hf Hfresh.
  - unfold waited. destruct w as [fs clk pl lg net].
    cbn [plan files clock log network replicate mjoin list_join] in *. subst pl.
    cbn [Nat.add]. by rewrite Z.add_0_r, app_nil_r.
  - assert (0 <= retryDelay) by (by vm_compute).
    cbn [Nat.add]. rewrite (acquireFileLock_loop_fresh _ _ _ _ f) by (try done; lia).
    rewrite IH; [|done|done|cbn [clock]; intros; specialize (Hfresh ltac:(done)); lia].
    f_equal. unfold waited. cbn [files clock log network plan].
    f_equal; [lia|]. rewrite <- app_assoc. f_equal.
Qed.

Lemma waited_lookup lp n w p : files (waited lp n w) !! p = files w !! p.
Proof. done. Qed.

(** X6. A lock file that another process holds, in a world otherwise left
    alone, is waited for in passes 100ms apart and is taken over once it
    is more than 30s old.  If it stays within 30s through the 50th pass,
    acquireFileLock returns the timeout error, having slept 5s, and the
    files are as before.  If it turns stale at pass n+1 with n at most 48,
    that pass removes it and the next one takes the lock, after n sleeps.
    If it turns stale only at the 50th pass, that pass removes it and the
    loop ends: the timeout error is returned although the lock file is
    gone. *)
Theorem acquireFileLock_held pid filePath w f :
  plan w = [] → files w !! (filePath +:+ ".lock") = Some f →
  let lp := filePath +:+ ".lock" in
  let age := clock w - mtime f in
  let r := acquireFileLock pid filePath w in
  (age + 49 * retryDelay <= staleAfter →
   r.1 = inr (ErrLockTimeout (50 * retryDelay)) ∧
   files r.2 = files w ∧ clock r.2 = clock w + 50 * retryDelay) ∧
  (∀ n : nat, (n <= 48)%nat →
     staleAfter < age + Z.of_nat n * retryDelay →
     (n ≠ 0%nat → age + (Z.of_nat n - 1) * retryDelay <= staleAfter) →
     r.1 = inl {| lockFile := Some lp; lockPath := lp |} ∧
     clock r.2 = clock w + Z.of_nat n * retryDelay ∧
     files r.2 = <[lp := {| data := JSONText (JNumber (JInt pid));
                            mtime := clock r.2; mode := 384 |}]> (files w)) ∧
  (age + 48 * retryDelay <= staleAfter → staleAfter < age + 49 * retryDelay →
   r.1 = inr (ErrLockTimeout (50 * retryDelay)) ∧
   files r.2 = delete lp (files w) ∧ clock r.2 = clock w + 49 * retryDelay).
Proof.
  intros Hplan Hf. cbn zeta. unfold acquireFileLock.
  set (lp := filePath +:+ ".lock") in *.
  assert (Hrd : retryDelay = 100000000) by done.
  split; [|split].
  - intros Hfresh.
    change maxRetries with (50 + 0)%nat.
    rewrite (acquireFileLock_loop_wait _ _ 50 0 _ f) by (try done; lia).
    cbn [acquireFileLock_loop ret fst snd]. unfold waited. cbn [files clock].
    split; [done|]. split; [done|]. lia.
  - intros n Hn Hstale Hfresh.
    replace maxRetries with (n + S (S (48 - n)))%nat by (unfold maxRetries; lia).
    rewrite (acquireFileLock_loop_wait _ _ n _ _ f) by done.
    rewrite (acquireFileLock_loop_stale _ _ _ _ f);
      [|done|by rewrite waited_lookup|unfold waited; cbn [clock]; lia].
    rewrite acquireFileLock_loop_free;
      [|done|cbn [files]; by rewrite lookup_delete_eq].
    cbn [fst snd files clock waited]. split; [done|]. split; [done|].
    by rewrite insert_delete_eq.
  - intros Hfresh Hstale.
    change maxRetries with (49 + 1)%nat.
    rewrite (acquireFileLock_loop_wait _ _ 49 1 _ f) by (try done; lia).
    rewrite (acquireFileLock_loop_stale _ _ _ _ f);
      [|done|by rewrite waited_lookup|unfold waited; cbn [clock]; lia].
    cbn [acquireFileLock_loop ret fst snd files clock waited].
    split; [done|]. split; [done|]. lia.
Qed.

Lemma acquireFileLock_held_witness :
  let w := world_locked 29950000000 in
  let r := acquireFileLock 4242 "tokens.json" w in
  r.1 = inl {| lockFile := Some "tokens.json.lock"; lockPath := "tokens.json.lock" |} ∧
  clock r.2 = clock w + 1 * retryDelay ∧
  files r.2 = <["tokens.json.lock" :=
                  {| data := JSONText (JNumber (JInt 4242));
                     mtime := clock r.2; mode := 384 |}]> (files w).
Proof.
  cbn zeta.
  assert (Hf : files (world_locked 29950000000) !! ("tokens.json" +:+ ".lock")
               = Some {| data := JSONText (JNumber (JInt 1));
                         mtime := 1700000000000000000 - 29950000000;
                         mode := 384 |}) by (vm_compute; reflexivity).
  destruct (acquireFileLock_held 4242 "tokens.json" (world_locked 29950000000)
              _ eq_refl Hf) as (_ & H & _).
  apply (H 1%nat); [lia|vm_compute; reflexivity|intros _; by vm_compute].
Defined.

(** A lock file 25.15s old turns stale only at the last pass. *)
Example lock_removed_at_last_pass :
  let r := acquireFileLock 4242 "tokens.json" (world_locked 25150000000) in
  r.1 = inr (ErrLockTimeout 5000000000) ∧ files r.2 = ∅ ∧
  open_attempts (log r.2) = 50%nat.
Proof. vm_compute. done. Qed.

(** ** The token store: what it leaves alone, and the lock around it *)

Section StoreFrame.
Context `{TimeCodec} (cfg : Config).

Abbreviation tok := (tokenFile cfg).
Abbreviation tmp := (tokenFile cfg +:+ ".tmp").
Abbreviation lck := (tokenFile cfg +:+ ".lock").

Lemma keeps_saveTokens q storage :
  lck ≠ q → tmp ≠ q → tok ≠ q → keeps q (saveTokens cfg storage).
Proof.
  intros Hl Ht Hk w Hq. rewrite saveTokens_eq. cbn zeta.
  assert (H0 : quiet_at q w ∧ files w !! q = files w !! q) by done.
  apply (keep_step (acquireFileLock (pid cfg) tok)) in H0;
    [|apply advances_acquireFileLock|by apply keeps_acquireFileLock].
  pose proof (acquireFileLock_lock cfg w) as Hlock.
  destruct (acquireFileLock (pid cfg) tok w) as [[lock|err] w1]; cbn [fst snd] in *;
    [|apply H0].
  rewrite (Hlock lock eq_refl). clear Hlock.
  assert (Hrel : ∀ w', quiet_at q w' ∧ files w' !! q = files w !! q →
    files (release {| lockFile := Some lck; lockPath := lck |} w').2 !! q
    = files w !! q).
  { intros w' Hw'. eapply keep_step in Hw'; [apply Hw'|apply advances_release|].
    by apply keeps_release. }
  apply (keep_step (os_ReadFile tok)) in H0;
    [|apply advances_os_ReadFile|apply keeps_os_ReadFile].
  destruct (os_ReadFile tok w1) as [existing w2]; cbn [fst snd] in *.
  destruct (json_MarshalIndent _) as [d|err]; cbn [fst snd]; [|by apply Hrel].
  apply (keep_step (os_WriteFile tmp d 384)) in H0;
    [|apply advances_os_WriteFile|by apply keeps_os_WriteFile].
  destruct (os_WriteFile tmp d 384 w2) as [[err|] w3]; cbn [fst snd] in *;
    [by apply Hrel|].
  apply (keep_step (os_Rename tmp tok)) in H0;
    [|apply advances_os_Rename|by apply keeps_os_Rename].
  destruct (os_Rename tmp tok w3) as [[err|] w4]; cbn [fst snd] in *;
    [|by apply Hrel].
  apply (keep_step (os_Remove tmp)) in H0;
    [|apply advances_os_Remove|by apply keeps_os_Remove].
  destruct (os_Remove tmp w4) as [rm w5]; cbn [fst snd] in *. by apply Hrel.
Qed.

Lemma keeps_loadTokens q : keeps q (loadTokens cfg).
Proof.
  intros w Hq. unfold loadTokens, bind, ret.
  pose proof (keeps_os_ReadFile q tok w Hq) as Hr.
  destruct (os_ReadFile tok w) as [[d|err] w1]; cbn [fst snd] in *; [|done].
  repeat case_match; done.
Qed.

(** The calls of saveTokens once it has the lock: the read of the token
    file comes first and the release of the lock last. *)
Lemma saveTokens_locked_log storage w lock :
  (acquireFileLock (pid cfg) tok w).1 = inl lock →
  ∃ rd mid rm,
    log (saveTokens cfg storage w).2
    = log (acquireFileLock (pid cfg) tok w).2
      ++ EvReadFile tok rd :: mid ++ [EvClose lck; EvRemove lck rm] ∧
    Forall (λ ev, ∃ err, ev = EvWriteFile tmp err ∨ ev = EvRename tmp tok err ∨
                         ev = EvRemove tmp err) mid.
Proof.
  rewrite saveTokens_eq. cbn zeta.
  pose proof (acquireFileLock_lock cfg w) as Hlock.
  destruct (acquireFileLock (pid cfg) tok w) as [[lock'|err] w1]; cbn [fst snd] in *;
    [|done].
  intros _. rewrite (Hlock lock' eq_refl). clear Hlock.
  pose proof (os_ReadFile_log tok w1) as Hlog2.
  destruct (os_ReadFile tok w1) as [existing w2]; cbn [fst snd] in *.
  destruct (json_MarshalIndent _) as [d|err]; cbn [fst snd].
  2:{ rewrite release_log, Hlog2, <- !app_assoc. by eexists _, [], _. }
  pose proof (os_WriteFile_log tmp d 384 w2) as Hlog3.
  destruct (os_WriteFile tmp d 384 w2) as [[err|] w3]; cbn [fst snd] in *.
  { rewrite release_log, Hlog3, Hlog2, <- !app_assoc.
    eexists _, [_], _. split; [done|]. repeat constructor; eauto. }
  pose proof (os_Rename_log tmp tok w3) as Hlog4.
  destruct (os_Rename tmp tok w3) as [[err|] w4]; cbn [fst snd] in *.
  2:{ rewrite release_log, Hlog4, Hlog3, Hlog2, <- !app_assoc.
      eexists _, [_; _], _. split; [done|]. repeat constructor; eauto. }
  pose proof (os_Remove_log tmp w4) as Hlog5.
  destruct (os_Remove tmp w4) as [rm w5]; cbn [fst snd] in *.
  rewrite release_log, Hlog5, Hlog4, Hlog3, Hlog2, <- !app_assoc.
  eexists _, [_; _; _], _. split; [done|]. repeat constructor; eauto.
Qed.


End StoreFrame.


(** X7. saveTokens changes no file other than the token file, its temp
    file and its lock file, whatever happens during the call, and
    loadTokens changes no file at all: a file that no other process
    touches meanwhile is afterwards what it was before. *)
Theorem token_store_frame `{TimeCodec} cfg storage w p :
  quiet_at p w →
  (p ≠ tokenFile cfg → p ≠ tokenFile cfg +:+ ".tmp" →
   p ≠ tokenFile cfg +:+ ".lock" →
   files (saveTokens cfg storage w).2 !! p = files w !! p) ∧
  files (loadTokens cfg w).2 !! p = files w !! p.
Proof.
  intros Hq. split.
  - intros Hk Ht Hl. by apply keeps_saveTokens.
  - by apply keeps_loadTokens.
Qed.

(** A directory with the token file of client-a and a file of no concern
    to the program, in which the temp file cannot be written. *)
Definition world_notes : World :=
  {| files := <["notes.txt" := {| data := NotJSON "remember the milk";
                                  mtime := 1600000000000000000; mode := 420 |}]>
                (files world_a);
     clock := 1700000100000000000;
     plan := [benign; benign; benign; failing ENOSPC];
     log := []; network := offline |}.

Lemma token_store_frame_witness :
  let w := world_notes in
  let p := "notes.txt" in
  (p ≠ "tokens.json" → p ≠ "tokens.json" +:+ ".tmp" → p ≠ "tokens.json" +:+ ".lock" →
   files (saveTokens (test_cfg "client-b") (test_storage "client-b") w).2 !! p
   = files w !! p) ∧
  files (loadTokens (test_cfg "client-b") w).2 !! p = files w !! p.
Proof.
  apply (token_store_frame (test_cfg "client-b") (test_storage "client-b")
           world_notes "notes.txt").
  unfold quiet_at. vm_compute. repeat constructor; intros [].
Defined.

Example save_fails_on_full_disk :
  let r := saveTokens (test_cfg "client-b") (test_storage "client-b") world_notes in
  r.1.2 = Some (ErrWriteTemp (PathError "write" "tokens.json.tmp" ENOSPC)) ∧
  files r.2 !! "tokens.json" = Some file_a ∧
  files r.2 !! "tokens.json.lock" = None ∧
  is_Some (files r.2 !! "tokens.json.tmp").
Proof. vm_compute. eauto. Qed.

(** X8. saveTokens does nothing to the token file without the lock, and
    never keeps the lock.  When acquireFileLock fails, saveTokens returns
    that error wrapped and has made no other call.  When it succeeds, the
    calls that follow are the read of the token file, then only calls on
    the temp file (its write, its rename over the token file, its
    removal), and last, on every path, the close and the removal of the
    lock file; the error returned, if any, is not a lock error. *)
Theorem saveTokens_lock_discipline `{TimeCodec} cfg storage w :
  let a := acquireFileLock (pid cfg) (tokenFile cfg) w in
  let r := saveTokens cfg storage w in
  match a.1 with
  | inr err => r.1.2 = Some (ErrAcquireLock err) ∧ r.2 = a.2
  | inl _ =>
      (∀ err, r.1.2 ≠ Some (ErrAcquireLock err)) ∧
      ∃ rd mid rm,
        log r.2
        = log a.2
          ++ EvReadFile (tokenFile cfg) rd
             :: mid ++ [EvClose (tokenFile cfg +:+ ".lock");
                        EvRemove (tokenFile cfg +:+ ".lock") rm] ∧
        Forall (λ ev, ∃ err,
                  ev = EvWriteFile (tokenFile cfg +:+ ".tmp") err ∨
                  ev = EvRename (tokenFile cfg +:+ ".tmp") (tokenFile cfg) err ∨
                  ev = EvRemove (tokenFile cfg +:+ ".tmp") err) mid
  end.
Proof.
  cbn zeta.
  pose proof (saveTokens_locked_log cfg storage w) as Hlog.
  pose proof (saveTokens_eq cfg storage w) as Heq. cbn zeta in Heq.
  destruct (acquireFileLock (pid cfg) (tokenFile cfg) w) as [[lock|err] w1];
    cbn [fst snd] in *.
  - split; [|by apply (Hlog lock)].
    intros err. rewrite Heq. clear Heq Hlog.
    unfold json_MarshalIndent.
    repeat (case_match; cbn [fst snd]); simplify_eq; done.
  - by rewrite Heq.
Qed.





(** A token file that was cut short while being written by hand. *)
Definition world_garbled : World :=
  {| files := {[ "tokens.json" := {| data := NotJSON "{ tokens: { client-a: ";
                                     mtime := 1700000000000000000; mode := 384 |} ]};
     clock := 1700000100000000000; plan := []; log := []; network := offline |}.


Example garbled_file_replaced :
  (loadTokens (test_cfg "client-a") world_garbled).1
  = inr (ErrParseTokenFile JSONSyntaxError) ∧
  (loadTokens (test_cfg "client-b")
     (saveTokens (test_cfg "client-b") (test_storage "client-b") world_garbled).2).1
  = inl (Some (test_storage "client-b")).
Proof. vm_compute. done. Qed.

(** ** The calls of the program to its HTTP client *)

(** The requests of the HTTP steps the program has made, in order: one
    for every pass through [http_Do], in which the request is built,
    handed to the retrying client once, and the body is read.  How often
    the client then sends a request to the server is its own matter and
    is not part of the log. *)
Definition client_calls (evs : list Event) : list HttpRequest :=
  omap (λ ev, match ev with EvHTTP req => Some req | _ => None end) evs.

Lemma client_calls_app evs1 evs2 :
  client_calls (evs1 ++ evs2) = client_calls evs1 ++ client_calls evs2.
Proof. apply omap_app. Qed.

(** A computation that does not go to the HTTP client. *)
Definition no_call {A} (m : M A) : Prop :=
  ∀ w, client_calls (log (m w).2) = client_calls (log w).

Lemma no_call_ret {A} (a : A) : no_call (ret a).
Proof. done. Qed.

Lemma no_call_bind {A B} (m : M A) (k : A → M B) :
  no_call m → (∀ a, no_call (k a)) → no_call (bind m k).
Proof.
  intros Hm Hk w. unfold bind. specialize (Hm w).
  destruct (m w) as [a w1]. cbn [fst snd] in *. by rewrite Hk.
Qed.

Lemma no_call_enter : no_call enter.
Proof. intros w. unfold enter. by destruct (plan w). Qed.

Lemma no_call_emit ev :
  (∀ req, ev ≠ EvHTTP req) → no_call (emit ev).
Proof.
  intros Hev w. unfold emit. cbn [log snd]. rewrite client_calls_app.
  cbn. destruct ev; try by rewrite app_nil_r. by destruct (Hev req).
Qed.

Lemma no_call_set_files f : no_call (set_files f).
Proof. done. Qed.

Lemma no_call_get_files : no_call get_files.
Proof. done. Qed.

Lemma no_call_time_Now : no_call time_Now.
Proof. done. Qed.

Lemma no_call_time_Sleep d : no_call (time_Sleep d).
Proof.
  intros w. unfold time_Sleep. cbn [log snd]. rewrite client_calls_app.
  cbn. by rewrite app_nil_r.
Qed.

Ltac no_call_solve :=
  repeat (first
    [ progress intros
    | apply no_call_bind
    | apply no_call_ret
    | apply no_call_enter
    | apply no_call_emit; done
    | apply no_call_set_files
    | apply no_call_get_files
    | apply no_call_time_Now
    | apply no_call_time_Sleep
    | case_match ]).

Lemma no_call_os_OpenFile_excl p perm : no_call (os_OpenFile_excl p perm).
Proof. unfold os_OpenFile_excl. no_call_solve. Qed.

Lemma no_call_Fprintf_pid p n : no_call (Fprintf_pid p n).
Proof. unfold Fprintf_pid. no_call_solve. Qed.

Lemma no_call_File_Close p : no_call (File_Close p).
Proof. unfold File_Close. no_call_solve. Qed.

Lemma no_call_os_Stat p : no_call (os_Stat p).
Proof. unfold os_Stat. no_call_solve. Qed.

Lemma no_call_os_Remove p : no_call (os_Remove p).
Proof. unfold os_Remove. no_call_solve. Qed.

Lemma no_call_os_ReadFile p : no_call (os_ReadFile p).
Proof. unfold os_ReadFile. no_call_solve. Qed.

Lemma no_call_os_WriteFile p d perm : no_call (os_WriteFile p d perm).
Proof. unfold os_WriteFile. no_call_solve. Qed.

Lemma no_call_os_Rename a b : no_call (os_Rename a b).
Proof. unfold os_Rename. no_call_solve. Qed.

Lemma no_call_print_warning err : no_call (print_warning err).
Proof. unfold print_warning. no_call_solve. Qed.

Lemma no_call_acquireFileLock_loop pid lp k :
  no_call (acquireFileLock_loop pid lp k).
Proof.
  induction k as [|k IH]; cbn [acquireFileLock_loop]; [apply no_call_ret|].
  apply no_call_bind; [apply no_call_os_OpenFile_excl|].
  intros [err|].
  - destruct (os_IsExist err); [|apply no_call_ret].
    apply no_call_bind; [apply no_call_os_Stat|]. intros info.
    apply no_call_bind; [apply no_call_time_Now|]. intros now.
    destruct info as [modTime|].
    + case_decide.
      * apply no_call_bind; [apply no_call_os_Remove|].
        intros [remErr|]; [|done].
        destruct (negb (os_IsNotExist remErr)); [apply no_call_ret|done].
      * apply no_call_bind; [apply no_call_time_Sleep|done].
    + apply no_call_bind; [apply no_call_time_Sleep|done].
  - apply no_call_bind; [apply no_call_Fprintf_pid|].
    intros. apply no_call_ret.
Qed.

Lemma no_call_release fl : no_call (release fl).
Proof.
  unfold release. apply no_call_bind; [|intros; apply no_call_os_Remove].
  destruct (lockFile fl); [apply no_call_File_Close|apply no_call_ret].
Qed.

Lemma http_Do_calls req w :
  client_calls (log (http_Do req w).2) = client_calls (log w) ++ [req].
Proof. unfold http_Do. cbn [log snd]. by rewrite client_calls_app. Qed.

Section StoreRequests.
Context `{TimeCodec} (cfg : Config).

Lemma no_call_loadTokens : no_call (loadTokens cfg).
Proof.
  unfold loadTokens. apply no_call_bind; [apply no_call_os_ReadFile|].
  intros r. repeat case_match; apply no_call_ret.
Qed.

Lemma no_call_saveTokens storage : no_call (saveTokens cfg storage).
Proof.
  unfold saveTokens.
  apply no_call_bind; [apply no_call_acquireFileLock_loop|].
  intros [lock|err]; [|apply no_call_ret].
  apply no_call_bind;
    [|intros; apply no_call_bind;
        [apply no_call_release|intros; apply no_call_ret]].
  apply no_call_bind; [apply no_call_os_ReadFile|].
  intros existing. cbn zeta.
  destruct (json_MarshalIndent _); [|apply no_call_ret].
  apply no_call_bind; [apply no_call_os_WriteFile|].
  intros [e|]; [apply no_call_ret|].
  apply no_call_bind; [apply no_call_os_Rename|].
  intros [e|]; [|apply no_call_ret].
  apply no_call_bind; [apply no_call_os_Remove|].
  intros [e'|]; apply no_call_ret.
Qed.

(** refreshAccessToken goes to the HTTP client once, with the refresh
    request. *)
Lemma refreshAccessToken_calls refreshToken w :
  client_calls (log (refreshAccessToken cfg refreshToken w).2)
  = client_calls (log w) ++ [refreshRequest cfg refreshToken].
Proof.
  unfold refreshAccessToken. unfold bind at 1.
  pose proof (http_Do_calls (refreshRequest cfg refreshToken) w) as Hdo.
  destruct (http_Do (refreshRequest cfg refreshToken) w) as [resp w1].
  cbn [fst snd] in *. rewrite <- Hdo.
  assert (Hrest : ∀ (m : M (TokenStorage + error)), no_call m →
            client_calls (log (m w1).2) = client_calls (log w1)) by (intros m Hm; apply Hm).
  apply Hrest. clear.
  destruct resp; try apply no_call_ret.
  repeat case_match; try apply no_call_ret.
  all: apply no_call_bind; [apply no_call_time_Now|]; intros now.
  all: apply no_call_bind; [apply no_call_saveTokens|]; intros saved.
  all: apply no_call_bind; [|intros; apply no_call_ret].
  all: destruct (saved.2); [apply no_call_print_warning|apply no_call_ret].
Qed.

End StoreRequests.


Lemma advances_http_Do req : advances (http_Do req).
Proof. intros w. by split. Qed.

Lemma advances_print_warning err : advances (print_warning err).
Proof. apply advances_emit. Qed.

Lemma advances_refreshAccessToken `{TimeCodec} cfg refreshToken :
  advances (refreshAccessToken cfg refreshToken).
Proof.
  unfold refreshAccessToken.
  apply advances_bind; [apply advances_http_Do|].
  intros resp. destruct resp; try apply advances_ret.
  repeat case_match; try apply advances_ret.
  all: apply advances_bind; [apply advances_time_Now|]; intros now.
  all: apply advances_bind; [apply advances_saveTokens|]; intros saved.
  all: apply advances_bind; [|intros; apply advances_ret].
  all: destruct (saved.2); [apply advances_print_warning|apply advances_ret].
Qed.

(** X11. refreshAccessToken passes exactly once through its HTTP step,
    with the refresh request, whatever comes back: the request is built,
    handed to retryClient.DoWithContext, and the body is read.  The
    retrying client is thus called at most once by this function; how
    often it sends the request to the server is its own matter.  When
    refreshAccessToken returns an error it has changed no file and has
    not called saveTokens. *)
Theorem refreshAccessToken_one_call `{TimeCodec} cfg refreshToken w :
  let r := refreshAccessToken cfg refreshToken w in
  client_calls (log r.2) = client_calls (log w) ++ [refreshRequest cfg refreshToken] ∧
  (∀ err, r.1 = inr err →
     files r.2 = files w ∧ log r.2 = log w ++ [EvHTTP (refreshRequest cfg refreshToken)]).
Proof.
  cbn zeta. split; [apply refreshAccessToken_calls|].
  intros err. unfold refreshAccessToken, bind, http_Do, ret.
  destruct (network w (refreshRequest cfg refreshToken)); cbn [fst snd files log];
    try done.
  repeat case_match; cbn [fst snd files log]; try done.
  all: unfold time_Now; cbn [fst snd].
  all: destruct (saveTokens _ _ _) as [[st res] w2]; cbn [fst snd].
  all: destruct res; unfold print_warning, emit; cbn [fst snd]; done.
Qed.

Lemma makeAPICall_finish_spec st resp w' :
  (makeAPICall_finish st resp w').2 = w' ∧ (makeAPICall_finish st resp w').1.1 = st ∧
  ((makeAPICall_finish st resp w').1.2 = None ↔ ∃ body, resp = Response 200 body).
Proof.
  unfold makeAPICall_finish, ret.
  destruct resp; cbn [fst snd]; try (split; [done|split; [done|]];
    split; [done|by intros [? ?]]).
  case_decide as Hs; cbn [fst snd]; (split; [done|split; [done|]]).
  - split; [done|]. intros [b [= -> _]]. done.
  - split; [|done]. intros _. exists body.
    destruct (decide (status = 200)) as [->|]; done.
Qed.

(** The control flow of makeAPICallWithAutoRefresh, call by call. *)
Lemma makeAPICallWithAutoRefresh_eq `{TimeCodec} cfg storage w :
  makeAPICallWithAutoRefresh cfg storage w =
  let d := http_Do (tokeninfoRequest cfg (AccessToken storage)) w in
  if decide (StatusCode d.1 = Some 401) then
    let rf := refreshAccessToken cfg (RefreshToken storage) d.2 in
    match rf.1 with
    | inr err =>
        ((storage, Some (match err with
                         | ErrRefreshTokenExpired => ErrRefreshTokenExpired
                         | _ => ErrRefreshFailed err
                         end)), rf.2)
    | inl new =>
        let st := {| AccessToken := AccessToken new; RefreshToken := RefreshToken new;
                     TokenType := TokenType storage; ExpiresAt := ExpiresAt new;
                     ClientID := ClientID storage |} in
        let d2 := http_Do (tokeninfoRequest cfg (AccessToken new)) rf.2 in
        match d2.1 with
        | NewRequestFails err => ((st, Some (ErrCreateRetryRequest err)), d2.2)
        | DoFails err => ((st, Some (ErrRetryFailed err)), d2.2)
        | resp => makeAPICall_finish st resp d2.2
        end
    end
  else makeAPICall_finish storage d.1 d.2.
Proof.
  unfold makeAPICallWithAutoRefresh, bind. cbn zeta.
  destruct (http_Do (tokeninfoRequest cfg (AccessToken storage)) w) as [resp w1].
  cbn [fst snd]. case_decide; [|done].
  destruct (refreshAccessToken cfg (RefreshToken storage) w1) as [[new|err] w2];
    cbn [fst snd AccessToken].
  - destruct (http_Do (tokeninfoRequest cfg (AccessToken new)) w2) as [resp2 w3].
    cbn [fst snd]. by destruct resp2.
  - by destruct err.
Qed.

(** X12. makeAPICallWithAutoRefresh refreshes at most once and passes
    through the HTTP step for the API at most twice; the steps counted
    are calls of the retrying client, which may send a request more than
    once, and the answers are those the client hands back.  When the first answer is
    not a 401 there is the one API call, and the function succeeds exactly
    when the answer is a 200 whose body could be read.  After a 401 the
    refresh call follows; when the refresh fails the client is not called
    again, when it succeeds the API is called once more with the new
    access token, the caller's token set takes the new access token,
    refresh token and expiry (its token type and client id stay), and the
    function succeeds exactly when this second answer is a 200: a second
    401 is reported and not refreshed again. *)
Theorem makeAPICallWithAutoRefresh_calls `{TimeCodec} cfg storage w :
  let api := tokeninfoRequest cfg (AccessToken storage) in
  let r := makeAPICallWithAutoRefresh cfg storage w in
  let w1 := (http_Do api w).2 in
  if decide (StatusCode (network w api) = Some 401) then
    match (refreshAccessToken cfg (RefreshToken storage) w1).1 with
    | inr err =>
        client_calls (log r.2)
        = client_calls (log w) ++ [api; refreshRequest cfg (RefreshToken storage)] ∧
        r.1.1 = storage ∧ is_Some r.1.2
    | inl new =>
        client_calls (log r.2)
        = client_calls (log w)
          ++ [api; refreshRequest cfg (RefreshToken storage);
              tokeninfoRequest cfg (AccessToken new)] ∧
        r.1.1 = {| AccessToken := AccessToken new; RefreshToken := RefreshToken new;
                   TokenType := TokenType storage; ExpiresAt := ExpiresAt new;
                   ClientID := ClientID storage |} ∧
        (r.1.2 = None ↔
         ∃ body, network w (tokeninfoRequest cfg (AccessToken new)) = Response 200 body)
    end
  else
    client_calls (log r.2) = client_calls (log w) ++ [api] ∧
    r.1.1 = storage ∧
    (r.1.2 = None ↔ ∃ body, network w api = Response 200 body).
Proof.
  cbn zeta. rewrite makeAPICallWithAutoRefresh_eq. cbn zeta.
  pose proof (http_Do_calls (tokeninfoRequest cfg (AccessToken storage)) w) as Hdo.
  assert (Hnet : (http_Do (tokeninfoRequest cfg (AccessToken storage)) w).1
                 = network w (tokeninfoRequest cfg (AccessToken storage))) by done.
  assert (Hn1 : network (http_Do (tokeninfoRequest cfg (AccessToken storage)) w).2
                = network w) by done.
  destruct (http_Do (tokeninfoRequest cfg (AccessToken storage)) w) as [resp w1].
  cbn [fst snd] in *. subst resp.
  case_decide as H401.
  - pose proof (refreshAccessToken_calls cfg (RefreshToken storage) w1) as Hreq.
    pose proof (advances_refreshAccessToken cfg (RefreshToken storage) w1) as [_ Hn].
    destruct (refreshAccessToken cfg (RefreshToken storage) w1) as [[new|err] w2];
      cbn [fst snd] in *.
    + rewrite Hdo in Hreq.
      set (st := {| AccessToken := AccessToken new; RefreshToken := RefreshToken new;
                    TokenType := TokenType storage; ExpiresAt := ExpiresAt new;
                    ClientID := ClientID storage |}).
      pose proof (http_Do_calls (tokeninfoRequest cfg (AccessToken new)) w2) as Hdo2.
      assert (Hnet2 : (http_Do (tokeninfoRequest cfg (AccessToken new)) w2).1
                      = network w (tokeninfoRequest cfg (AccessToken new))).
      { unfold http_Do. cbn [fst]. by rewrite Hn, Hn1. }
      destruct (http_Do (tokeninfoRequest cfg (AccessToken new)) w2) as [resp w3].
      cbn [fst snd] in *. subst resp.
      rewrite Hreq, <- !app_assoc in Hdo2. cbn [app] in Hdo2.
      destruct (network w (tokeninfoRequest cfg (AccessToken new))) eqn:Hresp;
        cbn [fst snd ret].
      * split; [done|]. split; [done|]. split; [done|by intros [? ?]].
      * split; [done|]. split; [done|]. split; [done|by intros [? ?]].
      * destruct (makeAPICall_finish_spec st (ReadAllFails status err) w3)
          as (-> & -> & ->). done.
      * destruct (makeAPICall_finish_spec st (Response status body) w3)
          as (-> & -> & ->). done.
    + rewrite Hdo, <- app_assoc in Hreq. cbn [app] in Hreq. eauto.
  - destruct (makeAPICall_finish_spec storage
                (network w (tokeninfoRequest cfg (AccessToken storage))) w1)
      as (-> & -> & ->). done.
Qed.

(** The control flow of the start of main. *)
Lemma main_reuse_or_refresh_eq `{TimeCodec} cfg interrupted w :
  main_reuse_or_refresh cfg interrupted w =
  let l := loadTokens cfg w in
  match l.1 with
  | inl (Some existing) =>
      if decide (clock l.2 < ExpiresAt existing) then (Proceed (Some existing), l.2)
      else
        let rf := refreshAccessToken cfg (RefreshToken existing) l.2 in
        match rf.1 with
        | inr err =>
            if interrupted then (Exit 130, rf.2)
            else (Proceed None, (print_warning err rf.2).2)
        | inl newStorage => (Proceed (Some newStorage), rf.2)
        end
  | _ => (Proceed None, l.2)
  end.
Proof.
  unfold main_reuse_or_refresh, bind. cbn zeta.
  destruct (loadTokens cfg w) as [[[existing|]|err] w1]; cbn [fst snd]; try done.
  unfold time_Now. case_decide; [done|].
  destruct (refreshAccessToken cfg (RefreshToken existing) w1) as [[new|err] w2];
    cbn [fst snd]; [done|].
  destruct interrupted; [done|]. unfold ret. by destruct (print_warning err w2).
Qed.

(** X13. The start of main uses a stored token set that has not expired
    as it is and does not go to the HTTP client; expiry is strict, so a
    token set whose expiry instant is the current instant is refreshed.
    An expired set leads to exactly one HTTP step, the refresh with its
    refresh token (one call of the retrying client, which may send the
    request more than once).  When the token file gives no token set (it is missing or
    unreadable, has no entry for the client, or has a null entry, for
    which loadTokens returns neither a token set nor an error), main goes
    on to the full flow without a call of the client. *)
Theorem main_reuse_or_refresh_calls `{TimeCodec} cfg interrupted w :
  let l := loadTokens cfg w in
  let r := main_reuse_or_refresh cfg interrupted w in
  client_calls (log l.2) = client_calls (log w) ∧
  match l.1 with
  | inl (Some existing) =>
      if decide (clock l.2 < ExpiresAt existing) then
        r = (Proceed (Some existing), l.2)
      else
        client_calls (log r.2)
        = client_calls (log w) ++ [refreshRequest cfg (RefreshToken existing)] ∧
        r.1 = match (refreshAccessToken cfg (RefreshToken existing) l.2).1 with
              | inl newStorage => Proceed (Some newStorage)
              | inr _ => if interrupted then Exit 130 else Proceed None
              end
  | _ => r = (Proceed None, l.2)
  end.
Proof.
  cbn zeta. pose proof (no_call_loadTokens cfg w) as Hload.
  split; [done|]. rewrite main_reuse_or_refresh_eq. cbn zeta.
  destruct (loadTokens cfg w) as [[[existing|]|err] w1]; cbn [fst snd] in *;
    try done.
  case_decide; [done|].
  pose proof (refreshAccessToken_calls cfg (RefreshToken existing) w1) as Hreq.
  destruct (refreshAccessToken cfg (RefreshToken existing) w1) as [[new|err] w2];
    cbn [fst snd] in *.
  - by rewrite Hreq, Hload.
  - destruct interrupted; cbn [fst snd].
    + by rewrite Hreq, Hload.
    + unfold print_warning, emit. cbn [fst snd log].
      rewrite client_calls_app, Hreq, Hload. cbn. by rewrite app_nil_r.
Qed.

(** A token file whose entry for the client is null. *)
Definition world_null_entry : World :=
  {| files := {[ "tokens.json" :=
       {| data := JSONText (JObject [("tokens", JObject [("client-a", JNull)])]);
          mtime := 1700000000000000000; mode := 384 |} ]};
     clock := 1700000100000000000; plan := []; log := []; network := server_rejecting |}.

Example null_entry_starts_full_flow :
  (loadTokens (test_cfg "client-a") world_null_entry).1 = inl None ∧
  (main_reuse_or_refresh (test_cfg "client-a") false world_null_entry).1 = Proceed None ∧
  client_calls
    (log (main_reuse_or_refresh (test_cfg "client-a") false world_null_entry).2) = [].
Proof. vm_compute. done. Qed.

(** The expiry of the stored token set is the current instant. *)
Example token_expiring_now_is_refreshed :
  let w := {| files := files world_a; clock := 1700003600000000000; plan := [];
              log := []; network := server_rejecting |} in
  client_calls (log (main_reuse_or_refresh (test_cfg "client-a") false w).2)
  = [refreshRequest (test_cfg "client-a") "refresh-client-a"].
Proof. vm_compute. done. Qed.


(** ** exchangeCode and verifyToken (main.go) *)

(** The errors of the authorization flow that the token code above does
    not make: one constructor per [fmt.Errorf] site, [Plain] for an error
    whose text is one of those above ("failed to create request",
    "failed to read response", the OAuth error "code: description",
    "failed to parse token response", "invalid token response"). *)
Inductive flowError :=
  | Plain (err : error)
  (* exchangeCode, verifyToken: "request failed: %w" *)
  | ErrRequestFailed (cause : error)
  (* exchangeCode: "token exchange failed with status %d: %s" *)
  | ErrExchangeStatus (status : Z) (body : Data)
  (* verifyToken: "server returned status %d: %s" *)
  | ErrServerStatus (status : Z) (body : Data).

(** The token response of the code exchange (an anonymous struct in the
    source); other than that of the refresh it has a scope. *)
Module exchangeResp.
Record t := {
  AccessToken : string;
  RefreshToken : string;
  TokenType : string;
  ExpiresIn : Z;
  Scope : string;
}.
Definition zero : t :=
  {| AccessToken := ""; RefreshToken := ""; TokenType := ""; ExpiresIn := 0;
     Scope := "" |}.
Definition set_field (r : t) (m : string * json) : option t :=
  if field_match m.1 "access_token" then
    v ← decode_string (AccessToken r) m.2;
    Some {| AccessToken := v; RefreshToken := RefreshToken r;
            TokenType := TokenType r; ExpiresIn := ExpiresIn r; Scope := Scope r |}
  else if field_match m.1 "refresh_token" then
    v ← decode_string (RefreshToken r) m.2;
    Some {| AccessToken := AccessToken r; RefreshToken := v;
            TokenType := TokenType r; ExpiresIn := ExpiresIn r; Scope := Scope r |}
  else if field_match m.1 "token_type" then
    v ← decode_string (TokenType r) m.2;
    Some {| AccessToken := AccessToken r; RefreshToken := RefreshToken r;
            TokenType := v; ExpiresIn := ExpiresIn r; Scope := Scope r |}
  else if field_match m.1 "expires_in" then
    v ← decode_int (ExpiresIn r) m.2;
    Some {| AccessToken := AccessToken r; RefreshToken := RefreshToken r;
            TokenType := TokenType r; ExpiresIn := v; Scope := Scope r |}
  else if field_match m.1 "scope" then
    v ← decode_string (Scope r) m.2;
    Some {| AccessToken := AccessToken r; RefreshToken := RefreshToken r;
            TokenType := TokenType r; ExpiresIn := ExpiresIn r; Scope := v |}
  else Some r.
End exchangeResp.

Definition json_Unmarshal_exchangeResp : Data → exchangeResp.t + error :=
  json_Unmarshal_with exchangeResp.set_field exchangeResp.zero.

(** The package-level variables that the authorization flow reads besides
    those of [Config]. *)
Record AuthConfig := {
  config : Config;
  redirectURI : string;
  scope : string;
  callbackPort : Z;
}.

Section Exchange.
Context (acfg : AuthConfig).

Abbreviation cfg := (config acfg).

(** The request exchangeCode posts to the token endpoint. *)
Definition exchangeRequest (code codeVerifier : string) : HttpRequest :=
  let data :=
    [("grant_type", "authorization_code"); ("code", code);
     ("redirect_uri", redirectURI acfg); ("client_id", clientID cfg)]
    ++ (if isPublicClient cfg then [("code_verifier", codeVerifier)]
        else [("client_secret", clientSecret cfg); ("code_verifier", codeVerifier)]) in
  {| req_method := "POST"; req_url := serverURL cfg +:+ "/oauth/token";
     req_header := [("Content-Type", "application/x-www-form-urlencoded")];
     req_form := data |}.

(** exchangeCode exchanges an authorization code for access + refresh
    tokens. *)
Definition exchangeCode (code codeVerifier : string) : M (TokenStorage + flowError) :=
  let req := exchangeRequest code codeVerifier in
  let! resp := http_Do req in
  match resp with
  | NewRequestFails err => ret (inr (Plain (ErrCreateRequest err)))
  | DoFails err => ret (inr (ErrRequestFailed err))
  | ReadAllFails _ err => ret (inr (Plain (ErrReadResponse err)))
  | Response StatusCode body =>
      if decide (StatusCode ≠ 200) then
        match json_Unmarshal_ErrorResponse body with
        | inl errResp =>
            if decide (Error errResp ≠ "")
            then ret (inr (Plain (ErrOAuth (Error errResp) (ErrorDescription errResp))))
            else ret (inr (ErrExchangeStatus StatusCode body))
        | inr _ => ret (inr (ErrExchangeStatus StatusCode body))
        end
      else
        match json_Unmarshal_exchangeResp body with
        | inr err => ret (inr (Plain (ErrParseTokenResponse err)))
        | inl tokenResp =>
            match validateTokenResponse (exchangeResp.AccessToken tokenResp)
                    (exchangeResp.TokenType tokenResp)
                    (exchangeResp.ExpiresIn tokenResp) with
            | Some err => ret (inr (Plain (ErrInvalidTokenResponse err)))
            | None =>
                let! now := time_Now in
                ret (inl {| AccessToken := exchangeResp.AccessToken tokenResp;
                            RefreshToken := exchangeResp.RefreshToken tokenResp;
                            TokenType := exchangeResp.TokenType tokenResp;
                            ExpiresAt :=
                              now + wrap64 (exchangeResp.ExpiresIn tokenResp
                                            * time_Second);
                            ClientID := clientID cfg |})
            end
        end
  end.

(** verifyToken asks the server about the access token; what it prints
    on success is not modelled. *)
Definition verifyToken (accessToken : string) : M (option flowError) :=
  let! resp := http_Do (tokeninfoRequest cfg accessToken) in
  match resp with
  | NewRequestFails err => ret (Some (Plain (ErrCreateRequest err)))
  | DoFails err => ret (Some (ErrRequestFailed err))
  | ReadAllFails _ err => ret (Some (Plain (ErrReadResponse err)))
  | Response StatusCode body =>
      if decide (StatusCode ≠ 200) then
        match json_Unmarshal_ErrorResponse body with
        | inl errResp =>
            ret (Some (Plain (ErrOAuth (Error errResp) (ErrorDescription errResp))))
        | inr _ => ret (Some (ErrServerStatus StatusCode body))
        end
      else ret None
  end.

(** What exchangeCode does to the world: one call of the HTTP client,
    nothing else. *)
Lemma exchangeCode_world code codeVerifier w :
  (exchangeCode code codeVerifier w).2
  = (http_Do (exchangeRequest code codeVerifier) w).2.
Proof.
  unfold exchangeCode, bind, ret, time_Now.
  destruct (http_Do (exchangeRequest code codeVerifier) w) as [resp w1].
  cbn [fst snd]. destruct resp; try done.
  repeat case_match; done.
Qed.

Lemma exchangeCode_result code codeVerifier w :
  (exchangeCode code codeVerifier w).1
  = match network w (exchangeRequest code codeVerifier) with
    | NewRequestFails err => inr (Plain (ErrCreateRequest err))
    | DoFails err => inr (ErrRequestFailed err)
    | ReadAllFails _ err => inr (Plain (ErrReadResponse err))
    | Response status body =>
        if decide (status ≠ 200) then
          match json_Unmarshal_ErrorResponse body with
          | inl errResp =>
              if decide (Error errResp ≠ "")
              then inr (Plain (ErrOAuth (Error errResp) (ErrorDescription errResp)))
              else inr (ErrExchangeStatus status body)
          | inr _ => inr (ErrExchangeStatus status body)
          end
        else
          match json_Unmarshal_exchangeResp body with
          | inr err => inr (Plain (ErrParseTokenResponse err))
          | inl tr =>
              match validateTokenResponse (exchangeResp.AccessToken tr)
                      (exchangeResp.TokenType tr) (exchangeResp.ExpiresIn tr) with
              | Some err => inr (Plain (ErrInvalidTokenResponse err))
              | None =>
                  inl {| AccessToken := exchangeResp.AccessToken tr;
                         RefreshToken := exchangeResp.RefreshToken tr;
                         TokenType := exchangeResp.TokenType tr;
                         ExpiresAt := clock w + wrap64 (exchangeResp.ExpiresIn tr
                                                        * time_Second);
                         ClientID := clientID cfg |}
              end
          end
    end.
Proof.
  unfold exchangeCode, bind, ret, http_Do, time_Now. cbn [fst snd].
  destruct (network w (exchangeRequest code codeVerifier)); try done.
  repeat case_match; done.
Qed.

End Exchange.


(** X14. exchangeCode makes exactly one call, its HTTP step with the
    post of the exchange request (the request is built, handed to
    retryClient.DoWithContext, which may send it to the server more than
    once, and the body is read), and changes no file: it does not save
    the tokens.  It returns a token set exactly when the answer the
    client hands back has status 200 and a body that decodes and passes
    validateTokenResponse; the token set then has the access token,
    refresh token and token type of the answer, the configured client id,
    and as expiry the current instant plus the answer's expires_in
    seconds as a 64-bit duration. *)
Theorem exchangeCode_spec acfg code codeVerifier w :
  let req := exchangeRequest acfg code codeVerifier in
  let r := exchangeCode acfg code codeVerifier w in
  files r.2 = files w ∧ clock r.2 = clock w ∧ plan r.2 = plan w ∧
  log r.2 = log w ++ [EvHTTP req] ∧
  (∀ st, r.1 = inl st ↔
     ∃ body tr,
       network w req = Response 200 body ∧
       json_Unmarshal_exchangeResp body = inl tr ∧
       validateTokenResponse (exchangeResp.AccessToken tr)
         (exchangeResp.TokenType tr) (exchangeResp.ExpiresIn tr) = None ∧
       st = {| AccessToken := exchangeResp.AccessToken tr;
               RefreshToken := exchangeResp.RefreshToken tr;
               TokenType := exchangeResp.TokenType tr;
               ExpiresAt := clock w + wrap64 (exchangeResp.ExpiresIn tr * time_Second);
               ClientID := clientID (config acfg) |}).
Proof.
  cbn zeta. rewrite exchangeCode_world, exchangeCode_result.
  repeat (split; [done|]).
  intros st.
  destruct (network w (exchangeRequest acfg code codeVerifier)) as [| | |status body];
    try (split; [done|by intros (? & ? & ? & _)]).
  case_decide as Hs.
  - split; [by repeat case_match|]. intros (b & tr & [= -> ->] & _). done.
  - assert (status = 200) as -> by (destruct (decide (status = 200)); done).
    destruct (json_Unmarshal_exchangeResp body) as [tr|err] eqn:Htr.
    + destruct (validateTokenResponse _ _ _) eqn:Hv.
      * split; [done|]. intros (b & tr' & [= <-] & Htr' & Hv' & _).
        rewrite Htr in Htr'. simplify_eq. all: congruence.
      * split.
        -- intros [= <-]. by exists body, tr.
        -- intros (b & tr' & [= <-] & Htr' & Hv' & ->).
           rewrite Htr in Htr'. by simplify_eq.
    + split; [done|]. intros (b & tr' & [= <-] & Htr' & _).
      rewrite Htr in Htr'. done.
Qed.

Lemma wrap64_small (z : Z) : - 2 ^ 63 <= z < 2 ^ 63 → wrap64 z = z.
Proof. unfold wrap64. intros Hz. rewrite Z.mod_small by lia. lia. Qed.

Lemma wrap64_over (z : Z) : 2 ^ 63 <= z < 2 ^ 64 → wrap64 z = z - 2 ^ 64.
Proof.
  unfold wrap64. intros Hz.
  replace (z + 2 ^ 63) with ((z - 2 ^ 63) + 1 * 2 ^ 64) by lia.
  rewrite Z.mod_add by lia. rewrite Z.mod_small by lia. lia.
Qed.

(** X15. The expiry that exchangeCode computes is the current instant
    plus expires_in seconds only while the product fits a 64-bit
    duration: for an expires_in of at most 9223372036 the token set
    expires that many seconds from now, but for the next larger values,
    which validateTokenResponse accepts just the same, the duration wraps
    around to a negative one and the token set is returned with an expiry
    in the past. *)
Theorem exchangeCode_expiry acfg code codeVerifier w body tr :
  network w (exchangeRequest acfg code codeVerifier) = Response 200 body →
  json_Unmarshal_exchangeResp body = inl tr →
  validateTokenResponse (exchangeResp.AccessToken tr)
    (exchangeResp.TokenType tr) (exchangeResp.ExpiresIn tr) = None →
  ∃ st, (exchangeCode acfg code codeVerifier w).1 = inl st ∧
    (exchangeResp.ExpiresIn tr <= 9223372036 →
     ExpiresAt st = clock w + exchangeResp.ExpiresIn tr * 1000000000 ∧
     clock w < ExpiresAt st) ∧
    (9223372036 < exchangeResp.ExpiresIn tr <= 18446744073 →
     ExpiresAt st < clock w).
Proof.
  intros Hnet Htr Hv. rewrite exchangeCode_result, Hnet.
  rewrite decide_False by (by intros []). rewrite Htr, Hv.
  eexists. split; [done|]. cbn [ExpiresAt].
  apply validateTokenResponse_None in Hv as (_ & Hpos & _).
  unfold time_Second. split.
  - intros Hle. rewrite wrap64_small by lia. lia.
  - intros [Hlo Hhi]. rewrite wrap64_over by lia. lia.
Qed.

(** The answer of a server that grants a token for 300 years. *)
Definition world_long_lived : World :=
  {| files := ∅; clock := 1700000000000000000; plan := []; log := [];
     network := λ _, Response 200 (JSONText (JObject
       [("access_token", JString "a-long-enough-token");
        ("token_type", JString "Bearer");
        ("expires_in", JNumber (JInt 9460800000))])) |}.

Definition test_acfg : AuthConfig :=
  {| config := test_cfg "client-a";
     redirectURI := "http://localhost:8888/callback";
     scope := "read write"; callbackPort := 8888 |}.

Lemma exchangeCode_expiry_witness :
  ∃ st, (exchangeCode test_acfg "mycode" "verifier" world_long_lived).1 = inl st ∧
    (9460800000 <= 9223372036 →
     ExpiresAt st = clock world_long_lived + 9460800000 * 1000000000 ∧
     clock world_long_lived < ExpiresAt st) ∧
    (9223372036 < 9460800000 <= 18446744073 →
     ExpiresAt st < clock world_long_lived).
Proof.
  apply (exchangeCode_expiry test_acfg "mycode" "verifier" world_long_lived
           (JSONText (JObject
              [("access_token", JString "a-long-enough-token");
               ("token_type", JString "Bearer");
               ("expires_in", JNumber (JInt 9460800000))]))
           {| exchangeResp.AccessToken := "a-long-enough-token";
              exchangeResp.RefreshToken := ""; exchangeResp.TokenType := "Bearer";
              exchangeResp.ExpiresIn := 9460800000; exchangeResp.Scope := "" |}).
  - reflexivity.
  - vm_compute. reflexivity.
  - vm_compute. reflexivity.
Defined.

Example long_lived_token_is_born_expired :
  match (exchangeCode test_acfg "mycode" "verifier" world_long_lived).1 with
  | inl st => Some (ExpiresAt st)
  | inr _ => None
  end = Some (1700000000000000000 - 8985944073709551616).
Proof. vm_compute. reflexivity. Qed.

(** X16. For an answer with a status other than 200, exchangeCode returns
    the OAuth error of the body only when the body decodes and names a
    non-empty error code, and the status with the body in every other
    case; it never returns ErrRefreshTokenExpired.  verifyToken and
    refreshAccessToken do not check the code: for a body that decodes
    without an error code (an empty object, null) they return an OAuth
    error with an empty code and leave out the status. *)
Theorem error_answers `{TimeCodec} acfg code codeVerifier refreshToken accessToken
    w status body :
  status ≠ 200 →
  (network w (exchangeRequest acfg code codeVerifier) = Response status body →
   (exchangeCode acfg code codeVerifier w).1
   = inr (match json_Unmarshal_ErrorResponse body with
          | inl errResp =>
              if decide (Error errResp = "") then ErrExchangeStatus status body
              else Plain (ErrOAuth (Error errResp) (ErrorDescription errResp))
          | inr _ => ErrExchangeStatus status body
          end) ∧
   (exchangeCode acfg code codeVerifier w).1 ≠ inr (Plain ErrRefreshTokenExpired) ∧
   ∀ d, (exchangeCode acfg code codeVerifier w).1 ≠ inr (Plain (ErrOAuth "" d))) ∧
  (network w (tokeninfoRequest (config acfg) accessToken) = Response status body →
   (verifyToken acfg accessToken w).1
   = Some (match json_Unmarshal_ErrorResponse body with
           | inl errResp => Plain (ErrOAuth (Error errResp) (ErrorDescription errResp))
           | inr _ => ErrServerStatus status body
           end)) ∧
  (network w (refreshRequest (config acfg) refreshToken) = Response status body →
   ∀ errResp, json_Unmarshal_ErrorResponse body = inl errResp →
   Error errResp = "" →
   (refreshAccessToken (config acfg) refreshToken w).1
   = inr (ErrOAuth "" (ErrorDescription errResp))).
Proof.
  intros Hs. split; [|split].
  - intros Hnet. rewrite exchangeCode_result, Hnet. rewrite decide_True by done.
    destruct (json_Unmarshal_ErrorResponse body) as [errResp|]; [|done].
    destruct (decide (Error errResp = "")) as [He|He].
    + rewrite decide_False by (by intros []). done.
    + rewrite decide_True by done. split; [done|]. split; [done|].
      intros d [= Hd _]. done.
  - intros Hnet. unfold verifyToken, bind, http_Do, ret. cbn [fst snd].
    rewrite Hnet. rewrite decide_True by done.
    by destruct (json_Unmarshal_ErrorResponse body).
  - intros Hnet errResp Hd He. rewrite refreshAccessToken_result, Hnet.
    rewrite decide_True by done. rewrite Hd, He.
    rewrite decide_False by (by intros [|]). done.
Qed.

Lemma error_answers_witness :
  let w := {| files := ∅; clock := 0; plan := []; log := [];
              network := λ _, Response 400 (JSONText (JObject [])) |} in
  let body := JSONText (JObject []) in
  (network w (exchangeRequest test_acfg "mycode" "verifier") = Response 400 body →
   (exchangeCode test_acfg "mycode" "verifier" w).1
   = inr (match json_Unmarshal_ErrorResponse body with
          | inl errResp =>
              if decide (Error errResp = "") then ErrExchangeStatus 400 body
              else Plain (ErrOAuth (Error errResp) (ErrorDescription errResp))
          | inr _ => ErrExchangeStatus 400 body
          end) ∧
   (exchangeCode test_acfg "mycode" "verifier" w).1 ≠ inr (Plain ErrRefreshTokenExpired) ∧
   ∀ d, (exchangeCode test_acfg "mycode" "verifier" w).1 ≠ inr (Plain (ErrOAuth "" d))) ∧
  (network w (tokeninfoRequest (config test_acfg) "token") = Response 400 body →
   (verifyToken test_acfg "token" w).1
   = Some (match json_Unmarshal_ErrorResponse body with
           | inl errResp => Plain (ErrOAuth (Error errResp) (ErrorDescription errResp))
           | inr _ => ErrServerStatus 400 body
           end)) ∧
  (network w (refreshRequest (config test_acfg) "old") = Response 400 body →
   ∀ errResp, json_Unmarshal_ErrorResponse body = inl errResp →
   Error errResp = "" →
   (refreshAccessToken (config test_acfg) "old" w).1
   = inr (ErrOAuth "" (ErrorDescription errResp))).
Proof.
  cbn zeta.
  apply (error_answers test_acfg "mycode" "verifier" "old" "token"). done.
Defined.

Example empty_error_object :
  let w := {| files := ∅; clock := 0; plan := []; log := [];
              network := λ _, Response 400 (JSONText (JObject [])) |} in
  (exchangeCode test_acfg "mycode" "verifier" w).1
  = inr (ErrExchangeStatus 400 (JSONText (JObject []))) ∧
  (verifyToken test_acfg "token" w).1 = Some (Plain (ErrOAuth "" "")).
Proof. vm_compute. done. Qed.

(** X17. verifyToken makes exactly one call, its HTTP step with the
    request for the token information and the access token as bearer
    (the request is built, handed to retryClient.DoWithContext, which
    may send it to the server more than once, and the body is read), and
    changes no file; it returns nil exactly when the answer
    the client hands back has status 200 and its body could be read. *)
Theorem verifyToken_spec acfg accessToken w :
  let req := tokeninfoRequest (config acfg) accessToken in
  let r := verifyToken acfg accessToken w in
  files r.2 = files w ∧ log r.2 = log w ++ [EvHTTP req] ∧
  req_header req = [("Authorization", "Bearer " +:+ accessToken)] ∧
  (r.1 = None ↔ ∃ body, network w req = Response 200 body).
Proof.
  cbn zeta. unfold verifyToken, bind, http_Do, ret. cbn [fst snd].
  destruct (network w (tokeninfoRequest (config acfg) accessToken))
    as [| | |status body]; cbn [fst snd files log];
    try (do 3 (split; [done|]); split; [done|by intros [? ?]]).
  destruct (decide (status ≠ 200)) as [Hs|Hs].
  - destruct (json_Unmarshal_ErrorResponse body); cbn [fst snd files log];
      (do 3 (split; [done|]); split; [done|]); intros [b [= -> _]]; done.
  - cbn [fst snd files log]. do 3 (split; [done|]). split; [|done].
    intros _. exists body. destruct (decide (status = 200)) as [->|]; done.
Qed.


(** ** generateState, and the alphabet of the verifier (pkce.go) *)

(** The errors of the authorization flow that wrap others, and the one of
    generateState. *)
Inductive listenerError :=
  (* "failed to start callback server on port %d: %w" *)
  | ErrListen (port : Z) (cause : error)
  (* the errors of the callback, of the context and of the timeout *)
  | ErrCallback (cause : Callback.callbackError).

Inductive authError :=
  (* generateState: "failed to generate state: %w" *)
  | ErrGenerateState (cause : error)
  (* performAuthCodeFlow: "failed to generate state: %w" *)
  | ErrFlowState (cause : authError)
  (* performAuthCodeFlow: "failed to generate PKCE: %w" *)
  | ErrFlowPKCE (cause : error)
  (* performAuthCodeFlow: "authorization failed: %w" *)
  | ErrAuthorizationFailed (cause : listenerError)
  (* performAuthCodeFlow: "token exchange failed: %w" *)
  | ErrTokenExchangeFailed (cause : flowError).

(** generateState generates a random state value for CSRF protection:
    [rand.Read(b)] on the buffer [b := make([]byte, 16)] is either an
    error or the buffer as the entropy source filled it. *)
Definition generateState (read : list byte + error) : string + authError :=
  match read with
  | inr err => inr (ErrGenerateState err)
  | inl b => inl (RawURLEncoding_EncodeToString b)
  end.

(** The characters the tests allow in a verifier: A-Z a-z 0-9 - _ *)
Definition allowed (c : ascii) : bool :=
  let n := nat_of_ascii c in
  ((65 <=? n) && (n <=? 90) || (97 <=? n) && (n <=? 122)
   || (48 <=? n) && (n <=? 57) || (n =? 45) || (n =? 95))%nat.

Fixpoint all_chars (P : ascii → bool) (s : string) : bool :=
  match s with
  | EmptyString => true
  | String c rest => P c && all_chars P rest
  end.

Lemma all_chars_get P s k c :
  all_chars P s = true → String.get k s = Some c → P c = true.
Proof.
  revert k. induction s as [|a s IH]; intros k Hall Hget; [done|].
  cbn [all_chars] in Hall. apply andb_true_iff in Hall as [Ha Hs].
  destruct k as [|k]; cbn in Hget; [by simplify_eq|by eapply IH].
Qed.

Lemma b64digit_allowed v : allowed (b64digit v) = true.
Proof.
  unfold b64digit.
  destruct (String.get _ encodeURL) as [c|] eqn:Hget; [|done].
  eapply (all_chars_get allowed encodeURL); [by vm_compute|done].
Qed.

Lemma RawURLEncoding_allowed (src : list byte) :
  all_chars allowed (RawURLEncoding_EncodeToString src) = true.
Proof.
  induction src as [|a|a b|a b c l IH] using list_ind_by_three.
  - done.
  - cbn [RawURLEncoding_EncodeToString all_chars]. by rewrite !b64digit_allowed.
  - cbn [RawURLEncoding_EncodeToString all_chars]. by rewrite !b64digit_allowed.
  - cbn [RawURLEncoding_EncodeToString all_chars]. by rewrite !b64digit_allowed, IH.
Qed.

(** X18. When the entropy source fills the 16-byte buffer, generateState
    returns a state of 22 characters, all of them letters, digits, '-' or
    '_' (no padding, nothing a URL would need escaped); when the source
    fails, it returns that error wrapped.  The verifier and the challenge
    of GeneratePKCE consist of the same characters. *)
Theorem generateState_spec (b : list byte) :
  length b = 16%nat →
  (∃ state, generateState (inl b) = inl state ∧
            String.length state = 22%nat ∧ all_chars allowed state = true) ∧
  (∀ err, generateState (inr err) = inr (ErrGenerateState err)) ∧
  (∀ b32 p, GeneratePKCE (inl b32) = inl p →
     all_chars allowed (Verifier p) = true ∧
     all_chars allowed (Challenge p) = true).
Proof.
  intros Hlen. split; [|split].
  - eexists. split; [done|]. split; [|apply RawURLEncoding_allowed].
    by rewrite RawURLEncoding_length, Hlen.
  - done.
  - intros b32 p [= <-]. cbn [Verifier Challenge].
    split; apply RawURLEncoding_allowed.
Qed.

Lemma generateState_spec_witness :
  (∃ state, generateState (inl (repeat Byte.x2a 16)) = inl state ∧
            String.length state = 22%nat ∧ all_chars allowed state = true) ∧
  (∀ err, generateState (inr err) = inr (ErrGenerateState err)) ∧
  (∀ b32 p, GeneratePKCE (inl b32) = inl p →
     all_chars allowed (Verifier p) = true ∧
     all_chars allowed (Challenge p) = true).
Proof. apply (generateState_spec (repeat Byte.x2a 16)). reflexivity. Defined.

Example generateState_example :
  generateState (inl (repeat Byte.x2a 16)) = inl "KioqKioqKioqKioqKioqKg".
Proof. vm_compute. reflexivity. Qed.


(** *** The encoding loses nothing *)

Lemma lor_shiftl_add (a b k : N) :
  (b < 2 ^ k)%N → N.lor (N.shiftl a k) b = (a * 2 ^ k + b)%N.
Proof.
  intros Hb. rewrite <- N.shiftl_mul_pow2.
  assert (Hland : N.land (N.shiftl a k) b = 0%N).
  { apply N.bits_inj_0. intros n. rewrite N.land_spec.
    destruct (N.ltb_spec n k) as [Hlt|Hge].
    - by rewrite N.shiftl_spec_low.
    - destruct (decide (b = 0%N)) as [->|Hnz].
      + by rewrite N.bits_0, andb_false_r.
      + rewrite (N.bits_above_log2 b n), andb_false_r; [done|].
        eapply N.lt_le_trans; [|done]. apply N.log2_lt_pow2; lia. }
  by rewrite N.add_nocarry_lxor, N.lxor_lor.
Qed.

Local Open Scope N_scope.

(** Three bytes as one 24-bit number, as the encoder builds it. *)
Lemma pack3 (b0 b1 b2 : byte) :
  N.lor (N.lor (N.shiftl (Byte.to_N b0) 16) (N.shiftl (Byte.to_N b1) 8))
        (Byte.to_N b2)
  = Byte.to_N b0 * 65536 + Byte.to_N b1 * 256 + Byte.to_N b2.
Proof.
  pose proof (Byte.to_N_bounded b0). pose proof (Byte.to_N_bounded b1).
  pose proof (Byte.to_N_bounded b2).
  replace (N.shiftl (Byte.to_N b0) 16)
    with (N.shiftl (N.shiftl (Byte.to_N b0) 8) 8)
    by (by rewrite N.shiftl_shiftl).
  rewrite <- N.shiftl_lor.
  rewrite (lor_shiftl_add (Byte.to_N b0) (Byte.to_N b1) 8) by (simpl; lia).
  rewrite lor_shiftl_add by (simpl; lia).
  change (2 ^ 8) with 256. lia.
Qed.

Lemma pack2 (b0 b1 : byte) :
  N.lor (N.shiftl (Byte.to_N b0) 16) (N.shiftl (Byte.to_N b1) 8)
  = Byte.to_N b0 * 65536 + Byte.to_N b1 * 256.
Proof.
  pose proof (Byte.to_N_bounded b0). pose proof (Byte.to_N_bounded b1).
  replace (N.shiftl (Byte.to_N b0) 16)
    with (N.shiftl (N.shiftl (Byte.to_N b0) 8) 8)
    by (by rewrite N.shiftl_shiftl).
  rewrite <- N.shiftl_lor.
  rewrite (lor_shiftl_add (Byte.to_N b0) (Byte.to_N b1) 8) by (simpl; lia).
  rewrite N.shiftl_mul_pow2. change (2 ^ 8) with 256. lia.
Qed.

(** The place of a digit in the alphabet. *)
Fixpoint index_of (c : ascii) (s : string) : nat :=
  match s with
  | EmptyString => 0
  | String a rest => if Ascii.eqb a c then 0 else S (index_of c rest)
  end.

Definition b64value (c : ascii) : N := N.of_nat (index_of c encodeURL).

Lemma b64value_b64digit (v : N) : b64value (b64digit v) = N.land v 63.
Proof.
  assert (Hall : forallb (λ k, b64value (b64digit (N.of_nat k)) =? N.of_nat k)
                   (seq 0 64) = true) by (by vm_compute).
  rewrite forallb_forall in Hall.
  assert (Hlt : N.land v 63 < 64).
  { change 63 with (N.ones 6). rewrite N.land_ones. by apply N.mod_lt. }
  specialize (Hall (N.to_nat (N.land v 63))).
  rewrite N2Nat.id in Hall.
  assert (Hd : b64digit (N.land v 63) = b64digit v).
  { unfold b64digit. by rewrite <- N.land_assoc, N.land_diag. }
  rewrite Hd in Hall. apply N.eqb_eq, Hall, in_seq. lia.
Qed.

Lemma b64digit_inj (x y : N) :
  b64digit x = b64digit y → x mod 64 = y mod 64.
Proof.
  intros Heq. apply (f_equal b64value) in Heq.
  rewrite !b64value_b64digit in Heq.
  change 63 with (N.ones 6) in Heq. by rewrite !N.land_ones in Heq.
Qed.

Lemma to_N_inj (a b : byte) : Byte.to_N a = Byte.to_N b → a = b.
Proof.
  intros Heq. pose proof (Byte.of_to_N a) as Ha.
  rewrite Heq, Byte.of_to_N in Ha. by simplify_eq.
Qed.

Lemma String_eq_inv (a b : ascii) (s t : string) :
  String a s = String b t → a = b ∧ s = t.
Proof. by intros [= -> ->]. Qed.

Ltac digits :=
  repeat match goal with
  | H : String _ _ = String _ _ |- _ =>
      apply String_eq_inv in H; destruct H as [? ?]
  end;
  repeat match goal with
  | H : b64digit _ = b64digit _ |- _ =>
      apply b64digit_inj in H; rewrite ?N.shiftr_div_pow2 in H
  end.

Lemma div_mod_eq (a b k : N) :
  k ≠ 0 → a / k = b / k → a mod k = b mod k → a = b.
Proof.
  intros Hk Hd Hm. rewrite (N.div_mod a k), (N.div_mod b k) by done.
  by rewrite Hd, Hm.
Qed.

(** A number below 2^24 is given by its four 6-bit digits, and so are its
    upper 12 and its upper 18 bits by the first two and three of them. *)
Lemma sextets_12 (v v' : N) :
  v < 2 ^ 24 → v' < 2 ^ 24 →
  (v / 2 ^ 18) mod 64 = (v' / 2 ^ 18) mod 64 →
  (v / 2 ^ 12) mod 64 = (v' / 2 ^ 12) mod 64 →
  v / 2 ^ 12 = v' / 2 ^ 12.
Proof.
  intros Hv Hv' H18 H12.
  assert (v / 2 ^ 18 < 64) by (apply N.Div0.div_lt_upper_bound; exact Hv).
  assert (v' / 2 ^ 18 < 64) by (apply N.Div0.div_lt_upper_bound; exact Hv').
  rewrite !N.mod_small in H18 by done.
  apply (div_mod_eq _ _ 64); [done| |done].
  rewrite !N.Div0.div_div. exact H18.
Qed.

Lemma sextets_6 (v v' : N) :
  v < 2 ^ 24 → v' < 2 ^ 24 →
  (v / 2 ^ 18) mod 64 = (v' / 2 ^ 18) mod 64 →
  (v / 2 ^ 12) mod 64 = (v' / 2 ^ 12) mod 64 →
  (v / 2 ^ 6) mod 64 = (v' / 2 ^ 6) mod 64 →
  v / 2 ^ 6 = v' / 2 ^ 6.
Proof.
  intros Hv Hv' H18 H12 H6.
  apply (div_mod_eq _ _ 64); [done| |done].
  rewrite !N.Div0.div_div. by apply sextets_12.
Qed.

Lemma sextets_0 (v v' : N) :
  v < 2 ^ 24 → v' < 2 ^ 24 →
  (v / 2 ^ 18) mod 64 = (v' / 2 ^ 18) mod 64 →
  (v / 2 ^ 12) mod 64 = (v' / 2 ^ 12) mod 64 →
  (v / 2 ^ 6) mod 64 = (v' / 2 ^ 6) mod 64 →
  v mod 64 = v' mod 64 →
  v = v'.
Proof.
  intros Hv Hv' H18 H12 H6 H0.
  apply (div_mod_eq _ _ 64); [done| |done]. by apply sextets_6.
Qed.

Lemma RawURLEncoding_inj (b1 b2 : list byte) :
  RawURLEncoding_EncodeToString b1 = RawURLEncoding_EncodeToString b2 → b1 = b2.
Proof.
  revert b2.
  induction b1 as [|a|a b|a b c l IH] using list_ind_by_three;
    intros [|a' [|b' [|c' l']]]; cbn [RawURLEncoding_EncodeToString];
    try done; intros Hd.
  - pose proof (Byte.to_N_bounded a). pose proof (Byte.to_N_bounded a').
    digits. rewrite !N.shiftl_mul_pow2 in *.
    change (2 ^ 16) with 65536 in *.
    assert (Hq : Byte.to_N a * 65536 / 2 ^ 12 = Byte.to_N a' * 65536 / 2 ^ 12).
    { apply sextets_12; try done; change (2 ^ 24) with 16777216; lia. }
    replace (Byte.to_N a * 65536) with (Byte.to_N a * 16 * 2 ^ 12) in Hq
      by (change (2 ^ 12) with 4096; lia).
    replace (Byte.to_N a' * 65536) with (Byte.to_N a' * 16 * 2 ^ 12) in Hq
      by (change (2 ^ 12) with 4096; lia).
    rewrite !N.div_mul in Hq by done.
    f_equal. apply to_N_inj. lia.
  - pose proof (Byte.to_N_bounded a). pose proof (Byte.to_N_bounded a').
    pose proof (Byte.to_N_bounded b). pose proof (Byte.to_N_bounded b').
    digits. rewrite !pack2 in *.
    assert (Hq : (Byte.to_N a * 65536 + Byte.to_N b * 256) / 2 ^ 6
                 = (Byte.to_N a' * 65536 + Byte.to_N b' * 256) / 2 ^ 6).
    { apply sextets_6; try done; change (2 ^ 24) with 16777216; lia. }
    replace (Byte.to_N a * 65536 + Byte.to_N b * 256)
      with ((Byte.to_N a * 1024 + Byte.to_N b * 4) * 2 ^ 6) in Hq
      by (change (2 ^ 6) with 64; lia).
    replace (Byte.to_N a' * 65536 + Byte.to_N b' * 256)
      with ((Byte.to_N a' * 1024 + Byte.to_N b' * 4) * 2 ^ 6) in Hq
      by (change (2 ^ 6) with 64; lia).
    rewrite !N.div_mul in Hq by done.
    assert (Byte.to_N a = Byte.to_N a' ∧ Byte.to_N b = Byte.to_N b') as [Ha Hb] by lia.
    apply to_N_inj in Ha, Hb. by subst.
  - pose proof (Byte.to_N_bounded a). pose proof (Byte.to_N_bounded a').
    pose proof (Byte.to_N_bounded b). pose proof (Byte.to_N_bounded b').
    pose proof (Byte.to_N_bounded c). pose proof (Byte.to_N_bounded c').
    digits. rewrite !pack3 in *.
    assert (Hq : Byte.to_N a * 65536 + Byte.to_N b * 256 + Byte.to_N c
                 = Byte.to_N a' * 65536 + Byte.to_N b' * 256 + Byte.to_N c').
    { apply sextets_0; try done; change (2 ^ 24) with 16777216; lia. }
    assert (Byte.to_N a = Byte.to_N a' ∧ Byte.to_N b = Byte.to_N b' ∧
            Byte.to_N c = Byte.to_N c') as (Ha & Hb & Hc) by lia.
    apply to_N_inj in Ha, Hb, Hc. subst. f_equal. f_equal. f_equal. by apply IH.
Qed.

Local Close Scope N_scope.

(** X19. The encoding of the random bytes loses nothing: two fillings of
    the buffer that differ give states that differ, and verifiers that
    differ, so a state or a verifier repeats only when the entropy source
    repeats itself. *)
Theorem random_values_distinct :
  (∀ b1 b2 : list byte,
     generateState (inl b1) = generateState (inl b2) → b1 = b2) ∧
  (∀ (b1 b2 : list byte) p1 p2,
     GeneratePKCE (inl b1) = inl p1 → GeneratePKCE (inl b2) = inl p2 →
     Verifier p1 = Verifier p2 → b1 = b2).
Proof.
  split.
  - intros b1 b2 [= Heq]. by apply RawURLEncoding_inj.
  - intros b1 b2 p1 p2 [= <-] [= <-]. cbn [Verifier]. apply RawURLEncoding_inj.
Qed.


(** ** net/url: the query of the authorization URL

    [url.Values] is a map from a key to its values; [Set] replaces the
    values of a key by one value; [Encode] writes the pairs with the keys
    sorted, key and value escaped by [QueryEscape] and the pairs joined by
    an ampersand.  [ParseQuery] is the inverse direction, as the callback
    handler uses it through [r.URL.Query()]: it returns the pairs in the
    order of the query and whether some pair was left out as malformed. *)

(** [shouldEscape(c, encodeQueryComponent)] is false for the unreserved
    characters only. *)
Definition unreserved (c : ascii) : bool :=
  let n := nat_of_ascii c in
  ((65 <=? n) && (n <=? 90) || (97 <=? n) && (n <=? 122)
   || (48 <=? n) && (n <=? 57)
   || (n =? 45) || (n =? 95) || (n =? 46) || (n =? 126))%nat.

Definition upperhex (n : nat) : ascii :=
  default "0"%char (String.get n "0123456789ABCDEF").

Definition escape_byte (c : ascii) : string :=
  if Ascii.eqb c " " then "+"
  else if unreserved c then String c ""
  else String "%" (String (upperhex (nat_of_ascii c / 16))
                     (String (upperhex (nat_of_ascii c mod 16)) "")).

Fixpoint QueryEscape (s : string) : string :=
  match s with
  | EmptyString => EmptyString
  | String c rest => escape_byte c +:+ QueryEscape rest
  end.

Definition url_Values := gmap string (list string).

Definition Values_Set (key value : string) (v : url_Values) : url_Values :=
  <[key := [value]]> v.

Definition keys_le (a b : string) : Prop := String.leb a b = true.

Global Instance keys_le_dec a b : Decision (keys_le a b).
Proof. unfold keys_le. apply _. Defined.

(** The pairs of the values, keys sorted, the values of a key in their
    order. *)
Definition Values_pairs (v : url_Values) : list (string * string) :=
  k ← merge_sort keys_le (map_to_list v).*1;
  (λ value, (k, value)) <$> default [] (v !! k).

Definition encode_pair (kv : string * string) : string :=
  QueryEscape kv.1 +:+ "=" +:+ QueryEscape kv.2.

Fixpoint join (sep : string) (l : list string) : string :=
  match l with
  | [] => ""
  | [s] => s
  | s :: rest => s +:+ sep +:+ join sep rest
  end.

Definition Values_Encode (v : url_Values) : string :=
  join "&" (encode_pair <$> Values_pairs v).

(** [ishex] and [unhex]. *)
Definition unhex (c : ascii) : option nat :=
  let n := nat_of_ascii c in
  if ((48 <=? n) && (n <=? 57))%nat then Some (n - 48)%nat
  else if ((97 <=? n) && (n <=? 102))%nat then Some (n - 97 + 10)%nat
  else if ((65 <=? n) && (n <=? 70))%nat then Some (n - 65 + 10)%nat
  else None.

(** [QueryUnescape]; [None] is the EscapeError for a percent sign that is
    not followed by two hexadecimal digits. *)
Fixpoint QueryUnescape (s : string) : option string :=
  match s with
  | EmptyString => Some EmptyString
  | String c rest =>
      if Ascii.eqb c "%" then
        match rest with
        | String h (String l rest') =>
            match unhex h, unhex l with
            | Some a, Some b =>
                String (ascii_of_nat (16 * a + b)) <$> QueryUnescape rest'
            | _, _ => None
            end
        | _ => None
        end
      else if Ascii.eqb c "+" then String " "%char <$> QueryUnescape rest
      else String c <$> QueryUnescape rest
  end.

(** [strings.Cut(s, sep)] for a separator of one byte: the text before the
    first separator and the text after it, or all of [s] and nothing. *)
Fixpoint Cut (sep : ascii) (s : string) : string * string :=
  match s with
  | EmptyString => (EmptyString, EmptyString)
  | String c rest =>
      if Ascii.eqb c sep then (EmptyString, rest)
      else let (before, after) := Cut sep rest in (String c before, after)
  end.

Fixpoint contains (c : ascii) (s : string) : bool :=
  match s with
  | EmptyString => false
  | String a rest => Ascii.eqb a c || contains c rest
  end.

(** The segments between the ampersands: the keys that the loop of
    parseQuery cuts off one after the other. *)
Fixpoint segments (s : string) : list string :=
  match s with
  | EmptyString => [EmptyString]
  | String c rest =>
      if Ascii.eqb c "&" then EmptyString :: segments rest
      else match segments rest with
           | seg :: more => String c seg :: more
           | [] => [String c EmptyString]
           end
  end.

(** One round of the loop of parseQuery: [acc.2] says whether an error
    has been met. *)
Definition parse_segment (acc : Callback.Values * bool) (key : string)
    : Callback.Values * bool :=
  if contains ";" key then (acc.1, true)
  else if decide (key = "") then acc
  else
    let (k, value) := Cut "=" key in
    match QueryUnescape k with
    | None => (acc.1, true)
    | Some k =>
        match QueryUnescape value with
        | None => (acc.1, true)
        | Some value => (acc.1 ++ [(k, value)], acc.2)
        end
    end.

Definition ParseQuery (query : string) : Callback.Values * bool :=
  fold_left parse_segment (segments query) ([], false).

(** [r.URL.Query()] drops the error. *)
Definition URL_Query (rawQuery : string) : Callback.Values := (ParseQuery rawQuery).1.

Section AuthURL.
Context (acfg : AuthConfig).

(** buildAuthURL constructs the /oauth/authorize URL with all required
    parameters. *)
Definition authParams (state : string) (pkce : PKCEParams) : url_Values :=
  Values_Set "code_challenge_method" (Method pkce)
    (Values_Set "code_challenge" (Challenge pkce)
      (Values_Set "state" state
        (Values_Set "scope" (scope acfg)
          (Values_Set "response_type" "code"
            (Values_Set "redirect_uri" (redirectURI acfg)
              (Values_Set "client_id" (clientID (config acfg)) ∅)))))).

Definition buildAuthURL (state : string) (pkce : PKCEParams) : string :=
  serverURL (config acfg) +:+ "/oauth/authorize?"
  +:+ Values_Encode (authParams state pkce).

End AuthURL.

(** TestBuildAuthURL_ContainsRequiredParams. *)
Example buildAuthURL_example :
  buildAuthURL
    {| config := {| serverURL := "http://localhost:8080"; clientID := "my-client-id";
                    clientSecret := ""; tokenFile := "tokens.json"; pid := 1 |};
       redirectURI := "http://localhost:8888/callback"; scope := "read write";
       callbackPort := 8888 |}
    "random-state"
    {| Verifier := "test-verifier"; Challenge := "test-challenge"; Method := "S256" |}
  = "http://localhost:8080/oauth/authorize?client_id=my-client-id&code_challenge=test-challenge&code_challenge_method=S256&redirect_uri=http%3A%2F%2Flocalhost%3A8888%2Fcallback&response_type=code&scope=read+write&state=random-state".
Proof. vm_compute. reflexivity. Qed.

Example ParseQuery_examples :
  ParseQuery "code=mycode&state=test-state-double"
  = ([("code", "mycode"); ("state", "test-state-double")], false) ∧
  ParseQuery "error=access_denied&error_description=User+denied&state=s"
  = ([("error", "access_denied"); ("error_description", "User denied");
      ("state", "s")], false) ∧
  ParseQuery "a=1&&b=%zz&c;d=2&e" = ([("a", "1"); ("e", "")], true) ∧
  ParseQuery "" = ([], false).
Proof. vm_compute. done. Qed.


(** *** What is encoded parses back *)

Lemma all_chars_app P s t :
  all_chars P (s +:+ t) = all_chars P s && all_chars P t.
Proof.
  induction s as [|c s IH]; [done|].
  change (String c s +:+ t) with (String c (s +:+ t)).
  cbn [all_chars]. by rewrite IH, andb_assoc.
Qed.

(** The characters of an escaped text. *)
Definition escaped (c : ascii) : bool :=
  unreserved c || Ascii.eqb c "+" || Ascii.eqb c "%".

Lemma upperhex_unreserved n : unreserved (upperhex n) = true.
Proof.
  unfold upperhex.
  destruct (String.get n "0123456789ABCDEF") as [c|] eqn:Hget; [|done].
  eapply (all_chars_get unreserved "0123456789ABCDEF"); [by vm_compute|done].
Qed.

Lemma escape_byte_escaped c : all_chars escaped (escape_byte c) = true.
Proof.
  unfold escape_byte. destruct (Ascii.eqb c " "); [done|].
  destruct (unreserved c) eqn:Hc.
  - cbn [all_chars]. unfold escaped. by rewrite Hc.
  - cbn [all_chars]. unfold escaped at 2 3. by rewrite !upperhex_unreserved.
Qed.

Lemma QueryEscape_escaped s : all_chars escaped (QueryEscape s) = true.
Proof.
  induction s as [|c s IH]; [done|].
  cbn [QueryEscape]. by rewrite all_chars_app, escape_byte_escaped, IH.
Qed.

Lemma escaped_not_contains sep s :
  escaped sep = false → all_chars escaped s = true → contains sep s = false.
Proof.
  intros Hsep. induction s as [|c s IH]; [done|].
  cbn [all_chars contains]. intros [Hc Hs]%andb_true_iff.
  rewrite IH by done. rewrite orb_false_r.
  destruct (Ascii.eqb_spec c sep) as [->|]; [congruence|done].
Qed.

Lemma contains_app c s t : contains c (s +:+ t) = contains c s || contains c t.
Proof.
  induction s as [|a s IH]; [done|].
  change (String a s +:+ t) with (String a (s +:+ t)).
  cbn [contains]. by rewrite IH, orb_assoc.
Qed.

Lemma QueryUnescape_escape_byte c t :
  QueryUnescape (escape_byte c +:+ t) = String c <$> QueryUnescape t.
Proof. destruct c as [[] [] [] [] [] [] [] []]; reflexivity. Qed.

Lemma QueryUnescape_QueryEscape s : QueryUnescape (QueryEscape s) = Some s.
Proof.
  induction s as [|c s IH]; [done|].
  cbn [QueryEscape]. by rewrite QueryUnescape_escape_byte, IH.
Qed.

Lemma Cut_app sep a b :
  contains sep a = false → Cut sep (a +:+ String sep b) = (a, b).
Proof.
  induction a as [|c a IH]; cbn [contains].
  - intros _. change ("" +:+ String sep b) with (String sep b).
    cbn [Cut]. by rewrite Ascii.eqb_refl.
  - intros [Hc Ha]%orb_false_iff.
    change (String c a +:+ String sep b) with (String c (a +:+ String sep b)).
    cbn [Cut]. by rewrite Hc, IH.
Qed.

Lemma segments_one a : contains "&" a = false → segments a = [a].
Proof.
  induction a as [|c a IH]; [done|]. cbn [contains segments].
  intros [Hc Ha]%orb_false_iff. by rewrite Hc, IH.
Qed.

Lemma segments_app a rest :
  contains "&" a = false →
  segments (a +:+ String "&" rest) = a :: segments rest.
Proof.
  induction a as [|c a IH]; [done|]. cbn [contains].
  intros [Hc Ha]%orb_false_iff.
  change (String c a +:+ String "&" rest) with (String c (a +:+ String "&" rest)).
  cbn [segments]. by rewrite Hc, IH.
Qed.

Lemma segments_join (segs : list string) :
  segs ≠ [] → Forall (λ seg, contains "&" seg = false) segs →
  segments (join "&" segs) = segs.
Proof.
  induction segs as [|seg [|seg' segs] IH]; [done| |].
  - intros _ [Hseg _]%Forall_cons. by apply segments_one.
  - intros _ [Hseg Hrest]%Forall_cons.
    change (join "&" (seg :: seg' :: segs))
      with (seg +:+ String "&" (join "&" (seg' :: segs))).
    rewrite segments_app by done. f_equal. by apply IH.
Qed.

Lemma encode_pair_clean sep kv :
  escaped sep = false → Ascii.eqb "=" sep = false →
  contains sep (encode_pair kv) = false.
Proof.
  intros Hsep Heq. unfold encode_pair. rewrite !contains_app.
  rewrite (escaped_not_contains sep (QueryEscape kv.1))
    by (try done; apply QueryEscape_escaped).
  rewrite (escaped_not_contains sep (QueryEscape kv.2))
    by (try done; apply QueryEscape_escaped).
  cbn [contains]. by rewrite Heq.
Qed.

Lemma parse_segment_encode_pair acc kv :
  parse_segment acc (encode_pair kv) = (acc.1 ++ [kv], acc.2).
Proof.
  unfold parse_segment. rewrite encode_pair_clean by done.
  rewrite decide_False.
  2:{ unfold encode_pair. intros Heq. apply (f_equal (contains "=")) in Heq.
      rewrite !contains_app in Heq. cbn in Heq. by rewrite orb_true_r in Heq. }
  unfold encode_pair.
  change (QueryEscape kv.1 +:+ "=" +:+ QueryEscape kv.2)
    with (QueryEscape kv.1 +:+ String "=" (QueryEscape kv.2)).
  rewrite Cut_app
    by (apply escaped_not_contains; [done|apply QueryEscape_escaped]).
  rewrite !QueryUnescape_QueryEscape. by destruct kv.
Qed.

Lemma fold_parse_segment pairs acc :
  fold_left parse_segment (encode_pair <$> pairs) acc = (acc.1 ++ pairs, acc.2).
Proof.
  revert acc. induction pairs as [|kv pairs IH]; intros acc.
  - cbn. rewrite app_nil_r. by destruct acc.
  - cbn [fmap list_fmap fold_left]. rewrite parse_segment_encode_pair, IH.
    cbn [fst snd]. by rewrite <- app_assoc.
Qed.

Lemma ParseQuery_join pairs :
  ParseQuery (join "&" (encode_pair <$> pairs)) = (pairs, false).
Proof.
  unfold ParseQuery. destruct pairs as [|kv pairs]; [done|].
  rewrite segments_join.
  - by rewrite fold_parse_segment.
  - done.
  - apply Forall_fmap, Forall_forall. intros kv' _. by apply encode_pair_clean.
Qed.

Lemma Get_pairs (v : url_Values) (keys : list string) (k : string) :
  Callback.Get (k' ← keys; (λ value, (k', value)) <$> default [] (v !! k')) k
  = if decide (k ∈ keys) then default "" (head (default [] (v !! k))) else "".
Proof.
  induction keys as [|k' keys IH]; [done|].
  cbn [mbind list_bind]. change (mbind ?f keys) with (keys ≫= f).
  assert (Hget : ∀ (vals : list string) rest,
    Callback.Get (((λ value, (k', value)) <$> vals) ++ rest) k
    = if decide (k' = k) then
        match vals with [] => Callback.Get rest k | x :: _ => x end
      else Callback.Get rest k).
  { intros vals rest. induction vals as [|x vals IHv]; csimpl.
    - by destruct (decide (k' = k)).
    - destruct (decide (k' = k)) as [?|Hne]; [done|].
      rewrite IHv. by destruct (decide (k' = k)). }
  rewrite Hget, IH. clear Hget IH.
  destruct (decide (k' = k)) as [->|Hne].
  - rewrite (decide_True (P := k ∈ k :: keys)) by (by left).
    destruct (default [] (v !! k)) as [|x vals]; [|done].
    by case_decide.
  - destruct (decide (k ∈ keys)) as [Hin|Hnin].
    + by rewrite decide_True by (by right).
    + rewrite decide_False; [done|]. by intros [?|?]%elem_of_cons.
Qed.

(** X20. The query that Values.Encode writes is read back by ParseQuery
    as the same pairs, with no pair left out, whatever bytes the keys and
    the values contain: QueryUnescape undoes QueryEscape, and an escaped
    text contains no ampersand, equals sign or semicolon.  Get then
    returns for every key its first value, or the empty string for a key
    without one. *)
Theorem query_roundtrip :
  (∀ s, QueryUnescape (QueryEscape s) = Some s) ∧
  (∀ s, contains "&" (QueryEscape s) = false ∧ contains "=" (QueryEscape s) = false ∧
        contains ";" (QueryEscape s) = false) ∧
  (∀ v : url_Values, ParseQuery (Values_Encode v) = (Values_pairs v, false)) ∧
  (∀ (v : url_Values) k,
     Callback.Get (URL_Query (Values_Encode v)) k
     = default "" (head (default [] (v !! k)))).
Proof.
  split; [apply QueryUnescape_QueryEscape|]. split.
  { intros s. repeat split;
      (apply escaped_not_contains; [done|apply QueryEscape_escaped]). }
  split; [intros v; apply ParseQuery_join|].
  intros v k. unfold URL_Query, Values_Encode. rewrite ParseQuery_join.
  cbn [fst]. unfold Values_pairs. rewrite Get_pairs.
  case_decide as Hin; [done|].
  destruct (v !! k) as [vals|] eqn:Hk; [|done].
  destruct Hin. rewrite merge_sort_Permutation.
  apply list_elem_of_fmap. exists (k, vals). split; [done|].
  by apply elem_of_map_to_list.
Qed.


Lemma escape_byte_allowed c : allowed c = true → escape_byte c = String c "".
Proof. destruct c as [[] [] [] [] [] [] [] []]; vm_compute; congruence. Qed.

Lemma QueryEscape_allowed s : all_chars allowed s = true → QueryEscape s = s.
Proof.
  induction s as [|c s IH]; [done|]. cbn [all_chars QueryEscape].
  intros [Hc Hs]%andb_true_iff. by rewrite escape_byte_allowed, IH.
Qed.

Lemma string_append_assoc (s t u : string) : (s +:+ t) +:+ u = s +:+ (t +:+ u).
Proof.
  induction s as [|c s IH]; [done|].
  change (String c s +:+ t) with (String c (s +:+ t)).
  change (String c (s +:+ t) +:+ u) with (String c ((s +:+ t) +:+ u)).
  by rewrite IH.
Qed.

Lemma authParams_pairs acfg state pkce :
  Values_pairs (authParams acfg state pkce)
  = [("client_id", clientID (config acfg)); ("code_challenge", Challenge pkce);
     ("code_challenge_method", Method pkce); ("redirect_uri", redirectURI acfg);
     ("response_type", "code"); ("scope", scope acfg); ("state", state)].
Proof. by vm_compute. Qed.

(** X21. The authorization URL is the server URL, the path
    /oauth/authorize and a query that parses to exactly seven parameters,
    each once: the client id, the code challenge and its method, the
    redirect URI, the response type "code", the scope and the state, with
    the values as configured and as given, whatever bytes they contain.
    A state and a challenge made of letters, digits, '-' and '_' stand in
    the URL as they are. *)
Theorem buildAuthURL_query acfg state pkce :
  ∃ query,
    buildAuthURL acfg state pkce
    = serverURL (config acfg) +:+ "/oauth/authorize?" +:+ query ∧
    ParseQuery query
    = ([("client_id", clientID (config acfg)); ("code_challenge", Challenge pkce);
        ("code_challenge_method", Method pkce); ("redirect_uri", redirectURI acfg);
        ("response_type", "code"); ("scope", scope acfg); ("state", state)],
       false) ∧
    (all_chars allowed state = true → all_chars allowed (Challenge pkce) = true →
     query
     = "client_id=" +:+ QueryEscape (clientID (config acfg))
       +:+ "&code_challenge=" +:+ Challenge pkce
       +:+ "&code_challenge_method=" +:+ QueryEscape (Method pkce)
       +:+ "&redirect_uri=" +:+ QueryEscape (redirectURI acfg)
       +:+ "&response_type=code"
       +:+ "&scope=" +:+ QueryEscape (scope acfg)
       +:+ "&state=" +:+ state).
Proof.
  exists (Values_Encode (authParams acfg state pkce)).
  split; [done|]. split.
  - unfold Values_Encode. by rewrite ParseQuery_join, authParams_pairs.
  - intros Hs Hc. unfold Values_Encode. rewrite authParams_pairs.
    cbn [fmap list_fmap join]. unfold encode_pair. cbn [fst snd].
    rewrite (QueryEscape_allowed state), (QueryEscape_allowed (Challenge pkce))
      by done.
    change (QueryEscape "client_id") with "client_id".
    change (QueryEscape "code_challenge") with "code_challenge".
    change (QueryEscape "code_challenge_method") with "code_challenge_method".
    change (QueryEscape "redirect_uri") with "redirect_uri".
    change (QueryEscape "response_type") with "response_type".
    change (QueryEscape "code") with "code".
    change (QueryEscape "scope") with "scope".
    change (QueryEscape "state") with "state".
    rewrite !string_append_assoc. reflexivity.
Qed.

(** A client id that tries to smuggle in a state of its own. *)
Example buildAuthURL_no_injection :
  let acfg := {| config := {| serverURL := "https://auth.example.com";
                              clientID := "id&state=evil"; clientSecret := "";
                              tokenFile := "tokens.json"; pid := 1 |};
                 redirectURI := "http://localhost:8888/callback";
                 scope := "read"; callbackPort := 8888 |} in
  let pkce := {| Verifier := "v"; Challenge := "c"; Method := "S256" |} in
  buildAuthURL acfg "good" pkce
  = "https://auth.example.com/oauth/authorize?client_id=id%26state%3Devil&code_challenge=c&code_challenge_method=S256&redirect_uri=http%3A%2F%2Flocalhost%3A8888%2Fcallback&response_type=code&scope=read&state=good".
Proof. vm_compute. reflexivity. Qed.


(** ** openBrowser (browser.go) and performAuthCodeFlow (main.go) *)

(** The command openBrowser starts, by [runtime.GOOS]. *)
Definition browserCommand (goos url : string) : list string :=
  if decide (goos = "darwin") then ["open"; url]
  else if decide (goos = "windows") then ["cmd"; "/c"; "start"; url]
  else ["xdg-open"; url].

(** What the flow shows to the outside, other than requests and file
    calls: the URL it prints, the command it starts for the browser, and
    the listener it starts. *)
Inductive FlowOutput :=
  | OutAuthURL (url : string)
  | OutStart (command : list string)
  | OutListen (port : Z) (expectedState : string).

(** What the flow gets from the outside, other than answers and files:
    the two fillings of the random buffers, the platform, whether the
    browser command starts ([cmd.Start]), and what the listener returns
    for a port and an expected state. *)
Record Outside := {
  rand_state : list byte + error;
  rand_pkce : list byte + error;
  goos : string;
  cmd_Start : list string → option error;
  startCallbackServer : Z → string → string + listenerError;
}.

(** openBrowser attempts to open url in the user's default browser: the
    command it starts, and the error of [cmd.Start] (which the caller only
    uses to choose a message). *)
Definition openBrowser (out : Outside) (url : string)
    : list string * option error :=
  let command := browserCommand (goos out) url in
  (command, cmd_Start out command).

Section Flow.
Context `{TimeCodec} (acfg : AuthConfig) (out : Outside).

(** performAuthCodeFlow runs the full Authorization Code Flow and returns
    tokens on success.  The messages it prints are left out, but for the
    authorization URL and the warning of a failed save. *)
Definition performAuthCodeFlow
    : M ((TokenStorage + authError) * list FlowOutput) :=
  match generateState (rand_state out) with
  | inr err => ret (inr (ErrFlowState err), [])
  | inl state =>
      match GeneratePKCE (rand_pkce out) with
      | inr err => ret (inr (ErrFlowPKCE err), [])
      | inl pkce =>
          let authURL := buildAuthURL acfg state pkce in
          let shown :=
            [OutAuthURL authURL; OutStart (openBrowser out authURL).1;
             OutListen (callbackPort acfg) state] in
          match startCallbackServer out (callbackPort acfg) state with
          | inr err => ret (inr (ErrAuthorizationFailed err), shown)
          | inl code =>
              let! storage := exchangeCode acfg code (Verifier pkce) in
              match storage with
              | inr err => ret (inr (ErrTokenExchangeFailed err), shown)
              | inl storage =>
                  let! saved := saveTokens (config acfg) storage in
                  let! _ := match saved.2 with
                            | Some err => print_warning err
                            | None => ret tt
                            end in
                  ret (inl saved.1, shown)
              end
          end
      end
  end.

(** The control flow of performAuthCodeFlow once the random values are
    there. *)
Lemma performAuthCodeFlow_eq w bs bp :
  rand_state out = inl bs → rand_pkce out = inl bp →
  let state := RawURLEncoding_EncodeToString bs in
  let verifier := RawURLEncoding_EncodeToString bp in
  let pkce :=
    {| Verifier := verifier;
       Challenge := RawURLEncoding_EncodeToString
                      (SHA256.Sum256 (String.list_byte_of_string verifier));
       Method := "S256" |} in
  let authURL := buildAuthURL acfg state pkce in
  let shown := [OutAuthURL authURL; OutStart (browserCommand (goos out) authURL);
                OutListen (callbackPort acfg) state] in
  performAuthCodeFlow w =
  match startCallbackServer out (callbackPort acfg) state with
  | inr err => ((inr (ErrAuthorizationFailed err), shown), w)
  | inl code =>
      let ex := exchangeCode acfg code verifier w in
      match ex.1 with
      | inr err => ((inr (ErrTokenExchangeFailed err), shown), ex.2)
      | inl storage =>
          let sv := saveTokens (config acfg) storage ex.2 in
          ((inl sv.1.1, shown),
           match sv.1.2 with
           | Some err => (print_warning err sv.2).2
           | None => sv.2
           end)
      end
  end.
Proof.
  intros Hs Hp. cbn zeta. unfold performAuthCodeFlow, generateState, GeneratePKCE.
  rewrite Hs, Hp. cbn [Verifier openBrowser fst].
  destruct (startCallbackServer out _ _) as [code|err]; [|done].
  unfold bind.
  destruct (exchangeCode acfg code _ w) as [[storage|err] w1]; cbn [fst snd];
    [|done].
  destruct (saveTokens (config acfg) storage w1) as [[st [err|]] w2];
    cbn [fst snd]; [|done].
  unfold ret. by destruct (print_warning err w2).
Qed.

End Flow.


Lemma exchangeCode_ClientID acfg code codeVerifier w st :
  (exchangeCode acfg code codeVerifier w).1 = inl st →
  ClientID st = clientID (config acfg).
Proof.
  rewrite exchangeCode_result. repeat case_match; try done. by intros [= <-].
Qed.

(** X22. performAuthCodeFlow ties its steps together.  With both random
    buffers filled it prints and opens one URL and then listens on the
    configured port, expecting the state that it has put into that URL.
    The query of the URL carries the state, the S256 challenge of the
    verifier (the digest of the verifier's characters, encoded without
    padding) and the configured client id and redirect URI.  When the
    listener returns a code, exactly one HTTP step follows (one call of
    the retrying client, which may send the request more than once): the
    exchange request with that code and with the verifier whose challenge
    is in the URL.  When the listener returns an error, that error is
    returned wrapped, and neither the HTTP client nor a file has been
    touched. *)
Theorem performAuthCodeFlow_binding `{TimeCodec} acfg out w bs bp :
  rand_state out = inl bs → rand_pkce out = inl bp →
  let state := RawURLEncoding_EncodeToString bs in
  let verifier := RawURLEncoding_EncodeToString bp in
  let challenge :=
    RawURLEncoding_EncodeToString
      (SHA256.Sum256 (String.list_byte_of_string verifier)) in
  let r := performAuthCodeFlow acfg out w in
  ∃ query,
    let authURL := serverURL (config acfg) +:+ "/oauth/authorize?" +:+ query in
    r.1.2 = [OutAuthURL authURL; OutStart (browserCommand (goos out) authURL);
             OutListen (callbackPort acfg) state] ∧
    Callback.Get (URL_Query query) "state" = state ∧
    Callback.Get (URL_Query query) "code_challenge" = challenge ∧
    Callback.Get (URL_Query query) "code_challenge_method" = "S256" ∧
    Callback.Get (URL_Query query) "client_id" = clientID (config acfg) ∧
    Callback.Get (URL_Query query) "redirect_uri" = redirectURI acfg ∧
    Callback.Get (URL_Query query) "response_type" = "code" ∧
    match startCallbackServer out (callbackPort acfg) state with
    | inl code =>
        let req := exchangeRequest acfg code verifier in
        client_calls (log r.2) = client_calls (log w) ++ [req] ∧
        Callback.Get (req_form req) "code" = code ∧
        Callback.Get (req_form req) "code_verifier" = verifier ∧
        Callback.Get (req_form req) "redirect_uri" = redirectURI acfg
    | inr err => r.1.1 = inr (ErrAuthorizationFailed err) ∧ r.2 = w
    end.
Proof.
  intros Hs Hp. cbn zeta.
  rewrite (performAuthCodeFlow_eq acfg out w bs bp Hs Hp). cbn zeta.
  set (state := RawURLEncoding_EncodeToString bs).
  set (verifier := RawURLEncoding_EncodeToString bp).
  set (pkce := {| Verifier := verifier; Challenge := _; Method := "S256" |}).
  exists (Values_Encode (authParams acfg state pkce)).
  assert (Hq : URL_Query (Values_Encode (authParams acfg state pkce))
               = Values_pairs (authParams acfg state pkce)).
  { unfold URL_Query, Values_Encode. by rewrite ParseQuery_join. }
  rewrite Hq, authParams_pairs. clear Hq.
  split.
  { by destruct (startCallbackServer out _ _) as [code|err];
      [destruct (exchangeCode acfg code verifier w).1|]. }
  do 6 (split; [done|]).
  destruct (startCallbackServer out _ _) as [code|err]; [|done].
  split.
  - pose proof (exchangeCode_world acfg code verifier w) as Hw.
    destruct (exchangeCode acfg code verifier w) as [[storage|err] w1];
      cbn [fst snd] in *; subst w1.
    + pose proof (no_call_saveTokens (config acfg) storage
                    (http_Do (exchangeRequest acfg code verifier) w).2) as Hsv.
      destruct (saveTokens _ _ _) as [[st [err|]] w2]; cbn [fst snd] in *.
      * unfold print_warning, emit. cbn [fst snd log].
        rewrite client_calls_app, Hsv, http_Do_calls. cbn. by rewrite app_nil_r.
      * by rewrite Hsv, http_Do_calls.
    + apply http_Do_calls.
  - unfold exchangeRequest. cbn [req_form]. by destruct (isPublicClient _).
Qed.

(** X23. performAuthCodeFlow returns a token set exactly when both random
    buffers were filled, the listener returned a code and exchangeCode
    returned a token set for that code and the verifier; the token set is
    the one exchangeCode returned, also when saving it failed (the failure
    is only printed).  Whenever it returns an error it has changed no
    file; when a random buffer could not be filled it has shown nothing
    and has made no call at all. *)
Theorem performAuthCodeFlow_result `{TimeCodec} acfg out w :
  let r := performAuthCodeFlow acfg out w in
  (∀ st, r.1.1 = inl st ↔
     ∃ bs bp code,
       rand_state out = inl bs ∧ rand_pkce out = inl bp ∧
       startCallbackServer out (callbackPort acfg) (RawURLEncoding_EncodeToString bs)
       = inl code ∧
       (exchangeCode acfg code (RawURLEncoding_EncodeToString bp) w).1 = inl st) ∧
  (∀ err, r.1.1 = inr err → files r.2 = files w) ∧
  (∀ err, rand_state out = inr err →
     r = ((inr (ErrFlowState (ErrGenerateState err)), []), w)) ∧
  (∀ bs err, rand_state out = inl bs → rand_pkce out = inr err →
     r = ((inr (ErrFlowPKCE (ErrRandomBytes err)), []), w)).
Proof.
  cbn zeta.
  destruct (rand_state out) as [bs|e1] eqn:Hs.
  2:{ unfold performAuthCodeFlow, generateState. rewrite Hs. cbn [ret fst snd].
      split; [|split; [done|split; [by intros ? [= <-]|done]]].
      intros st. split; [done|]. by intros (? & ? & ? & ? & _). }
  destruct (rand_pkce out) as [bp|e2] eqn:Hp.
  2:{ unfold performAuthCodeFlow, generateState, GeneratePKCE. rewrite Hs, Hp.
      cbn [ret fst snd].
      split; [|split; [done|split; [done|by intros ? ? _ [= <-]]]].
      intros st. split; [done|]. by intros (? & ? & ? & _ & ? & _). }
  rewrite (performAuthCodeFlow_eq acfg out w bs bp Hs Hp). cbn zeta.
  split; [|split; [|done]].
  - intros st.
    destruct (startCallbackServer out _ _) as [code|err] eqn:Hl; cbn [fst snd].
    2:{ split; [done|]. intros (bs' & bp' & code & [= <-] & _ & Hl' & _).
        by rewrite Hl in Hl'. }
    pose proof (exchangeCode_ClientID acfg code (RawURLEncoding_EncodeToString bp) w)
      as Hid.
    destruct (exchangeCode acfg code _ w) as [[storage|err] w1] eqn:Hex;
      cbn [fst snd] in *.
    + rewrite saveTokens_storage, (effective_own _ storage) by (by apply Hid).
      split.
      * intros [= <-]. exists bs, bp, code. by rewrite Hex.
      * intros (bs' & bp' & code' & [= <-] & [= <-] & Hl' & Hex').
        rewrite Hl in Hl'. simplify_eq. rewrite Hex in Hex'. cbn in Hex'. by simplify_eq.
    + split; [done|]. intros (bs' & bp' & code' & [= <-] & [= <-] & Hl' & Hex').
      rewrite Hl in Hl'. simplify_eq. rewrite Hex in Hex'. cbn in Hex'. by simplify_eq.
  - intros err.
    destruct (startCallbackServer out _ _) as [code|e] eqn:Hl; cbn [fst snd];
      [|done].
    pose proof (exchangeCode_world acfg code (RawURLEncoding_EncodeToString bp) w)
      as Hw.
    destruct (exchangeCode acfg code _ w) as [[storage|e] w1]; cbn [fst snd] in *;
      [done|]. intros _. by subst w1.
Qed.


(** A run of the flow: the browser comes back with the code, the server
    grants a token for an hour. *)
Definition test_out : Outside :=
  {| rand_state := inl (repeat Byte.x2a 16); rand_pkce := inl (repeat Byte.x2a 32);
     goos := "linux"; cmd_Start := λ _, None;
     startCallbackServer := λ _ _, inl "mycode" |}.

Definition world_granting : World :=
  {| files := ∅; clock := 1700000000000000000; plan := []; log := [];
     network := λ _, Response 200 (JSONText (JObject
       [("access_token", JString "a-long-enough-token");
        ("refresh_token", JString "a-refresh-token");
        ("token_type", JString "Bearer");
        ("expires_in", JNumber (JInt 3600));
        ("scope", JString "read write")])) |}.

Lemma performAuthCodeFlow_binding_witness :
  let r := performAuthCodeFlow test_acfg test_out world_granting in
  ∃ query,
    r.1.2 = [OutAuthURL ("http://localhost:8080" +:+ "/oauth/authorize?" +:+ query);
             OutStart (browserCommand "linux"
                         ("http://localhost:8080" +:+ "/oauth/authorize?" +:+ query));
             OutListen 8888 "KioqKioqKioqKioqKioqKg"] ∧
    Callback.Get (URL_Query query) "state" = "KioqKioqKioqKioqKioqKg" ∧
    client_calls (log r.2)
    = [exchangeRequest test_acfg "mycode"
         (RawURLEncoding_EncodeToString (repeat Byte.x2a 32))].
Proof.
  cbn zeta.
  destruct (performAuthCodeFlow_binding test_acfg test_out world_granting
              (repeat Byte.x2a 16) (repeat Byte.x2a 32) eq_refl eq_refl)
    as (query & Hshown & Hstate & _ & _ & _ & _ & _ & Hreq & _).
  exists query. split; [exact Hshown|]. split; [exact Hstate|exact Hreq].
Defined.

Example flow_saves_the_tokens :
  let r := performAuthCodeFlow test_acfg test_out world_granting in
  let st := {| AccessToken := "a-long-enough-token"; RefreshToken := "a-refresh-token";
               TokenType := "Bearer"; ExpiresAt := 1700003600000000000;
               ClientID := "client-a" |} in
  r.1.1 = inl st ∧ (loadTokens (test_cfg "client-a") r.2).1 = inl (Some st).
Proof. vm_compute. done. Qed.

(** The user denies the request in the browser. *)
Example flow_denied :
  let out := {| rand_state := inl (repeat Byte.x2a 16);
                rand_pkce := inl (repeat Byte.x2a 32);
                goos := "darwin"; cmd_Start := λ _, None;
                startCallbackServer := λ _ _,
                  inr (ErrCallback (Callback.CallbackFailed "access_denied"
                                      "User denied")) |} in
  let r := performAuthCodeFlow test_acfg out world_granting in
  r.1.1 = inr (ErrAuthorizationFailed
                 (ErrCallback (Callback.CallbackFailed "access_denied" "User denied")))
  ∧ r.2 = world_granting.
Proof. vm_compute. done. Qed.


(** ** Taking and releasing the lock; saving in a world left alone *)

Lemma release_alone lp w f :
  plan w = [] → files w !! lp = Some f →
  release {| lockFile := Some lp; lockPath := lp |} w
  = (None, {| files := delete lp (files w); clock := clock w; plan := [];
              log := log w ++ [EvClose lp; EvRemove lp None];
              network := network w |}).
Proof.
  destruct w as [fs clk pl lg net]. cbn [plan files clock log network].
  intros -> Hf.
  unfold release, File_Close, os_Remove, bind, enter, emit, get_files, set_files, ret.
  cbn. rewrite Hf. cbn. by rewrite <- app_assoc.
Qed.

(** X24. TestAcquireAndRelease: in a world left alone with no lock file,
    acquireFileLock takes the lock at the first attempt, creating the
    lock file with the process id in it, and release removes it again:
    the files are afterwards what they were before. *)
Theorem acquire_then_release pid filePath w :
  plan w = [] → files w !! (filePath +:+ ".lock") = None →
  let lp := filePath +:+ ".lock" in
  let a := acquireFileLock pid filePath w in
  a.1 = inl {| lockFile := Some lp; lockPath := lp |} ∧
  files a.2 !! lp = Some {| data := JSONText (JNumber (JInt pid));
                            mtime := clock w; mode := 384 |} ∧
  log a.2 = log w ++ [EvOpenExcl lp None; EvWritePid lp] ∧
  ∀ lock, a.1 = inl lock →
    (release lock a.2).1 = None ∧ files (release lock a.2).2 = files w.
Proof.
  intros Hplan Hfree. cbn zeta. unfold acquireFileLock.
  change maxRetries with (S 49).
  rewrite acquireFileLock_loop_free by done. cbn [fst snd files log].
  split; [done|]. split; [by rewrite lookup_insert_eq|]. split; [done|].
  intros lock [= <-].
  erewrite release_alone; [|done|cbn [files]; by rewrite lookup_insert_eq].
  cbn [fst snd files]. split; [done|].
  rewrite delete_insert_eq. by apply delete_id.
Qed.

Lemma acquire_then_release_witness :
  let a := acquireFileLock 4242 "tokens.json" empty_world in
  a.1 = inl {| lockFile := Some "tokens.json.lock"; lockPath := "tokens.json.lock" |} ∧
  files a.2 !! "tokens.json.lock"
  = Some {| data := JSONText (JNumber (JInt 4242)); mtime := clock empty_world;
            mode := 384 |} ∧
  log a.2 = log empty_world ++ [EvOpenExcl "tokens.json.lock" None;
                                EvWritePid "tokens.json.lock"] ∧
  ∀ lock, a.1 = inl lock →
    (release lock a.2).1 = None ∧ files (release lock a.2).2 = files empty_world.
Proof.
  apply (acquire_then_release 4242 "tokens.json" empty_world); reflexivity.
Defined.


Lemma saveTokens_alone_files (fs : gmap string File) (tok : string) (L T : File) :
  fs !! (tok +:+ ".lock") = None →
  delete (tok +:+ ".lock")
    (<[tok := T]> (delete (tok +:+ ".tmp")
                     (<[tok +:+ ".tmp" := T]> (<[tok +:+ ".lock" := L]> fs))))
  = <[tok := T]> (delete (tok +:+ ".tmp") fs).
Proof.
  intros Hfree.
  assert (Hl : tok +:+ ".lock" ≠ tok) by by apply string_append_ne.
  assert (Ht : tok +:+ ".tmp" ≠ tok) by by apply string_append_ne.
  assert (Hlt : tok +:+ ".lock" ≠ tok +:+ ".tmp").
  { intros Heq. apply (f_equal String.length) in Heq.
    revert Heq. clear. induction tok as [|a tok IH]; cbn; [done|]. intros [= Heq].
    auto. }
  apply map_eq. intros p.
  destruct (decide (p = tok +:+ ".lock")) as [->|Hp1].
  { rewrite lookup_delete_eq, lookup_insert_ne, lookup_delete_ne by done. by rewrite Hfree. }
  rewrite lookup_delete_ne by done.
  destruct (decide (p = tok)) as [->|Hp2].
  { by rewrite !lookup_insert_eq. }
  rewrite !(lookup_insert_ne _ tok) by done.
  destruct (decide (p = tok +:+ ".tmp")) as [->|Hp3].
  { by rewrite !lookup_delete_eq. }
  rewrite !lookup_delete_ne by done.
  by rewrite !lookup_insert_ne by done.
Qed.


Lemma os_ReadFile_alone p fs clk lg net :
  os_ReadFile p {| files := fs; clock := clk; plan := []; log := lg; network := net |}
  = let r := match fs !! p with
             | Some f => inl (data f)
             | None => inr (PathError "open" p ENOENT)
             end in
    (r, {| files := fs; clock := clk; plan := [];
           log := lg ++ [EvReadFile p (match r with inl _ => None | inr e => Some e end)];
           network := net |}).
Proof.
  unfold os_ReadFile, bind, enter, emit, get_files, ret. cbn.
  by destruct (fs !! p).
Qed.

Lemma os_WriteFile_alone p d perm fs clk lg net :
  os_WriteFile p d perm
    {| files := fs; clock := clk; plan := []; log := lg; network := net |}
  = (None,
     {| files := <[p := {| data := d; mtime := clk;
                           mode := match fs !! p with
                                   | Some f => mode f
                                   | None => perm
                                   end |}]> fs;
        clock := clk; plan := []; log := lg ++ [EvWriteFile p None];
        network := net |}).
Proof.
  unfold os_WriteFile, bind, enter, emit, get_files, set_files, time_Now, ret. by cbn.
Qed.

Lemma os_Rename_alone p q f fs clk lg net :
  fs !! p = Some f →
  os_Rename p q {| files := fs; clock := clk; plan := []; log := lg; network := net |}
  = (None,
     {| files := <[q := f]> (delete p fs); clock := clk; plan := [];
        log := lg ++ [EvRename p q None]; network := net |}).
Proof.
  intros Hf. unfold os_Rename, bind, enter, emit, get_files, set_files, ret. cbn.
  rewrite Hf. by cbn.
Qed.

(** X25. In a world left alone where nobody holds the lock, saveTokens
    fails only when the token map cannot be marshalled (an expiry whose
    year is out of range), and then leaves the files as they were.
    Otherwise it returns nil and the files differ from before in two
    places only: the token file holds the marshalled map (the entries read
    from the old file with the saved one put in), stamped with the time of
    the call, and a temp file left behind by an earlier run is gone.  The
    token file takes the permission bits of that leftover temp file when
    there was one, 0600 otherwise.  No lock file remains either way. *)
Theorem saveTokens_alone `{TimeCodec} cfg storage w :
  plan w = [] → files w !! (tokenFile cfg +:+ ".lock") = None →
  let r := saveTokens cfg storage w in
  let st := effective cfg storage in
  let old := match files w !! tokenFile cfg with
             | Some f => inl (data f)
             | None => inr (PathError "open" (tokenFile cfg) ENOENT)
             end in
  let sm := {| Tokens := Some (<[ClientID st := Some st]> (existing_tokens old)) |} in
  match json_MarshalIndent sm with
  | inr err => r.1.2 = Some err ∧ files r.2 = files w
  | inl d =>
      r.1.2 = None ∧
      files r.2
      = <[tokenFile cfg :=
            {| data := d; mtime := clock w;
               mode := match files w !! (tokenFile cfg +:+ ".tmp") with
                       | Some f => mode f
                       | None => 384
                       end |}]>
          (delete (tokenFile cfg +:+ ".tmp") (files w))
  end.
Proof.
  intros Hplan Hfree. cbn zeta. rewrite saveTokens_eq. cbn zeta.
  unfold acquireFileLock. change maxRetries with (S 49).
  rewrite acquireFileLock_loop_free by done. cbn [fst snd].
  destruct w as [fs clk pl lg net]. cbn [plan files clock log network] in *. subst pl.
  assert (Hl : tokenFile cfg +:+ ".lock" ≠ tokenFile cfg) by by apply string_append_ne.
  assert (Ht : tokenFile cfg +:+ ".tmp" ≠ tokenFile cfg) by by apply string_append_ne.
  rewrite os_ReadFile_alone. cbn zeta. cbn [fst snd].
  rewrite (lookup_insert_ne _ _ _ _ Hl).
  destruct (json_MarshalIndent _) as [d|err].
  - rewrite os_WriteFile_alone. cbn [fst snd].
    erewrite os_Rename_alone by apply lookup_insert_eq. cbn [fst snd].
    assert (Hlt : tokenFile cfg +:+ ".lock" ≠ tokenFile cfg +:+ ".tmp")
      by apply lock_ne_tmp.
    erewrite release_alone; [|done|]; cbn [fst snd files].
    + split; [done|]. rewrite saveTokens_alone_files by done.
      by rewrite lookup_insert_ne by done.
    + rewrite lookup_insert_ne, lookup_delete_ne, lookup_insert_ne by done.
      apply lookup_insert_eq.
  - erewrite release_alone; [|done|apply lookup_insert_eq]. cbn [fst snd files].
    split; [done|]. rewrite delete_insert_eq. by apply delete_id.
Qed.

(** A first save, in a directory that holds nothing yet. *)
Lemma saveTokens_alone_witness :
  let w := empty_world in
  let cfg := test_cfg "client-a" in
  let storage := test_storage "" in
  let r := saveTokens cfg storage w in
  let st := effective cfg storage in
  let old := match files w !! tokenFile cfg with
             | Some f => inl (data f)
             | None => inr (PathError "open" (tokenFile cfg) ENOENT)
             end in
  let sm := {| Tokens := Some (<[ClientID st := Some st]> (existing_tokens old)) |} in
  match json_MarshalIndent sm with
  | inr err => r.1.2 = Some err ∧ files r.2 = files w
  | inl d =>
      r.1.2 = None ∧
      files r.2
      = <[tokenFile cfg :=
            {| data := d; mtime := clock w;
               mode := match files w !! (tokenFile cfg +:+ ".tmp") with
                       | Some f => mode f
                       | None => 384
                       end |}]>
          (delete (tokenFile cfg +:+ ".tmp") (files w))
  end.
Proof.
  apply (saveTokens_alone (test_cfg "client-a") (test_storage "") empty_world);
    reflexivity.
Defined.
